(** * auto_deploy: release promotion against a hosted repository

    A shallow embedding of [auto_deploy.py] and the properties of its
    content transformer, change-request manager, check aggregator, status
    mirror and deployment verifier.

    Conventions of the embedding.
    - A Python [str] is a [string]: the sequence of its UTF-8 bytes.  The
      only characters the program inspects are the line feed and the ASCII
      marker [export IMAGE_VERSION=]; neither occurs inside a multi-byte
      UTF-8 sequence, so [split], [startswith] and [join] on bytes agree
      with the same operations on code points.  Bytes become a [str]
      through [decode("utf-8")], which raises [UnicodeDecodeError] unless
      they are well-formed UTF-8.
    - A Python [int] is a [Z]; [None] in a field that otherwise holds a
      string is [None] of an [option string].
    - A Python [set] of names is a [gset string].
    - Calls to the hosting platform, to the HTTP client and to [time.sleep]
      are events.  A function that performs them lives in the monad [M]:
      it reads the history of events so far, emits its own events and
      ends in a value, an exception, or is still running when the fuel of
      an unbounded loop is spent.  The platform is an oracle [Host] whose
      answer to a call may depend on the whole history.
    - A handle fetched and used within one statement
      ([repo.get_commit(sha).create_status(...)]) or on two adjacent lines
      with nothing in between ([get_commit] then [get_check_suites],
      [get_check_suite] then [get_check_runs]) is one event; it fails when
      either call fails.
    - [print] and [logging] calls are not modelled: they return [None],
      raise nothing and take no part in control flow. *)

From stdpp Require Import base decidable option list list_numbers sets gmap strings pretty.
From Stdlib Require Import ZArith Ascii Lia.

Local Open Scope Z_scope.

#[local] Set Warnings "-clear-no-such-hyp".

(** ** Python string primitives *)

(** The line feed, Python's ["\n"]. *)
Definition nl : ascii := "010"%char.

(** [s.startswith(p)]. *)
Fixpoint startswith (p s : string) : bool :=
  match p, s with
  | EmptyString, _ => true
  | String a p', String b s' => if decide (a = b) then startswith p' s' else false
  | String _ _, EmptyString => false
  end.

(** [s.split("\n")]: never empty, [[""]] for the empty string. *)
Fixpoint split_lines (s : string) : list string :=
  match s with
  | EmptyString => [EmptyString]
  | String c s' =>
      if decide (c = nl) then EmptyString :: split_lines s'
      else match split_lines s' with
           | l :: ls => String c l :: ls
           | [] => [String c EmptyString]
           end
  end.

(** ["\n".join(ls)]. *)
Fixpoint join_lines (ls : list string) : string :=
  match ls with
  | [] => EmptyString
  | [l] => l
  | l :: ls' => l +:+ String nl (join_lines ls')
  end.

(** The string holds no line feed. *)
Fixpoint one_line (s : string) : bool :=
  match s with
  | EmptyString => true
  | String c s' => if decide (c = nl) then false else one_line s'
  end.

(** The byte lies between two bounds. *)
Definition byte_in (lo hi : N) (c : ascii) : bool :=
  ((lo <=? N_of_ascii c) && (N_of_ascii c <=? hi))%N.

(** A continuation byte, [80..BF]. *)
Definition continuation (c : ascii) : bool := byte_in 128 191 c.

(** Well-formed UTF-8, as [bytes.decode("utf-8")] requires it: one byte
    [00..7F]; two bytes from [C2..DF]; three bytes from [E0..EF], without
    the overlong forms after [E0] and the surrogates after [ED]; four
    bytes from [F0..F4], without the overlong forms after [F0] and the
    code points above [10FFFF] after [F4]. *)
Fixpoint valid_utf8 (bytes : string) : bool :=
  match bytes with
  | EmptyString => true
  | String a rest =>
      if byte_in 0 127 a then valid_utf8 rest
      else
        match rest with
        | EmptyString => false
        | String b rest2 =>
            if byte_in 194 223 a then continuation b && valid_utf8 rest2
            else
              match rest2 with
              | EmptyString => false
              | String c rest3 =>
                  if byte_in 224 239 a then
                    (if byte_in 224 224 a then byte_in 160 191 b
                     else if byte_in 237 237 a then byte_in 128 159 b
                     else continuation b)
                    && continuation c && valid_utf8 rest3
                  else
                    match rest3 with
                    | EmptyString => false
                    | String d rest4 =>
                        byte_in 240 244 a
                        && (if byte_in 240 240 a then byte_in 144 191 b
                            else if byte_in 244 244 a then byte_in 128 143 b
                            else continuation b)
                        && continuation c && continuation d && valid_utf8 rest4
                    end
              end
        end
  end.

(** ** ContentTransformer *)

Definition marker : string := "export IMAGE_VERSION=".

#[global] Arguments startswith : simpl never.

(** The body of the [for] loop of [update_content]: what is appended to
    [updated_content] for one line. *)
Definition update_line (release_tag line : string) : string :=
  if startswith marker line then marker +:+ release_tag else line.

Definition update_content (file_content release_tag : string) : string :=
  join_lines (map (update_line release_tag) (split_lines file_content)).

(** Number of lines of a text that begin with the marker. *)
Definition marker_lines (text : string) : nat :=
  length (filter (λ l, startswith marker l = true) (split_lines text)).

(** Number of positions at which two lists of lines differ. *)
Fixpoint changed_lines (old new : list string) : nat :=
  match old, new with
  | a :: old', b :: new' => (if decide (a = b) then 0 else 1)%nat + changed_lines old' new'
  | _, _ => 0%nat
  end.

(** ** Exceptions and outcomes *)

Inductive exn : Type :=
| GithubException (status : Z)   (* github.GithubException and its subclasses *)
| RequestException               (* requests.RequestException and its subclasses *)
| ValueError (msg : string)
| RuntimeError (msg : string)
| IndexError
| OtherException (cls : string).

#[global] Instance exn_eq_dec : EqDecision exn.
Proof. solve_decision. Defined.

(** What a call to the outside answers. *)
Definition result (A : Type) : Type := exn + A.

Inductive outcome (A : Type) : Type :=
| Ret (a : A)        (* the function returned [a] *)
| Raise (e : exn)    (* the function raised [e] *)
| Running.           (* fuel spent: a [while] loop is still polling *)
Arguments Ret {A} a.
Arguments Raise {A} e.
Arguments Running {A}.

Definition of_result {A} (r : result A) : outcome A :=
  match r with inl e => Raise e | inr a => Ret a end.

(** ** Data of the hosting platform *)

Record repository := { repo_url : string }.
Record branch := { branch_commit_sha : string }.
(** A file as the platform returns it: [decoded_content] holds its bytes,
    which need not be text. *)
Record content_file := { sha : string; decoded_content : string }.
Inductive contents := ContentList (l : list content_file) | ContentFile (c : content_file).
Record pull_request := { number : Z; head_sha : string; html_url : string }.
Record check_suite := { id : Z }.
Record check_run := { name : string; status : string; conclusion : option string }.
Record git_ref := { object_sha : string }.
Record response := { status_code : Z; reason : string }.

Record DeployInputs := {
  token : string;
  repo_owner : string;
  repo_name : string;
  release_tag : string;
  bot_token : string;
  local_repo_owner : string;
  local_repo_name : string;
  prod_env_file_path : string;
  pre_prod_env_file_path : string
}.

(** ** Events *)

Inductive event : Type :=
| EGetRepo (token url : string) (r : result repository)
| EGetBranch (repo : repository) (branch_name : string) (r : result branch)
| ECreateGitRef (repo : repository) (ref sha : string) (r : result unit)
| EGetContents (repo : repository) (path ref : string) (r : result contents)
| EUpdateFile (repo : repository) (path message content sha branch : string) (r : result unit)
| ECreatePull (repo : repository) (title body head base : string) (r : result pull_request)
| EGetPulls (repo : repository) (head base state : string) (r : result (list pull_request))
| EGetCheckSuites (repo : repository) (sha : string) (r : result (list check_suite))
| EGetCheckRuns (repo : repository) (suite_id : Z) (r : result (list check_run))
| EGetGitRef (repo : repository) (ref : string) (r : result git_ref)
| ECreateStatus (repo : repository) (sha state target_url description context : string) (r : result unit)
| EHttpGet (url : string) (timeout : Z) (r : result response)
| ESleep (seconds : Z).

Definition history := list event.

(** The platform and the network: each answer is a function of the history
    of events before the call and of the call's arguments. *)
Record Host := {
  h_get_repo : history → string → string → result repository;
  h_get_branch : history → repository → string → result branch;
  h_create_git_ref : history → repository → string → string → result unit;
  h_get_contents : history → repository → string → string → result contents;
  h_update_file : history → repository → string → string → string → string → string → result unit;
  h_create_pull : history → repository → string → string → string → string → result pull_request;
  h_get_pulls : history → repository → string → string → string → result (list pull_request);
  h_get_check_suites : history → repository → string → result (list check_suite);
  h_get_check_runs : history → repository → Z → result (list check_run);
  h_get_git_ref : history → repository → string → result git_ref;
  h_create_status : history → repository → string → string → string → string → string → result unit;
  h_http_get : history → string → Z → result response
}.

(** ** The monad of effectful functions *)

(** A computation reads the history before it starts and yields the events
    it emitted together with its outcome. *)
Definition M (A : Type) : Type := history → list event * outcome A.

Definition ret {A} (a : A) : M A := λ _, ([], Ret a).

Definition raise {A} (e : exn) : M A := λ _, ([], Raise e).

Definition running {A} : M A := λ _, ([], Running).

Definition bind {A B} (m : M A) (k : A → M B) : M B := λ h,
  match m h with
  | (s1, Ret a) => let '(s2, o) := k a (h ++ s1) in (s1 ++ s2, o)
  | (s1, Raise e) => (s1, Raise e)
  | (s1, Running) => (s1, Running)
  end.

(** [try: m except <classes>: handler]; [handler e] is [None] when the
    [except] clause does not match [e]. *)
Definition try_except {A} (m : M A) (handler : exn → option (M A)) : M A := λ h,
  match m h with
  | (s1, Raise e) =>
      match handler e with
      | Some k => let '(s2, o) := k (h ++ s1) in (s1 ++ s2, o)
      | None => (s1, Raise e)
      end
  | r => r
  end.

(** One call to the outside: ask the oracle, log the event. *)
Definition perform {A} (answer : history → result A) (ev : result A → event) : M A := λ h,
  ([ev (answer h)], of_result (answer h)).

Declare Scope m_scope.
Delimit Scope m_scope with M.
Notation "x <- y ; z" := (bind y (λ x, z))
  (at level 20, y at level 100, z at level 200, only parsing) : m_scope.
Notation "' x <- y ; z" := (bind y (λ x, z))
  (at level 20, x pattern, y at level 100, z at level 200, only parsing) : m_scope.
Notation "y ;; z" := (bind y (λ _, z))
  (at level 100, z at level 200, only parsing, right associativity) : m_scope.
Local Open Scope m_scope.

(** [for x in xs: s = body(s, x)]. *)
Fixpoint for_each {S X} (body : S → X → M S) (s : S) (xs : list X) : M S :=
  match xs with
  | [] => ret s
  | x :: xs' => s' <- body s x; for_each body s' xs'
  end.

(** [time.sleep(seconds)] on an [int].  CPython first converts the length
    to nanoseconds in a signed 64-bit integer and raises [OverflowError]
    when it does not fit, that is above 9223372036 seconds or below
    -9223372036; then it refuses a negative length with [ValueError]; any
    other length is slept.  (Within the uptime of the machine of the upper
    limit the operating system may still refuse the sleep; no length
    below 2^31 seconds comes near.) *)
Definition sleep (seconds : Z) : M unit :=
  if decide (¬ (-9223372036854775808 ≤ seconds * 1000000000 < 9223372036854775808)) then
    raise (OtherException "OverflowError")
  else if decide (seconds < 0) then raise (ValueError "sleep length must be non-negative")
  else λ _, ([ESleep seconds], Ret tt).

(** [bytes.decode("utf-8")]: the text whose UTF-8 bytes these are, or
    [UnicodeDecodeError] when the bytes are not well formed. *)
Definition decode_utf8 (bytes : string) : M string :=
  if valid_utf8 bytes then ret bytes else raise (OtherException "UnicodeDecodeError").

(** [range(n)]. *)
Definition py_range (n : Z) : list Z := seqZ 0 n.

(** [except GithubException]: the clause matches the class and its
    subclasses, whatever the HTTP status. *)
Definition is_GithubException (e : exn) : bool :=
  match e with GithubException _ => true | _ => false end.

(** ** The program *)

Section Program.
Context (host : Host).

(** *** Calls to the platform *)

Definition get_repo (token repo_owner repo_name : string) : M repository :=
  let url := "https://github.com/" +:+ repo_owner +:+ "/" +:+ repo_name in
  perform (λ h, h_get_repo host h token url) (EGetRepo token url).

Definition get_branch (repo : repository) (branch_name : string) : M branch :=
  perform (λ h, h_get_branch host h repo branch_name) (EGetBranch repo branch_name).

Definition create_git_ref (repo : repository) (ref sha : string) : M unit :=
  perform (λ h, h_create_git_ref host h repo ref sha) (ECreateGitRef repo ref sha).

Definition get_contents (repo : repository) (path ref : string) : M contents :=
  perform (λ h, h_get_contents host h repo path ref) (EGetContents repo path ref).

Definition update_file (repo : repository) (path message content sha branch : string) : M unit :=
  perform (λ h, h_update_file host h repo path message content sha branch)
          (EUpdateFile repo path message content sha branch).

Definition create_pull (repo : repository) (title body head base : string) : M pull_request :=
  perform (λ h, h_create_pull host h repo title body head base) (ECreatePull repo title body head base).

Definition get_pulls (repo : repository) (head base state : string) : M (list pull_request) :=
  perform (λ h, h_get_pulls host h repo head base state) (EGetPulls repo head base state).

Definition get_git_ref (repo : repository) (ref : string) : M git_ref :=
  perform (λ h, h_get_git_ref host h repo ref) (EGetGitRef repo ref).

Definition create_status (repo : repository) (sha state target_url description context : string) : M unit :=
  perform (λ h, h_create_status host h repo sha state target_url description context)
          (ECreateStatus repo sha state target_url description context).

Definition http_get (url : string) (timeout : Z) : M response :=
  perform (λ h, h_http_get host h url timeout) (EHttpGet url timeout).

(** *** ChangeRequestManager *)

Definition get_content (repo : repository) (env_file_path base_branch : string) : M (string * string) :=
  contents <- get_contents repo env_file_path base_branch;
  match contents with
  | ContentList l =>
      match l with
      | c :: _ =>
          let file_content_sha := sha c in
          file_content <- decode_utf8 (decoded_content c);
          ret (file_content, file_content_sha)
      | [] => raise IndexError
      end
  | ContentFile c =>
      let file_content_sha := sha c in
      file_content <- decode_utf8 (decoded_content c);
      ret (file_content, file_content_sha)
  end.

Definition upsert_branch (repo : repository) (new_branch base_sha : string) : M unit :=
  try_except
    (get_branch repo new_branch;; ret tt)
    (λ e, if is_GithubException e
          then Some (create_git_ref repo ("refs/heads/" +:+ new_branch) base_sha)
          else None).

Definition fetch_pr_details (inputs : DeployInputs) : M (Z * string) :=
  repo <- get_repo (token inputs) (repo_owner inputs) (repo_name inputs);
  pulls <- get_pulls repo (repo_owner inputs +:+ ":" +:+ release_tag inputs) "main" "open";
  if decide (length pulls ≠ 1%nat) then
    raise (ValueError ("Failed to fetch PR details: found " +:+ pretty (length pulls)
                       +:+ " open PRs with the head " +:+ repo_owner inputs +:+ ":" +:+ release_tag inputs))
  else
    match pulls with
    | pull :: _ => ret (number pull, head_sha pull)
    | [] => raise IndexError
    end.

Definition prepare_environment (repo : repository) (base_branch env_file_path : string)
  : M (string * string * string) :=
  base_branch_ref <- get_branch repo base_branch;
  let base_sha := branch_commit_sha base_branch_ref in
  '(file_content, file_content_sha) <- get_content repo env_file_path base_branch;
  ret (base_sha, file_content, file_content_sha).

(** The dictionary built by [create_pull_request] and completed by
    [handle_pr_creation]; [target_env] is [None] while the key is absent. *)
Record pr_details := {
  pr : pull_request;
  pr_url : string;
  pr_number : Z;
  target_env : option string
}.

Definition create_pull_request (repo : repository)
  (release_tag base_sha env_file_path commit_message base_branch file_content file_content_sha
   target_env : string) : M pr_details :=
  let updated_content := update_content file_content release_tag in
  let new_branch := release_tag in
  upsert_branch repo new_branch base_sha;;
  update_file repo env_file_path commit_message updated_content file_content_sha new_branch;;
  let pr_title := "Update " +:+ target_env +:+ " image tag with " +:+ release_tag in
  let pr_body := "### Automated Update " +:+ target_env +:+ " image tag in `" +:+ env_file_path
                 +:+ "` with " +:+ release_tag +:+ "." in
  pr <- create_pull repo pr_title pr_body new_branch base_branch;
  ret {| pr := pr; pr_url := html_url pr; pr_number := number pr; target_env := None |}.

(** The [if skip_merge: ... else: ...] block of [handle_pr_creation]:
    the selected file path and the label of the target environment. *)
Definition select_environment (inputs : DeployInputs) (skip_merge : bool) : string * string :=
  if skip_merge then (prod_env_file_path inputs, "PROD")
  else (pre_prod_env_file_path inputs, "PRE-PROD").

Definition handle_pr_creation (inputs : DeployInputs) (repo : repository) (base_branch : string)
  (skip_merge : bool) : M pr_details :=
  let '(env_file_path, target_env) := select_environment inputs skip_merge in
  if decide (env_file_path = "") then
    raise (ValueError ("Environment file path not provided for " +:+ target_env +:+ " environment"))
  else
    let commit_message := "Update " +:+ target_env +:+ " (" +:+ env_file_path
                          +:+ ") with image tag " +:+ release_tag inputs in
    '(base_sha, file_content, file_content_sha) <- prepare_environment repo base_branch env_file_path;
    details <- create_pull_request repo (release_tag inputs) base_sha env_file_path commit_message
                base_branch file_content file_content_sha target_env;
    ret {| pr := pr details; pr_url := pr_url details; pr_number := pr_number details;
            target_env := Some target_env |}.

(** *** Check suites and check runs *)

Definition get_check_suite_status (repo : repository) (commit_sha : string) : M (list check_suite) :=
  perform (λ h, h_get_check_suites host h repo commit_sha) (EGetCheckSuites repo commit_sha).

Definition get_check_runs_status (repo : repository) (check_suite_id : Z) : M (list check_run) :=
  perform (λ h, h_get_check_runs host h repo check_suite_id) (EGetCheckRuns repo check_suite_id).

(** *** DeploymentVerifier *)

(** One pass of the [try] block: [true] when the function returns [True]
    from inside the loop, [false] when the attempt failed. *)
Definition verify_attempt (api_url : string) (timeout : Z) : M bool :=
  try_except
    (response <- http_get api_url timeout;
     if decide (status_code response = 200) then ret true else ret false)
    (λ e, match e with RequestException => Some (ret false) | _ => None end).

Fixpoint verify_loop (api_url : string) (max_attempts wait_time timeout : Z) (attempts : list Z) : M bool :=
  match attempts with
  | [] => ret false
  | attempt :: rest =>
      ok <- verify_attempt api_url timeout;
      if ok then ret true
      else
        (if decide (attempt < max_attempts - 1) then sleep wait_time else ret tt);;
        verify_loop api_url max_attempts wait_time timeout rest
  end.

Definition verify_deployment (api_url : string) (max_attempts wait_time timeout : Z) : M bool :=
  verify_loop api_url max_attempts wait_time timeout (py_range max_attempts).

(** *** StatusMirror *)

Definition process_check_run (check_run : check_run) (all_check_runs_complete : bool) : string * bool :=
  if decide (status check_run = "completed") then
    if decide (conclusion check_run ∈ [Some "success"; Some "skipped"; Some "neutral"]) then
      ("success", all_check_runs_complete)
    else if decide (conclusion check_run ∈
                      [Some "failure"; Some "timed_out"; Some "action_required"; Some "stale";
                       Some "cancelled"]) then
      ("failure", all_check_runs_complete)
    else if decide (conclusion check_run = None) then
      ("pending", all_check_runs_complete)
    else
      ("pending", all_check_runs_complete)
  else if decide (status check_run ∈ ["in_progress"; "queued"]) then
    ("pending", false)
  else
    ("pending", false).

Definition update_local_commit_status (local_repo : repository) (local_commit_sha : string)
  (check_run : check_run) (state : string) (pr_number : Z) (pr_url release_tag : string) : M unit :=
  let context := name check_run +:+ "  / v" +:+ release_tag in
  let description := "PR #" +:+ pretty pr_number in
  create_status local_repo local_commit_sha state pr_url description context.

(** The body of [for check_run in remote_check_runs]. *)
Definition mirror_check_run (local_repo : repository) (local_commit_sha : string) (pr_number : Z)
  (pr_url release_tag : string) (all_check_runs_complete : bool) (check_run : check_run) : M bool :=
  let '(state, all_check_runs_complete) := process_check_run check_run all_check_runs_complete in
  (if decide (status check_run = "completed") then
     update_local_commit_status local_repo local_commit_sha check_run state pr_number pr_url release_tag
   else ret tt);;
  ret all_check_runs_complete.

(** The body of [for suite in remote_check_suites]. *)
Definition mirror_suite (local_repo remote_repo : repository) (local_commit_sha : string)
  (pr_number : Z) (pr_url release_tag : string) (all_check_runs_complete : bool) (suite : check_suite)
  : M bool :=
  remote_check_runs <- get_check_runs_status remote_repo (id suite);
  for_each (mirror_check_run local_repo local_commit_sha pr_number pr_url release_tag)
           all_check_runs_complete remote_check_runs.

(** One iteration of the [while] loop up to its [if not ...: sleep]. *)
Definition mirror_iteration (local_repo remote_repo : repository) (local_commit_sha : string)
  (pr_number : Z) (pr_url release_tag : string) (remote_check_suites : list check_suite) : M bool :=
  for_each (mirror_suite local_repo remote_repo local_commit_sha pr_number pr_url release_tag)
           true remote_check_suites.

(** The [while not all_check_runs_complete] loop, entered with the flag
    [False]; [fuel] bounds the number of iterations. *)
Fixpoint mirror_loop (fuel : nat) (local_repo remote_repo : repository) (local_commit_sha : string)
  (pr_number : Z) (pr_url release_tag : string) (remote_check_suites : list check_suite) : M unit :=
  match fuel with
  | O => running
  | S fuel' =>
      all_check_runs_complete <-
        mirror_iteration local_repo remote_repo local_commit_sha pr_number pr_url release_tag
                         remote_check_suites;
      if all_check_runs_complete then ret tt
      else
        sleep 30;;
        mirror_loop fuel' local_repo remote_repo local_commit_sha pr_number pr_url release_tag
                    remote_check_suites
  end.

(** The outer [try ... except GithubException: log; raise] re-raises what
    it catches, so it is the identity on outcomes. *)
Definition sync_local_commit_with_remote_checks (fuel : nat) (inputs : DeployInputs) (pr_url : string)
  : M unit :=
  local_repo <- get_repo (token inputs) (local_repo_owner inputs) (local_repo_name inputs);
  local_tag <- try_except
                (local_tag <- get_git_ref local_repo ("tags/" +:+ release_tag inputs);
                 ret (Some (object_sha local_tag)))
                (λ e, if is_GithubException e then Some (ret None) else None);
  match local_tag with
  | None => ret tt
  | Some local_commit_sha =>
      remote_repo <- get_repo (token inputs) (repo_owner inputs) (repo_name inputs);
      '(pr_number, remote_commit_sha) <- fetch_pr_details inputs;
      remote_check_suites <- get_check_suite_status remote_repo remote_commit_sha;
      match remote_check_suites with
      | [] => ret tt
      | _ :: _ =>
          mirror_loop fuel local_repo remote_repo local_commit_sha pr_number pr_url
                      (release_tag inputs) remote_check_suites
      end
  end.

(** *** CheckAggregator *)

(** Baseline capture: the body of the first [for suite in check_suites]. *)
Definition observe_suite (repo : repository) (observed_check_names : gset string) (suite : check_suite)
  : M (gset string) :=
  check_runs <- get_check_runs_status repo (id suite);
  ret (foldl (λ names run, names ∪ {[name run]}) observed_check_names check_runs).

(** The body of [for run in check_runs] in the poll loop, on the pair
    [(completed, failed_checks)]. *)
Definition scan_run (observed_check_names : gset string) (acc : gset string * gset string)
  (run : check_run) : gset string * gset string :=
  let '(completed, failed_checks) := acc in
  if decide (name run ∉ observed_check_names) then acc
  else if decide (status run ≠ "completed") then acc
  else
    let completed := completed ∪ {[name run]} in
    if decide (conclusion run = Some "failure") then (completed, failed_checks ∪ {[name run]})
    else (completed, failed_checks).

Definition scan_suite (repo : repository) (observed_check_names : gset string)
  (acc : gset string * gset string) (suite : check_suite) : M (gset string * gset string) :=
  check_runs <- get_check_runs_status repo (id suite);
  ret (foldl (scan_run observed_check_names) acc check_runs).

(** One pass of the [while True] body up to the test [completed ==
    observed_check_names]. *)
Definition poll_checks (repo : repository) (pr_sha : string) (observed_check_names : gset string)
  : M (gset string * gset string) :=
  check_suites <- get_check_suite_status repo pr_sha;
  for_each (scan_suite repo observed_check_names) (∅, ∅) check_suites.

(** The [while True] loop; returns [failed_checks] at the [break]. *)
Fixpoint poll_loop (fuel : nat) (repo : repository) (pr_sha : string)
  (observed_check_names : gset string) : M (gset string) :=
  match fuel with
  | O => running
  | S fuel' =>
      '(completed, failed_checks) <- poll_checks repo pr_sha observed_check_names;
      if decide (completed = observed_check_names) then ret failed_checks
      else
        sleep 60;;
        poll_loop fuel' repo pr_sha observed_check_names
  end.

Definition capture_baseline (repo : repository) (pr_sha : string) : M (gset string) :=
  check_suites <- get_check_suite_status repo pr_sha;
  for_each (observe_suite repo) ∅ check_suites.

Definition monitor_checks (fuel : nat) (repo : repository) (pr_sha : string) : M bool :=
  observed_check_names <- capture_baseline repo pr_sha;
  failed_checks <- poll_loop fuel repo pr_sha observed_check_names;
  if decide (failed_checks ≠ ∅) then ret false else ret true.

End Program.

(** * Observations on event logs *)

(** The check runs the platform listed, in the order they were seen. *)
Definition observed_runs (evs : list event) : list check_run :=
  flat_map (λ ev, match ev with EGetCheckRuns _ _ (inr runs) => runs | _ => [] end) evs.

(** The suites whose runs were asked for, answered or not. *)
Definition polled_suites (evs : list event) : list Z :=
  flat_map (λ ev, match ev with EGetCheckRuns _ suite_id _ => [suite_id] | _ => [] end) evs.

Definition is_completed (run : check_run) : bool := bool_decide (status run = "completed").

(** A commit status as sent to the platform. *)
Record commit_status := {
  cs_repo : repository;
  cs_sha : string;
  cs_state : string;
  cs_target_url : string;
  cs_description : string;
  cs_context : string
}.

(** The commit statuses written, in order. *)
Definition status_writes (evs : list event) : list commit_status :=
  flat_map (λ ev, match ev with
                  | ECreateStatus repo sha state target_url description context _ =>
                      [{| cs_repo := repo; cs_sha := sha; cs_state := state;
                          cs_target_url := target_url; cs_description := description;
                          cs_context := context |}]
                  | _ => []
                  end) evs.

(** The answers to the HTTP requests made, in order. *)
Definition http_attempts (evs : list event) : list (result response) :=
  flat_map (λ ev, match ev with EHttpGet _ _ r => [r] | _ => [] end) evs.

(** The lengths of the sleeps taken, in order. *)
Definition sleeps (evs : list event) : list Z :=
  flat_map (λ ev, match ev with ESleep seconds => [seconds] | _ => [] end) evs.

(** The branch creations asked for. *)
Definition branch_creations (evs : list event) : list (string * string) :=
  flat_map (λ ev, match ev with ECreateGitRef _ ref sha _ => [(ref, sha)] | _ => [] end) evs.

(** An HTTP answer that counts as a failed attempt: a transport error or
    a status other than 200. *)
Definition failed_attempt (r : result response) : Prop :=
  match r with
  | inr response => status_code response ≠ 200
  | inl e => e = RequestException
  end.

#[global] Instance failed_attempt_dec (r : result response) : Decision (failed_attempt r).
Proof. destruct r; simpl; apply _. Defined.

(** The state [process_check_run] assigns to a run; it does not depend
    on the flag threaded through. *)
Definition mirrored_state (run : check_run) : string := (process_check_run run true).1.

(** The commit status [update_local_commit_status] writes for a run. *)
Definition mirrored_status (local_repo : repository) (local_commit_sha : string) (pr_number : Z)
  (pr_url release_tag : string) (run : check_run) : commit_status :=
  {| cs_repo := local_repo; cs_sha := local_commit_sha; cs_state := mirrored_state run;
     cs_target_url := pr_url; cs_description := "PR #" +:+ pretty pr_number;
     cs_context := name run +:+ "  / v" +:+ release_tag |}.

(** One pass over the suites by the status mirror, read off its events:
    the runs of each suite were asked for once, in order, no sleep was
    taken, and the statuses written are those of the runs seen completed,
    one each, in the order seen. *)
Definition mirrored_iteration (local_repo : repository) (local_commit_sha : string) (pr_number : Z)
  (pr_url release_tag : string) (suites : list check_suite) (evs : list event) : Prop :=
  polled_suites evs = map id suites ∧
  sleeps evs = [] ∧
  status_writes evs
  = map (mirrored_status local_repo local_commit_sha pr_number pr_url release_tag)
        (filter (λ run, status run = "completed") (observed_runs evs)).

(** A run of the mirror loop that exits, read off its events: iterations
    each followed by a sleep of 30, in each of which some run was not yet
    completed, and a last iteration in which every run was. *)
Definition mirrored_loop (local_repo : repository) (local_commit_sha : string) (pr_number : Z)
  (pr_url release_tag : string) (suites : list check_suite) (evs : list event) : Prop :=
  ∃ (iterations : list (list event)) (last : list event),
    evs = concat (map (λ it, it ++ [ESleep 30]) iterations) ++ last ∧
    Forall (λ it, mirrored_iteration local_repo local_commit_sha pr_number pr_url release_tag
                                     suites it ∧
                  forallb is_completed (observed_runs it) = false) iterations ∧
    mirrored_iteration local_repo local_commit_sha pr_number pr_url release_tag suites last ∧
    forallb is_completed (observed_runs last) = true.

(** The pair [(completed, failed_checks)] after scanning a list of runs
    from empty sets. *)
Definition scan_runs (observed_check_names : gset string) (runs : list check_run)
  : gset string * gset string :=
  foldl (scan_run observed_check_names) (∅, ∅) runs.

(** The names of a list of runs. *)
Definition run_names (runs : list check_run) : gset string :=
  foldl (λ names run, names ∪ {[name run]}) ∅ runs.

(** One enumeration by the check aggregator, read off its events: the
    suites of the commit were listed, the runs of each were asked for
    once, in order, and no sleep was taken. *)
Definition enumeration (repo : repository) (pr_sha : string) (evs : list event) : Prop :=
  sleeps evs = [] ∧
  ∃ suites rest,
    evs = EGetCheckSuites repo pr_sha (inr suites) :: rest ∧
    polled_suites rest = map id suites.

(** The baseline names with a completed run among [runs], and those
    with a run completed with the conclusion ["failure"]: the sets the
    specification calls the completed baseline task names and the failed
    checks of one poll. *)
Definition baseline_completed (B : gset string) (runs : list check_run) : gset string :=
  list_to_set (name <$> filter (λ run, name run ∈ B ∧ status run = "completed") runs).

Definition baseline_failed (B : gset string) (runs : list check_run) : gset string :=
  list_to_set (name <$> filter (λ run, name run ∈ B ∧ status run = "completed"
                                       ∧ conclusion run = Some "failure") runs).

(** What a run of [monitor_checks] that did not raise looks like: a
    baseline enumeration, then polls separated by sleeps of 60.  Every
    poll followed by a sleep left some baseline name without a completed
    run; a run that returned ended on a poll in which the completed
    baseline names were the whole baseline, with the verdict [False]
    exactly when a baseline run of that poll was completed with the
    conclusion ["failure"]; a run still going after [fuel] polls has met
    no such poll. *)
Definition scoped_run (fuel : nat) (repo : repository) (pr_sha : string) (evs : list event)
  (o : outcome bool) : Prop :=
  match o with
  | Raise _ => True
  | _ =>
      ∃ (baseline : list event) (polls : list (list event)) (last : list event),
        evs = baseline ++ concat (map (λ p, p ++ [ESleep 60]) polls) ++ last ∧
        enumeration repo pr_sha baseline ∧
        let B := run_names (observed_runs baseline) in
        (∀ n, n ∈ B ↔ ∃ run, run ∈ observed_runs baseline ∧ name run = n) ∧
        Forall (λ p, enumeration repo pr_sha p ∧ baseline_completed B (observed_runs p) ≠ B)
               polls ∧
        match o with
        | Ret verdict =>
            enumeration repo pr_sha last ∧
            baseline_completed B (observed_runs last) = B ∧
            (verdict = false ↔
             ∃ run, run ∈ observed_runs last ∧ name run ∈ B ∧ status run = "completed" ∧
                    conclusion run = Some "failure")
        | _ => last = [] ∧ length polls = fuel
        end
  end.

(** The conclusions the status mirror classifies as a failure. *)
Definition failure_class : list (option string) :=
  [Some "failure"; Some "timed_out"; Some "action_required"; Some "stale"; Some "cancelled"].

(** The conclusions the status mirror classifies as a success. *)
Definition success_class : list (option string) :=
  [Some "success"; Some "skipped"; Some "neutral"].

(** * What a computation may do *)

(** Every event of every run of [m], whatever the history and the
    outcome, satisfies [Q]. *)
Definition emits {A} (Q : event → Prop) (m : M A) : Prop := ∀ h, Forall Q (m h).1.

(** The exception an answer carries, if it is one. *)
Definition error_of {A} (r : result A) : option exn :=
  match r with inl e => Some e | inr _ => None end.

(** The exception a call ended in, if it failed. *)
Definition failure_of (ev : event) : option exn :=
  match ev with
  | EGetRepo _ _ r => error_of r
  | EGetBranch _ _ r => error_of r
  | ECreateGitRef _ _ _ r => error_of r
  | EGetContents _ _ _ r => error_of r
  | EUpdateFile _ _ _ _ _ _ r => error_of r
  | ECreatePull _ _ _ _ _ r => error_of r
  | EGetPulls _ _ _ _ r => error_of r
  | EGetCheckSuites _ _ r => error_of r
  | EGetCheckRuns _ _ r => error_of r
  | EGetGitRef _ _ r => error_of r
  | ECreateStatus _ _ _ _ _ _ r => error_of r
  | EHttpGet _ _ r => error_of r
  | ESleep _ => None
  end.

(** A run that swallowed no error and raised none of its own: either
    every call succeeded, or the last call failed, every call before it
    succeeded, and the exception of that call is the outcome. *)
Definition transparent {A} (evs : list event) (o : outcome A) : Prop :=
  match o with
  | Raise e =>
      ∃ pre ev, evs = pre ++ [ev] ∧ failure_of ev = Some e ∧
                Forall (λ ev, failure_of ev = None) pre
  | _ => Forall (λ ev, failure_of ev = None) evs
  end.

(** The events of the check aggregator on a commit: listing its check
    suites, listing the runs of a suite, sleeping 60. *)
Definition check_read (repo : repository) (pr_sha : string) (ev : event) : Prop :=
  match ev with
  | EGetCheckSuites r s _ => r = repo ∧ s = pr_sha
  | EGetCheckRuns r _ _ => r = repo
  | ESleep seconds => seconds = 60
  | _ => False
  end.

(** The events of the deployment verifier: a GET of the URL with the
    timeout, a sleep of the wait time. *)
Definition health_probe (api_url : string) (timeout wait_time : Z) (ev : event) : Prop :=
  match ev with
  | EHttpGet u t _ => u = api_url ∧ t = timeout
  | ESleep seconds => seconds = wait_time
  | _ => False
  end.


#[global] Instance repository_eq_dec : EqDecision repository.
Proof. solve_decision. Defined.

(** The event shows that the branch exists: a probe found it, or the
    creation of its ref succeeded. *)
Definition shows_branch (repo : repository) (branch_name : string) (ev : event) : bool :=
  match ev with
  | EGetBranch r n (inr _) => bool_decide (r = repo ∧ n = branch_name)
  | ECreateGitRef r ref _ (inr _) => bool_decide (r = repo ∧ ref = "refs/heads/" +:+ branch_name)
  | _ => false
  end.

(** A platform on which branches stay: once the history shows a branch,
    the probe for it finds it. *)
Definition keeps_branches (host : Host) : Prop :=
  ∀ h repo branch_name,
    existsb (shows_branch repo branch_name) h = true →
    ∃ b, h_get_branch host h repo branch_name = inr b.

(** The file a [get_contents] answer stands for: the file itself, or the
    first entry of a listing. *)
Definition first_file (c : contents) : option content_file :=
  match c with
  | ContentFile file => Some file
  | ContentList (file :: _) => Some file
  | ContentList [] => None
  end.

(** An event that changes the repository: the creation of a ref, the
    update of a file, the opening of a change request, a commit status. *)
Definition is_write (ev : event) : bool :=
  match ev with
  | ECreateGitRef _ _ _ _ | EUpdateFile _ _ _ _ _ _ _ | ECreatePull _ _ _ _ _ _
  | ECreateStatus _ _ _ _ _ _ _ => true
  | _ => false
  end.

(** What a commit status written by the mirror must look like: on the
    given commit of the given repository, linking the given URL, with one
    of the three states. *)
Definition status_on (local_repo : repository) (local_commit_sha pr_url : string) (ev : event)
  : Prop :=
  match ev with
  | ECreateStatus r sha state target_url _ _ _ =>
      r = local_repo ∧ sha = local_commit_sha ∧ target_url = pr_url ∧
      state ∈ ["success"; "failure"; "pending"]
  | _ => True
  end.

(** An event that writes no commit status and is no sleep. *)
Definition quiet (ev : event) : Prop :=
  match ev with
  | ECreateStatus _ _ _ _ _ _ _ | ESleep _ => False
  | _ => True
  end.

(** ** The status mirror, whatever the outcome *)

(** The check suites the platform listed, in the order they were seen. *)
Definition listed_suites (evs : list event) : list check_suite :=
  flat_map (λ ev, match ev with EGetCheckSuites _ _ (inr suites) => suites | _ => [] end) evs.

(** A walk over [runs] that the failure of a commit status write cut
    short: the last event is that write and carries the exception, every
    event before it succeeded, and the statuses written, the failed one
    included, are those of the completed runs among the runs reached, of
    which the last is the run whose write failed. *)
Definition write_failed (write : check_run → commit_status) (runs : list check_run)
  (evs : list event) (e : exn) : Prop :=
  ∃ pre ev reached run,
    evs = pre ++ [ev] ∧ failure_of ev = Some e ∧ Forall (λ ev, failure_of ev = None) pre ∧
    match ev with ECreateStatus _ _ _ _ _ _ _ => True | _ => False end ∧
    reached `prefix_of` runs ∧ last reached = Some run ∧ status run = "completed" ∧
    status_writes evs = map write (filter (λ run, status run = "completed") reached).

(** Events that a failed call cut short, read against the runs [seen]:
    the last event is the failed call and carries the exception, every
    event before it succeeded, and the statuses written are those of the
    completed runs among the runs reached, one each, in order.  When a
    listing of check runs failed, every run seen had been reached; when a
    write failed, the run it was for is the last one reached. *)
Definition cut_short (write : check_run → commit_status) (seen : list check_run)
  (evs : list event) (e : exn) : Prop :=
  ∃ pre ev reached,
    evs = pre ++ [ev] ∧ failure_of ev = Some e ∧ Forall (λ ev, failure_of ev = None) pre ∧
    reached `prefix_of` seen ∧
    status_writes evs = map write (filter (λ run, status run = "completed") reached) ∧
    match ev with
    | EGetCheckRuns _ _ _ => reached = seen
    | ECreateStatus _ _ _ _ _ _ _ => ∃ run, last reached = Some run ∧ status run = "completed"
    | _ => False
    end.

(** A pass over the suites by the status mirror that a failed call cut
    short with the exception [e], read off its events: the runs of the
    first suites were asked for, in order, up to the failure, and no sleep
    was taken. *)
Definition interrupted_iteration (local_repo : repository) (local_commit_sha : string)
  (pr_number : Z) (pr_url release_tag : string) (suites : list check_suite) (evs : list event)
  (e : exn) : Prop :=
  polled_suites evs `prefix_of` map id suites ∧
  sleeps evs = [] ∧
  cut_short (mirrored_status local_repo local_commit_sha pr_number pr_url release_tag)
            (observed_runs evs) evs e.

(** A run of the mirror loop, read off its events and its outcome:
    iterations each followed by a sleep of 30, in each of which some run
    was not yet completed, and then, when the loop exits, a last
    iteration in which every run was completed; when a call fails, the
    iteration it cut short; when the loop is still going after [fuel]
    iterations, nothing more. *)
Definition mirrored_run (local_repo : repository) (local_commit_sha : string) (pr_number : Z)
  (pr_url release_tag : string) (fuel : nat) (suites : list check_suite) (evs : list event)
  (o : outcome unit) : Prop :=
  match o with
  | Ret _ => mirrored_loop local_repo local_commit_sha pr_number pr_url release_tag suites evs
  | Raise e =>
      ∃ (iterations : list (list event)) (last : list event),
        evs = concat (map (λ it, it ++ [ESleep 30]) iterations) ++ last ∧
        Forall (λ it, mirrored_iteration local_repo local_commit_sha pr_number pr_url release_tag
                                         suites it ∧
                      forallb is_completed (observed_runs it) = false) iterations ∧
        interrupted_iteration local_repo local_commit_sha pr_number pr_url release_tag suites
                              last e
  | Running =>
      ∃ iterations : list (list event),
        evs = concat (map (λ it, it ++ [ESleep 30]) iterations) ∧
        Forall (λ it, mirrored_iteration local_repo local_commit_sha pr_number pr_url release_tag
                                         suites it ∧
                      forallb is_completed (observed_runs it) = false) iterations ∧
        length iterations = fuel
  end.

(** * The release pipeline

    [main] and the three functions only it calls reach the platform through
    review and merge calls the functions above never make.  Their events
    are a type of their own; a step of the pipeline is an event of either
    kind, and a computation of the pipeline reads and extends a log of
    steps.  The platform answers a review or merge call from the log so
    far; for the call of a function embedded above it presents, from the
    log at the moment the function is entered, the [Host] that function
    talks to.
    - [pull = repo.get_pull(n)] and the call on [pull] that follows it are
      one event, as before.
    - [any(review.state == "APPROVED" for review in reviews)] stops at the
      first approved review; the answer of [EGetReviews] is the list as far
      as the iteration read it, or the exception it met.
    - [initialize_inputs] reads the process environment; [main] takes the
      inputs it returns as a parameter.
    - Every [try] of [main] and of [pr_merge] re-raises what it catches
      after printing it, so none changes an outcome. *)

Record review := { review_state : string }.

Record merge_status := { merged : bool; message : string }.

Inductive review_event : Type :=
| ECreateReview (repo : repository) (pr_number : Z) (verdict : string) (r : result unit)
| EGetReviews (repo : repository) (pr_number : Z) (r : result (list review))
| EMerge (repo : repository) (pr_number : Z) (commit_title commit_message merge_method : string)
         (r : result merge_status).

Inductive step : Type :=
| Core (ev : event)
| Review (ev : review_event).

Definition log := list step.

(** The events of the functions above among the steps of a log. *)
Definition core_events (l : list step) : list event :=
  flat_map (λ s, match s with Core ev => [ev] | Review _ => [] end) l.

Record Platform := {
  core_host : log → Host;
  p_create_review : log → repository → Z → string → result unit;
  p_get_reviews : log → repository → Z → result (list review);
  p_merge : log → repository → Z → string → string → string → result merge_status
}.

(** A computation of the pipeline: from the log before it to the steps it
    took and its outcome. *)
Definition P (A : Type) : Type := log → list step * outcome A.

Definition pret {A} (a : A) : P A := λ _, ([], Ret a).

Definition praise {A} (e : exn) : P A := λ _, ([], Raise e).

Definition pbind {A B} (m : P A) (k : A → P B) : P B := λ l,
  match m l with
  | (s1, Ret a) => let '(s2, o) := k a (l ++ s1) in (s1 ++ s2, o)
  | (s1, Raise e) => (s1, Raise e)
  | (s1, Running) => (s1, Running)
  end.

(** One review or merge call: ask the platform, log the step. *)
Definition pperform {A} (answer : log → result A) (ev : result A → review_event) : P A := λ l,
  ([Review (ev (answer l))], of_result (answer l)).

(** A function embedded above, run against the host the platform presents
    on entry and on the events logged so far. *)
Definition lift {A} (platform : Platform) (m : Host → M A) : P A := λ l,
  let '(evs, o) := m (core_host platform l) (core_events l) in (map Core evs, o).

Declare Scope p_scope.
Delimit Scope p_scope with P.
Notation "x <- y ; z" := (pbind y (λ x, z))
  (at level 20, y at level 100, z at level 200, only parsing) : p_scope.
Notation "' x <- y ; z" := (pbind y (λ x, z))
  (at level 20, x pattern, y at level 100, z at level 200, only parsing) : p_scope.
Notation "y ;; z" := (pbind y (λ _, z))
  (at level 100, z at level 200, only parsing, right associativity) : p_scope.

(** The endpoint [main] verifies. *)
Definition api_url : string := "https://api.lapwing-pre.altera.com/schema".

Section Pipeline.
Context (platform : Platform).
Local Open Scope p_scope.

Definition create_review (repo : repository) (pr_number : Z) (verdict : string) : P unit :=
  pperform (λ l, p_create_review platform l repo pr_number verdict)
           (ECreateReview repo pr_number verdict).

Definition get_reviews (repo : repository) (pr_number : Z) : P (list review) :=
  pperform (λ l, p_get_reviews platform l repo pr_number) (EGetReviews repo pr_number).

Definition merge (repo : repository) (pr_number : Z)
  (commit_title commit_message merge_method : string) : P merge_status :=
  pperform (λ l, p_merge platform l repo pr_number commit_title commit_message merge_method)
           (EMerge repo pr_number commit_title commit_message merge_method).

Definition approve_pull_request (bot_token repo_owner repo_name : string) (pr_number : Z) : P unit :=
  repo <- lift platform (λ host, get_repo host bot_token repo_owner repo_name);
  create_review repo pr_number "APPROVE".

Definition is_pr_approved (repo : repository) (pr_number : Z) : P bool :=
  reviews <- get_reviews repo pr_number;
  pret (existsb (λ review, bool_decide (review_state review = "APPROVED")) reviews).

Definition pr_merge (token repo_owner repo_name : string) (pr_number : Z)
  (commit_title commit_message merge_method : string) : P unit :=
  repo <- lift platform (λ host, get_repo host token repo_owner repo_name);
  result <- merge repo pr_number commit_title commit_message merge_method;
  if merged result then pret tt
  else praise (RuntimeError ("Failed to merge PR #" +:+ pretty pr_number +:+ ": "
                             +:+ message result)).

(** [main] from its first statement to the verdict of [monitor_checks]:
    the repository, the number of the change request and the verdict. *)
Definition open_and_check (fuel : nat) (inputs : DeployInputs) (skip_merge : bool)
  : P (repository * Z * bool) :=
  let base_branch := "main" in
  repo <- lift platform (λ host, get_repo host (token inputs) (repo_owner inputs) (repo_name inputs));
  pr_details <- lift platform (λ host, handle_pr_creation host inputs repo base_branch skip_merge);
  '(pr_number, pr_sha) <- lift platform (λ host, fetch_pr_details host inputs);
  let pr_url := pr_url pr_details in
  lift platform (λ _, sleep 10);;
  lift platform (λ host, sync_local_commit_with_remote_checks host fuel inputs pr_url);;
  all_checks_passed <- lift platform (λ host, monitor_checks host fuel repo pr_sha);
  pret (repo, pr_number, all_checks_passed).

(** The body of [elif all_checks_passed:]. *)
Definition approve_merge_verify (inputs : DeployInputs) (repo : repository) (pr_number : Z)
  : P unit :=
  approve_pull_request (bot_token inputs) (repo_owner inputs) (repo_name inputs) pr_number;;
  lift platform (λ _, sleep 10);;
  approved <- is_pr_approved repo pr_number;
  if approved then
    pr_merge (token inputs) (repo_owner inputs) (repo_name inputs) pr_number
             "Merging Passing PR" "Merging PR automatically as all checks have passed" "squash";;
    lift platform (λ _, sleep 45);;
    verified <- lift platform (λ host, verify_deployment host api_url 10 30 10);
    if verified then pret tt
    else praise (RuntimeError "Deployment verification failed after merge.")
  else praise (RuntimeError "PR has not been approved.").

Definition main (fuel : nat) (inputs : DeployInputs) (skip_merge : bool) : P unit :=
  '(repo, pr_number, all_checks_passed) <- open_and_check fuel inputs skip_merge;
  if skip_merge then pret tt
  else if all_checks_passed then approve_merge_verify inputs repo pr_number
  else praise (RuntimeError "Deployment failed due to failed checks.").

End Pipeline.

(** ** Observations on logs of steps *)

(** The answers to the approvals sent, to the listings of reviews and to
    the merges asked for, in order. *)
Definition approvals (l : list step) : list (result unit) :=
  flat_map (λ s, match s with Review (ECreateReview _ _ _ r) => [r] | _ => [] end) l.

Definition review_listings (l : list step) : list (result (list review)) :=
  flat_map (λ s, match s with Review (EGetReviews _ _ r) => [r] | _ => [] end) l.

Definition merges (l : list step) : list (result merge_status) :=
  flat_map (λ s, match s with Review (EMerge _ _ _ _ _ r) => [r] | _ => [] end) l.

(** The reviews hold an approval. *)
Definition approved_among (reviews : list review) : Prop :=
  ∃ review, review ∈ reviews ∧ review_state review = "APPROVED".

(** An event other than a request to the health endpoint. *)
Definition not_probe (ev : event) : Prop :=
  match ev with EHttpGet _ _ _ => False | _ => True end.

(** Every step of every run of [m], whatever the log and the outcome,
    satisfies [Q]. *)
Definition pemits {A} (Q : step → Prop) (m : P A) : Prop := ∀ l, Forall Q (m l).1.

(** A step that belongs to no release: neither a review or merge call nor
    a request to the health endpoint. *)
Definition before_release (s : step) : Prop :=
  match s with Core ev => not_probe ev | Review _ => False end.

(** The exception a review or merge call ended in, if it failed. *)
Definition review_failure (ev : review_event) : option exn :=
  match ev with
  | ECreateReview _ _ _ r => error_of r
  | EGetReviews _ _ r => error_of r
  | EMerge _ _ _ _ _ r => error_of r
  end.

(** What a step of the release requires of the steps [pre] before it: a
    review sent is an approval; the reviews of a change request are listed
    once an approval of it has been accepted; a merge is a squash of a
    change request whose listed reviews hold an approval; the health
    endpoint is asked once a merge has been answered as done. *)
Definition step_allowed (pre : list step) (s : step) : Prop :=
  match s with
  | Review (ECreateReview _ _ verdict _) => verdict = "APPROVE"
  | Review (EGetReviews _ n _) =>
      ∃ bot_repo, Review (ECreateReview bot_repo n "APPROVE" (inr tt)) ∈ pre
  | Review (EMerge _ n _ _ merge_method _) =>
      merge_method = "squash" ∧
      ∃ repo reviews, Review (EGetReviews repo n (inr reviews)) ∈ pre ∧ approved_among reviews
  | Core (EHttpGet url _ _) =>
      url = api_url ∧
      ∃ repo n title body status,
        Review (EMerge repo n title body "squash" (inr status)) ∈ pre ∧ merged status = true
  | Core _ => True
  end.

(** Every step of [steps] is allowed after the steps before it, those
    of [seen] included. *)
Definition in_order (seen steps : list step) : Prop :=
  ∀ pre s post, steps = pre ++ s :: post → step_allowed (seen ++ pre) s.

(** A failed review or merge call ends the run: it is the last step,
    and its exception is the outcome. *)
Definition fails_at_once {A} (steps : list step) (o : outcome A) : Prop :=
  ∀ pre ev post e,
    steps = pre ++ Review ev :: post → review_failure ev = Some e → post = [] ∧ o = Raise e.

(** * Scenarios

    Concrete inputs used by the examples below. *)

(** A release tag that carries a line feed: ["2\nx"]. *)
Definition tag_with_line_feed : string := "2" +:+ String nl "x".

(** A file of one line, the marker line. *)
Definition one_marker_line : string := "export IMAGE_VERSION=1".

(** A file whose two lines both begin with the marker. *)
Definition two_marker_lines : string :=
  "export IMAGE_VERSION=1" +:+ String nl "export IMAGE_VERSION=2".

(** A file with the marker line between two others. *)
Definition env_file : string :=
  "A=1" +:+ String nl ("export IMAGE_VERSION=1.0" +:+ String nl "B=2").

(** A platform that answers every call: repositories are named by their
    URL, file and change-request calls succeed with fixed answers, and the
    parameters script the branch probe, the open change requests, the
    check suites, the check runs and the health endpoint. *)
Definition scripted_host
  (branches : string → result branch)
  (pulls : list pull_request)
  (suites : list check_suite)
  (runs : history → Z → list check_run)
  (http : history → result response) : Host :=
  {| h_get_repo := λ _ _ url, inr {| repo_url := url |};
     h_get_branch := λ _ _ branch_name, branches branch_name;
     h_create_git_ref := λ _ _ _ _, inr tt;
     h_get_contents := λ _ _ _ _, inr (ContentFile {| sha := "f00d"; decoded_content := env_file |});
     h_update_file := λ _ _ _ _ _ _ _, inr tt;
     h_create_pull := λ _ _ _ _ _ _,
       inr {| number := 7; head_sha := "c0ffee"; html_url := "https://github.com/acme/deploy/pull/7" |};
     h_get_pulls := λ _ _ _ _ _, inr pulls;
     h_get_check_suites := λ _ _ _, inr suites;
     h_get_check_runs := λ h _ suite_id, inr (runs h suite_id);
     h_get_git_ref := λ _ _ _, inr {| object_sha := "7a9" |};
     h_create_status := λ _ _ _ _ _ _ _, inr tt;
     h_http_get := λ h _ _, http h |}.

Definition acme : repository := {| repo_url := "https://github.com/acme/deploy" |}.

Definition acme_inputs : DeployInputs :=
  {| token := "t0k"; repo_owner := "acme"; repo_name := "deploy"; release_tag := "1.4.2";
     bot_token := "b0t"; local_repo_owner := "acme"; local_repo_name := "app";
     prod_env_file_path := ""; pre_prod_env_file_path := "env/pre-prod.sh" |}.

Definition pull7 : pull_request :=
  {| number := 7; head_sha := "c0ffee"; html_url := "https://github.com/acme/deploy/pull/7" |}.

Definition pull8 : pull_request :=
  {| number := 8; head_sha := "decaf"; html_url := "https://github.com/acme/deploy/pull/8" |}.

Definition no_runs : history → Z → list check_run := λ _ _, [].

Definition always (status_code : Z) : history → result response :=
  λ _, inr {| status_code := status_code; reason := "" |}.

(** The existence probe fails with a server error, status 500. *)
Definition host_probe_500 : Host :=
  scripted_host (λ _, inl (GithubException 500)) [] [] no_runs (always 200).

(** The existence probe fails with a timeout of the transport. *)
Definition host_probe_timeout : Host :=
  scripted_host (λ _, inl (OtherException "ReadTimeout")) [] [] no_runs (always 200).

(** Every branch exists. *)
Definition host_branch_exists : Host :=
  scripted_host (λ _, inr {| branch_commit_sha := "ba5e" |}) [pull7] [] no_runs (always 200).

(** Two open change requests match. *)
Definition host_two_pulls : Host :=
  scripted_host (λ _, inr {| branch_commit_sha := "ba5e" |}) [pull7; pull8] [] no_runs (always 200).

(** The health endpoint answers 503 three times, then 200. *)
Definition host_healthy_on_fourth : Host :=
  scripted_host (λ _, inl (GithubException 404)) [] [] no_runs
    (λ h, if decide (length (http_attempts h) < 3)%nat
          then inr {| status_code := 503; reason := "Service Unavailable" |}
          else inr {| status_code := 200; reason := "OK" |}).

(** The health endpoint never answers 200. *)
Definition host_unhealthy : Host :=
  scripted_host (λ _, inl (GithubException 404)) [] [] no_runs (always 503).

Definition run (name status : string) (conclusion : option string) : check_run :=
  {| name := name; status := status; conclusion := conclusion |}.

(** One suite with one run, ["build"], completed with [timed_out]. *)
Definition host_build_timed_out : Host :=
  scripted_host (λ _, inl (GithubException 404)) [pull7] [{| id := 1 |}]
    (λ _ _, [run "build" "completed" (Some "timed_out")]) (always 200).

(** Scenario A of the specification: ["build"] and ["test"] are in
    progress at the baseline and at the first poll, ["build"] completes
    before the second, ["test"] before the third; a run ["lint"] that was
    not in the baseline shows up, queued, from the second poll on. *)
Definition host_scenario_a : Host :=
  scripted_host (λ _, inl (GithubException 404)) [pull7] [{| id := 1 |}]
    (λ h _, match length (sleeps h) with
            | 0%nat => [run "build" "in_progress" None; run "test" "in_progress" None]
            | 1%nat => [run "build" "completed" (Some "success"); run "test" "in_progress" None;
                        run "lint" "queued" None]
            | _ => [run "build" "completed" (Some "success"); run "test" "completed" (Some "success");
                    run "lint" "queued" None]
            end) (always 200).

(** Scenario B of the specification: at the first poll ["build"] is
    completed with a failure and ["test"] with a success. *)
Definition host_scenario_b : Host :=
  scripted_host (λ _, inl (GithubException 404)) [pull7] [{| id := 1 |}]
    (λ _ _, [run "build" "completed" (Some "failure"); run "test" "completed" (Some "success")])
    (always 200).

(** The status mirror sees ["build"] completed from the start and
    ["test"] completed only after one sleep. *)
Definition host_mirror : Host :=
  scripted_host (λ _, inl (GithubException 404)) [pull7] [{| id := 1 |}]
    (λ h _, match length (sleeps h) with
            | 0%nat => [run "build" "completed" (Some "success"); run "test" "in_progress" None]
            | _ => [run "build" "completed" (Some "success"); run "test" "completed" (Some "failure")]
            end) (always 200).


(** The health endpoint answers 503 once; the second request dies in
    the client with an exception that is no [RequestException]. *)
Definition host_client_crash : Host :=
  scripted_host (λ _, inl (GithubException 404)) [] [] no_runs
    (λ h, if decide (length (http_attempts h) < 1)%nat
          then inr {| status_code := 503; reason := "Service Unavailable" |}
          else inl (OtherException "MemoryError")).

(** A platform that remembers branches: the probe finds a branch once
    the history shows it, and answers "not found" before. *)
Definition host_remembering : Host :=
  {| h_get_repo := h_get_repo host_unhealthy;
     h_get_branch := λ h repo branch_name,
       if existsb (shows_branch repo branch_name) h
       then inr {| branch_commit_sha := "ba5e" |}
       else inl (GithubException 404);
     h_create_git_ref := h_create_git_ref host_unhealthy;
     h_get_contents := h_get_contents host_unhealthy;
     h_update_file := h_update_file host_unhealthy;
     h_create_pull := h_create_pull host_unhealthy;
     h_get_pulls := h_get_pulls host_unhealthy;
     h_get_check_suites := h_get_check_suites host_unhealthy;
     h_get_check_runs := h_get_check_runs host_unhealthy;
     h_get_git_ref := h_get_git_ref host_unhealthy;
     h_create_status := h_create_status host_unhealthy;
     h_http_get := h_http_get host_unhealthy |}.


(** As [host_branch_exists], but the environment file holds the single
    byte [FF], which is no UTF-8 text. *)
Definition host_binary_file : Host :=
  {| h_get_repo := h_get_repo host_branch_exists;
     h_get_branch := h_get_branch host_branch_exists;
     h_create_git_ref := h_create_git_ref host_branch_exists;
     h_get_contents := λ _ _ _ _,
       inr (ContentFile {| sha := "f00d"; decoded_content := String "255"%char "" |});
     h_update_file := h_update_file host_branch_exists;
     h_create_pull := h_create_pull host_branch_exists;
     h_get_pulls := h_get_pulls host_branch_exists;
     h_get_check_suites := h_get_check_suites host_branch_exists;
     h_get_check_runs := h_get_check_runs host_branch_exists;
     h_get_git_ref := h_get_git_ref host_branch_exists;
     h_create_status := h_create_status host_branch_exists;
     h_http_get := h_http_get host_branch_exists |}.

(** As [host_scenario_b], where ["build"] and ["test"] are both
    completed, but the platform answers every commit status write with
    status 502. *)
Definition host_status_down : Host :=
  {| h_get_repo := h_get_repo host_scenario_b;
     h_get_branch := h_get_branch host_scenario_b;
     h_create_git_ref := h_create_git_ref host_scenario_b;
     h_get_contents := h_get_contents host_scenario_b;
     h_update_file := h_update_file host_scenario_b;
     h_create_pull := h_create_pull host_scenario_b;
     h_get_pulls := h_get_pulls host_scenario_b;
     h_get_check_suites := h_get_check_suites host_scenario_b;
     h_get_check_runs := h_get_check_runs host_scenario_b;
     h_get_git_ref := h_get_git_ref host_scenario_b;
     h_create_status := λ _ _ _ _ _ _ _, inl (GithubException 502);
     h_http_get := h_http_get host_scenario_b |}.

(** A platform that accepts every approval, lists the given reviews and
    answers every merge as given; the calls of the functions above go to
    the given host. *)
Definition scripted_platform (host : Host) (reviews : list review)
  (merge_answer : result merge_status) : Platform :=
  {| core_host := λ _, host;
     p_create_review := λ _ _ _ _, inr tt;
     p_get_reviews := λ _ _ _, inr reviews;
     p_merge := λ _ _ _ _ _ _, merge_answer |}.

Definition approved : review := {| review_state := "APPROVED" |}.

Definition changes_requested : review := {| review_state := "CHANGES_REQUESTED" |}.

(** The release goes through: no check suite, an approval that a later
    review contradicts, a merge that succeeds, a healthy endpoint. *)
Definition platform_release : Platform :=
  scripted_platform host_branch_exists [approved; changes_requested]
    (inr {| merged := true; message := "Pull Request successfully merged" |}).

(** The platform refuses the merge. *)
Definition platform_refused : Platform :=
  scripted_platform host_branch_exists [approved]
    (inr {| merged := false; message := "Pull Request is not mergeable" |}).

(** The merge call fails with status 405. *)
Definition platform_merge_error : Platform :=
  scripted_platform host_branch_exists [approved] (inl (GithubException 405)).


(** The release goes through, and the health endpoint answers 503 three
    times before it answers 200. *)
Definition platform_slow_start : Platform :=
  scripted_platform
    (scripted_host (λ _, inr {| branch_commit_sha := "ba5e" |}) [pull7] [] no_runs
       (λ h, h_http_get host_healthy_on_fourth h api_url 10))
    [approved] (inr {| merged := true; message := "Pull Request successfully merged" |}).


(** * Properties *)

(** ** Lines of a text *)

Lemma split_lines_nonempty s : split_lines s ≠ [].
Proof.
  destruct s as [|c s]; simpl; [done|].
  case_decide; [done|]. by destruct (split_lines s).
Qed.

Lemma split_lines_one_line s : Forall (λ l, one_line l = true) (split_lines s).
Proof.
  induction s as [|c s IH]; simpl.
  - by constructor.
  - case_decide as Hc.
    + by constructor.
    + destruct (split_lines s) as [|l ls].
      * constructor; [|done]. simpl. by rewrite decide_False.
      * inversion_clear IH. constructor; [|done]. simpl. by rewrite decide_False.
Qed.

Lemma join_split_lines s : join_lines (split_lines s) = s.
Proof.
  induction s as [|c s IH]; simpl; [done|].
  case_decide as Hc.
  - subst c. pose proof (split_lines_nonempty s) as Hne.
    destruct (split_lines s) as [|l ls]; [done|]. simpl in *. by rewrite IH.
  - destruct (split_lines s) as [|l ls] eqn:E.
    + by destruct (split_lines_nonempty s).
    + rewrite <- IH. by destruct ls.
Qed.

Lemma split_lines_app_nl l rest :
  one_line l = true → split_lines (l +:+ String nl rest) = l :: split_lines rest.
Proof.
  induction l as [|c l IH]; simpl; intros Hl.
  - done.
  - case_decide; [done|]. by rewrite IH.
Qed.

Lemma split_lines_single l : one_line l = true → split_lines l = [l].
Proof.
  induction l as [|c l IH]; simpl; intros Hl; [done|].
  case_decide; [done|]. by rewrite IH.
Qed.

Lemma split_join_lines ls :
  ls ≠ [] → Forall (λ l, one_line l = true) ls → split_lines (join_lines ls) = ls.
Proof.
  induction ls as [|l ls IH]; [done|]. intros _ Hall.
  inversion_clear Hall as [|? ? Hl Hls].
  destruct ls as [|l' ls].
  - simpl. by apply split_lines_single.
  - change (join_lines (l :: l' :: ls)) with (l +:+ String nl (join_lines (l' :: ls))).
    rewrite split_lines_app_nl by done. f_equal. by apply IH.
Qed.

(** ** One line of the transformer *)

Lemma one_line_marker_app t : one_line (marker +:+ t) = one_line t.
Proof. reflexivity. Qed.

Lemma startswith_marker_app t : startswith marker (marker +:+ t) = true.
Proof. reflexivity. Qed.

Lemma update_line_one_line t l :
  one_line t = true → one_line l = true → one_line (update_line t l) = true.
Proof.
  intros Ht Hl. unfold update_line.
  destruct (startswith marker l); [by rewrite one_line_marker_app | done].
Qed.

Lemma update_line_idem t l : update_line t (update_line t l) = update_line t l.
Proof.
  unfold update_line at 2 3. destruct (startswith marker l) eqn:E.
  - unfold update_line. by rewrite startswith_marker_app.
  - unfold update_line. by rewrite E.
Qed.

Lemma update_line_other t l : startswith marker l = false → update_line t l = l.
Proof. intros E. unfold update_line. by rewrite E. Qed.

Lemma update_line_marker t l : startswith marker l = true → update_line t l = marker +:+ t.
Proof. intros E. unfold update_line. by rewrite E. Qed.

Lemma startswith_update_line t l : startswith marker (update_line t l) = startswith marker l.
Proof.
  unfold update_line. destruct (startswith marker l) eqn:E; [apply startswith_marker_app | done].
Qed.

(** The lines of the output are the transformed lines of the input, as
    long as the release tag brings no line feed of its own. *)
Lemma split_lines_update_content s t :
  one_line t = true →
  split_lines (update_content s t) = map (update_line t) (split_lines s).
Proof.
  intros Ht. unfold update_content. apply split_join_lines.
  - pose proof (split_lines_nonempty s). by destruct (split_lines s).
  - apply Forall_map. eapply Forall_impl; [apply split_lines_one_line|].
    intros l Hl. by apply update_line_one_line.
Qed.

Lemma map_update_line_no_marker t ls :
  Forall (λ l, startswith marker l = false) ls → map (update_line t) ls = ls.
Proof.
  induction 1 as [|l ls Hl _ IH]; simpl; [done|].
  by rewrite update_line_other, IH.
Qed.

Lemma changed_lines_update t ls :
  (changed_lines ls (map (update_line t) ls)
   ≤ length (filter (λ l, startswith marker l = true) ls))%nat.
Proof.
  induction ls as [|l ls IH]; simpl; [done|].
  rewrite filter_cons. destruct (startswith marker l) eqn:E.
  - rewrite (decide_True (P := true = true)) by done. simpl. case_decide; lia.
  - rewrite (decide_False (P := false = true)) by done.
    rewrite update_line_other by done.
    rewrite (decide_True (P := l = l)) by done. simpl. lia.
Qed.

Lemma marker_count_update t ls :
  length (filter (λ l, startswith marker l = true) (map (update_line t) ls))
  = length (filter (λ l, startswith marker l = true) ls).
Proof.
  induction ls as [|l ls IH]; simpl; [done|].
  rewrite !filter_cons, startswith_update_line.
  case_decide; simpl; by rewrite IH.
Qed.

(** ** The transformer on whole files *)

Example update_content_env_file :
  update_content env_file "2.0"
  = "A=1" +:+ String nl ("export IMAGE_VERSION=2.0" +:+ String nl "B=2").
Proof. reflexivity. Qed.

Example update_content_empty : update_content "" "2.0" = "".
Proof. reflexivity. Qed.

(** C2, as stated, fails: on a file with two marker lines both are
    replaced, and two marker lines exist afterwards. *)
Lemma update_content_replaces_every_marker_line :
  (1 ≤ marker_lines two_marker_lines)%nat ∧
  changed_lines (split_lines two_marker_lines)
                (split_lines (update_content two_marker_lines "3")) = 2%nat ∧
  marker_lines (update_content two_marker_lines "3") = 2%nat.
Proof. split_and!; vm_compute; lia. Qed.

(** C2, amended: for a release tag without a line feed, [update_content]
    replaces every line that begins with the marker [export IMAGE_VERSION=]
    and nothing else: at most as many lines change as began with the
    marker, every marker line of the input becomes
    [export IMAGE_VERSION=<release_tag>] in place, the output has exactly
    as many marker lines as the input, and each of them carries the new
    release tag. *)
Theorem update_content_marker_lines (s t : string) :
  one_line t = true →
  (changed_lines (split_lines s) (split_lines (update_content s t)) ≤ marker_lines s)%nat ∧
  (∀ (i : nat) (l : string),
     split_lines s !! i = Some l → startswith marker l = true →
     split_lines (update_content s t) !! i = Some (marker +:+ t)) ∧
  marker_lines (update_content s t) = marker_lines s ∧
  Forall (λ l, startswith marker l = true → l = marker +:+ t)
         (split_lines (update_content s t)).
Proof.
  intros Ht. unfold marker_lines. rewrite split_lines_update_content by done.
  split_and!.
  - apply changed_lines_update.
  - intros i l Hi Hl. rewrite list_lookup_fmap, Hi. simpl.
    by rewrite update_line_marker.
  - apply marker_count_update.
  - apply Forall_map, Forall_forall. intros l _. simpl.
    rewrite startswith_update_line. apply update_line_marker.
Qed.

Lemma update_content_marker_lines_witness :
  one_line "2.0" = true ∧
  marker_lines (update_content env_file "2.0") = marker_lines env_file.
Proof.
  split; [reflexivity|].
  apply (update_content_marker_lines env_file "2.0"). reflexivity.
Defined.

(** C3, as stated, fails: a release tag with a line feed adds a line. *)
Lemma update_content_line_feed_adds_line :
  length (split_lines (update_content one_marker_line tag_with_line_feed)) = 2%nat ∧
  length (split_lines one_marker_line) = 1%nat.
Proof. by vm_compute. Qed.

(** C3, amended: an input with no marker line is returned unchanged,
    whatever the release tag; and for a release tag without a line feed
    the output has exactly as many lines as the input, and every line that
    does not begin with the marker stands unchanged at its position. *)
Theorem update_content_other_lines (s t : string) :
  (Forall (λ l, startswith marker l = false) (split_lines s) → update_content s t = s) ∧
  (one_line t = true →
   length (split_lines (update_content s t)) = length (split_lines s) ∧
   ∀ (i : nat) (l : string),
     split_lines s !! i = Some l → startswith marker l = false →
     split_lines (update_content s t) !! i = Some l).
Proof.
  split.
  - intros Hno. unfold update_content.
    rewrite map_update_line_no_marker by done. apply join_split_lines.
  - intros Ht. rewrite split_lines_update_content by done. split.
    + apply length_map.
    + intros i l Hi Hl. rewrite list_lookup_fmap, Hi. simpl.
      by rewrite update_line_other.
Qed.

Lemma update_content_other_lines_witness :
  update_content "A=1" tag_with_line_feed = "A=1" ∧
  length (split_lines (update_content env_file "2.0")) = length (split_lines env_file).
Proof.
  split.
  - apply (update_content_other_lines "A=1" tag_with_line_feed).
    by repeat constructor.
  - apply (update_content_other_lines env_file "2.0"). reflexivity.
Defined.

(** C10, as stated, fails: with a line feed in the release tag a second
    application appends the tail of the tag once more. *)
Lemma update_content_not_idempotent_line_feed :
  update_content (update_content one_marker_line tag_with_line_feed) tag_with_line_feed
  ≠ update_content one_marker_line tag_with_line_feed.
Proof. by vm_compute. Qed.

(** C10, amended: [update_content] is idempotent for every file content
    and every release tag without a line feed. *)
Theorem update_content_idempotent (s t : string) :
  one_line t = true →
  update_content (update_content s t) t = update_content s t.
Proof.
  intros Ht. unfold update_content at 1.
  rewrite split_lines_update_content by done.
  rewrite <- list_fmap_compose. unfold update_content. f_equal.
  apply list_fmap_ext. intros i l _. simpl. apply update_line_idem.
Qed.

Lemma update_content_idempotent_witness :
  one_line "2.0" = true ∧
  update_content (update_content env_file "2.0") "2.0" = update_content env_file "2.0".
Proof.
  split; [reflexivity|].
  apply (update_content_idempotent env_file "2.0"). reflexivity.
Defined.

(** ** Running computations *)

Lemma bind_run {A B} (m : M A) (k : A → M B) (h : history) :
  bind m k h =
  match m h with
  | (s1, Ret a) => let '(s2, o) := k a (h ++ s1) in (s1 ++ s2, o)
  | (s1, Raise e) => (s1, Raise e)
  | (s1, Running) => (s1, Running)
  end.
Proof. reflexivity. Qed.

Lemma perform_run {A} (answer : history → result A) (ev : result A → event) (h : history) :
  perform answer ev h = ([ev (answer h)], of_result (answer h)).
Proof. reflexivity. Qed.

Lemma bind_perform_run {A B} (answer : history → result A) (ev : result A → event)
  (k : A → M B) (h : history) :
  bind (perform answer ev) k h =
  match answer h with
  | inr a => let '(s2, o) := k a (h ++ [ev (inr a)]) in (ev (inr a) :: s2, o)
  | inl e => ([ev (inl e)], Raise e)
  end.
Proof. rewrite bind_run, perform_run. by destruct (answer h). Qed.

(** A computation that returned ran its first part to a value and then
    its continuation on the extended history. *)
Lemma bind_Ret_inv {A B} (m : M A) (k : A → M B) (h : history) evs (b : B) :
  bind m k h = (evs, Ret b) →
  ∃ s1 a s2, m h = (s1, Ret a) ∧ k a (h ++ s1) = (s2, Ret b) ∧ evs = s1 ++ s2.
Proof.
  rewrite bind_run. destruct (m h) as [s1 [a|e|]]; [|done..].
  destruct (k a (h ++ s1)) as [s2 o] eqn:Ek. intros [= <- ->]. by exists s1, a, s2.
Qed.

Lemma sleep_run (seconds : Z) (h : history) :
  0 ≤ seconds ≤ 9223372036 → sleep seconds h = ([ESleep seconds], Ret tt).
Proof. intros Hs. unfold sleep. rewrite decide_False by lia. by rewrite decide_False by lia. Qed.

(** ** ChangeRequestManager: the branch probe *)

Lemma upsert_branch_run (host : Host) (repo : repository) (new_branch base_sha : string)
  (h : history) :
  upsert_branch host repo new_branch base_sha h =
  let probe := h_get_branch host h repo new_branch in
  let ref := "refs/heads/" +:+ new_branch in
  match probe with
  | inr b => ([EGetBranch repo new_branch probe], Ret tt)
  | inl e =>
      if is_GithubException e then
        let created := h_create_git_ref host (h ++ [EGetBranch repo new_branch probe]) repo ref
                                        base_sha in
        ([EGetBranch repo new_branch probe; ECreateGitRef repo ref base_sha created],
         of_result created)
      else ([EGetBranch repo new_branch probe], Raise e)
  end.
Proof.
  unfold upsert_branch, try_except, get_branch, create_git_ref. rewrite bind_perform_run.
  cbv zeta. destruct (h_get_branch host h repo new_branch) as [e|b]; [|done].
  by destruct (is_GithubException e).
Qed.

(** C4, as stated, fails: a server error (status 500, not "not found")
    during the existence check does not propagate; the branch is created
    and the call returns. *)
Lemma upsert_branch_swallows_server_error :
  h_get_branch host_probe_500 [] acme "1.4.2" = inl (GithubException 500) ∧
  upsert_branch host_probe_500 acme "1.4.2" "ba5e" []
  = ([EGetBranch acme "1.4.2" (inl (GithubException 500));
      ECreateGitRef acme "refs/heads/1.4.2" "ba5e" (inr tt)], Ret tt).
Proof. split; reflexivity. Qed.

(** C4, amended: during the existence check of [upsert_branch] every
    [GithubException], whatever its status, falls through to the creation
    of the branch, whose outcome is the outcome of the call; an error of
    any other class propagates to the caller with no creation call; and
    if the branch exists the call returns after the probe alone, with no
    creation call. *)
Theorem upsert_branch_probe (host : Host) (repo : repository) (new_branch base_sha : string)
  (h : history) :
  let probe := h_get_branch host h repo new_branch in
  let ref := "refs/heads/" +:+ new_branch in
  (∀ b, probe = inr b →
     upsert_branch host repo new_branch base_sha h = ([EGetBranch repo new_branch (inr b)], Ret tt)) ∧
  (∀ e, probe = inl e → is_GithubException e = false →
     upsert_branch host repo new_branch base_sha h = ([EGetBranch repo new_branch (inl e)], Raise e)) ∧
  (∀ status, probe = inl (GithubException status) →
     let created := h_create_git_ref host (h ++ [EGetBranch repo new_branch probe]) repo ref base_sha in
     upsert_branch host repo new_branch base_sha h
     = ([EGetBranch repo new_branch probe; ECreateGitRef repo ref base_sha created],
        of_result created)).
Proof.
  intros probe ref. rewrite upsert_branch_run. cbv zeta. fold probe. split_and!.
  - by intros b ->.
  - intros e -> He. by rewrite He.
  - by intros st ->.
Qed.

Lemma upsert_branch_probe_witness :
  upsert_branch host_branch_exists acme "1.4.2" "ba5e" []
  = ([EGetBranch acme "1.4.2" (inr {| branch_commit_sha := "ba5e" |})], Ret tt) ∧
  upsert_branch host_probe_timeout acme "1.4.2" "ba5e" []
  = ([EGetBranch acme "1.4.2" (inl (OtherException "ReadTimeout"))],
     Raise (OtherException "ReadTimeout")) ∧
  branch_creations (upsert_branch host_probe_500 acme "1.4.2" "ba5e" []).1
  = [("refs/heads/1.4.2", "ba5e")].
Proof.
  split_and!.
  - apply (upsert_branch_probe host_branch_exists acme "1.4.2" "ba5e" []). reflexivity.
  - apply (upsert_branch_probe host_probe_timeout acme "1.4.2" "ba5e" []); reflexivity.
  - rewrite (proj2 (proj2 (upsert_branch_probe host_probe_500 acme "1.4.2" "ba5e" [])) 500);
      reflexivity.
Defined.

(** ** ChangeRequestManager: the open change request *)

(** C8: with the repository and the list of open change requests matching
    [head=owner:release_tag], [base=main] in hand, [fetch_pr_details]
    raises a [ValueError] when the list does not hold exactly one request
    (none, or more than one) and returns the number and head SHA of the
    request when it holds exactly one; it makes no other call. *)
Theorem fetch_pr_details_cardinality (host : Host) (inputs : DeployInputs) (h : history)
  (repo : repository) (pulls : list pull_request) :
  let url := "https://github.com/" +:+ repo_owner inputs +:+ "/" +:+ repo_name inputs in
  let head := repo_owner inputs +:+ ":" +:+ release_tag inputs in
  h_get_repo host h (token inputs) url = inr repo →
  h_get_pulls host (h ++ [EGetRepo (token inputs) url (inr repo)]) repo head "main" "open"
  = inr pulls →
  (fetch_pr_details host inputs h).1
  = [EGetRepo (token inputs) url (inr repo); EGetPulls repo head "main" "open" (inr pulls)] ∧
  (length pulls ≠ 1%nat →
   (fetch_pr_details host inputs h).2
   = Raise (ValueError ("Failed to fetch PR details: found " +:+ pretty (length pulls)
                        +:+ " open PRs with the head " +:+ head))) ∧
  (∀ pull, pulls = [pull] →
   (fetch_pr_details host inputs h).2 = Ret (number pull, head_sha pull)).
Proof.
  intros url head Hrepo Hpulls. unfold fetch_pr_details, get_repo, get_pulls.
  rewrite bind_perform_run. fold url. rewrite Hrepo.
  rewrite bind_perform_run. fold head. rewrite Hpulls.
  case_decide as Hlen.
  - split_and!; [done|done|]. intros pull ->. done.
  - split_and!; [|done|].
    + destruct pulls as [|pull [|]]; done.
    + intros pull ->. done.
Qed.

Lemma fetch_pr_details_cardinality_witness :
  (fetch_pr_details host_two_pulls acme_inputs []).2
  = Raise (ValueError "Failed to fetch PR details: found 2 open PRs with the head acme:1.4.2") ∧
  (fetch_pr_details host_branch_exists acme_inputs []).2 = Ret (7, "c0ffee").
Proof.
  split.
  - refine (proj1 (proj2 (fetch_pr_details_cardinality host_two_pulls acme_inputs [] acme
                            [pull7; pull8] _ _)) _); [reflexivity|reflexivity|].
    simpl. lia.
  - refine (proj2 (proj2 (fetch_pr_details_cardinality host_branch_exists acme_inputs [] acme
                            [pull7] _ _)) pull7 _); reflexivity.
Defined.

(** ** ChangeRequestManager: the target environment *)


(** The text must decode: [C3 A9] is one character, the overlong pair
    [C0 80], the surrogate [ED A0 80] and a lone [FF] are refused. *)
Example valid_utf8_cases :
  valid_utf8 (String "195"%char (String "169"%char "")) = true ∧
  valid_utf8 (String "192"%char (String "128"%char "")) = false ∧
  valid_utf8 (String "237"%char (String "160"%char (String "128"%char ""))) = false ∧
  valid_utf8 (String "255"%char "") = false ∧
  valid_utf8 env_file = true.
Proof. by vm_compute. Qed.

(** A file that is no UTF-8 text ends [handle_pr_creation] after the two
    reads, with [UnicodeDecodeError] and without a write. *)
Example handle_pr_creation_not_text :
  handle_pr_creation host_binary_file acme_inputs acme "main" false []
  = ([EGetBranch acme "main" (inr {| branch_commit_sha := "ba5e" |});
      EGetContents acme "env/pre-prod.sh" "main"
        (inr (ContentFile {| sha := "f00d"; decoded_content := String "255"%char "" |}))],
     Raise (OtherException "UnicodeDecodeError")).
Proof. reflexivity. Qed.




(** ** DeploymentVerifier *)

Lemma verify_attempt_run (host : Host) (api_url : string) (timeout : Z) (h : history) :
  verify_attempt host api_url timeout h =
  let r := h_http_get host h api_url timeout in
  ([EHttpGet api_url timeout r],
   match r with
   | inr response => if decide (status_code response = 200) then Ret true else Ret false
   | inl RequestException => Ret false
   | inl e => Raise e
   end).
Proof.
  unfold verify_attempt, try_except, http_get. rewrite bind_perform_run.
  destruct (h_http_get host h api_url timeout) as [e|response]; simpl.
  - by destruct e.
  - by case_decide.
Qed.

Lemma failed_attempt_outcome (r : result response) :
  failed_attempt r →
  match r with
  | inr response => if decide (status_code response = 200) then Ret true else Ret false
  | inl RequestException => Ret false
  | inl e => Raise e
  end = Ret false.
Proof.
  destruct r as [e|response]; simpl.
  - by intros ->.
  - intros Hne. by rewrite decide_False.
Qed.

Lemma http_attempts_app (evs1 evs2 : list event) :
  http_attempts (evs1 ++ evs2) = http_attempts evs1 ++ http_attempts evs2.
Proof. apply flat_map_app. Qed.

Lemma sleeps_app (evs1 evs2 : list event) : sleeps (evs1 ++ evs2) = sleeps evs1 ++ sleeps evs2.
Proof. apply flat_map_app. Qed.

Lemma http_attempts_get (url : string) (timeout : Z) (r : result response) (evs : list event) :
  http_attempts (EHttpGet url timeout r :: evs) = r :: http_attempts evs.
Proof. reflexivity. Qed.

Lemma sleeps_get (url : string) (timeout : Z) (r : result response) (evs : list event) :
  sleeps (EHttpGet url timeout r :: evs) = sleeps evs.
Proof. reflexivity. Qed.

Lemma http_attempts_sleep (n : nat) (seconds : Z) :
  http_attempts (replicate n (ESleep seconds)) = [].
Proof. induction n; [done|]. simpl. apply IHn. Qed.

Lemma sleeps_sleep (n : nat) (seconds : Z) :
  sleeps (replicate n (ESleep seconds)) = replicate n seconds.
Proof. induction n; [done|]. simpl. f_equal. apply IHn. Qed.

Lemma verify_loop_attempts (host : Host) (api_url : string) (max_attempts wait_time timeout : Z)
  (n : nat) :
  0 ≤ wait_time ≤ 9223372036 →
  ∀ (i : Z) (h : history),
    i + Z.of_nat n = max_attempts →
    let run := verify_loop host api_url max_attempts wait_time timeout (seqZ i (Z.of_nat n)) h in
    (Forall failed_attempt (http_attempts run.1) →
     run.2 = Ret false ∧
     length (http_attempts run.1) = n ∧
     sleeps run.1 = replicate (n - 1) wait_time) ∧
    (∀ pre response post,
       run.1 = pre ++ EHttpGet api_url timeout (inr response) :: post →
       status_code response = 200 →
       run.2 = Ret true ∧ post = [] ∧
       Forall failed_attempt (http_attempts pre) ∧
       sleeps pre = replicate (length (http_attempts pre)) wait_time).
Proof.
  intros Hwait. induction n as [|n IH]; intros i h Hi run.
  - subst run. simpl. split; [done|]. intros [|? ?] ? ? [=].
  - subst run. rewrite seqZ_cons by lia. simpl verify_loop.
    rewrite bind_run, verify_attempt_run. cbv zeta.
    replace (Z.pred (Z.of_nat (S n))) with (Z.of_nat n) by lia.
    set (r := h_http_get host h api_url timeout).
    set (naps := replicate (Nat.min 1 n) (ESleep wait_time)).
    assert (∀ k : M bool,
              (bind (if decide (i < max_attempts - 1) then sleep wait_time else ret tt)
                    (λ _, k)) (h ++ [EHttpGet api_url timeout r])
              = let '(s2, o) := k ((h ++ [EHttpGet api_url timeout r]) ++ naps) in
                (naps ++ s2, o)) as Hsleep.
    { intros k. rewrite bind_run. subst naps. case_decide as Hlt.
      - rewrite sleep_run by done. destruct n as [|n']; [lia|]. reflexivity.
      - destruct n as [|n']; [|lia]. simpl. by rewrite app_nil_r. }
    specialize (IH (Z.succ i) ((h ++ [EHttpGet api_url timeout r]) ++ naps) ltac:(lia)).
    cbv zeta in IH. destruct IH as [IHfail IHok].
    destruct (decide (failed_attempt r)) as [Hfail|Hgood].
    + (* this attempt failed: sleep unless it was the last, then go on *)
      rewrite (failed_attempt_outcome r Hfail). rewrite Hsleep.
      destruct (verify_loop _ _ _ _ _ _ _) as [s2 o] eqn:Eloop.
      cbn [fst snd app] in *. split.
      * rewrite http_attempts_get, http_attempts_app, sleeps_get, sleeps_app.
        unfold naps at 1 2 3. rewrite http_attempts_sleep, sleeps_sleep. cbn [app].
        intros Hall. inversion_clear Hall as [|? ? _ Hall'].
        destruct (IHfail Hall') as (-> & Hlen & Hsleeps). split_and!; [done|..].
        -- simpl. by rewrite Hlen.
        -- rewrite Hsleeps, <- replicate_add. f_equal. lia.
      * intros pre response post Hevs H200.
        destruct pre as [|ev' pre].
        { simpl in Hevs. injection Hevs as Hr _. rewrite Hr in Hfail. by simpl in Hfail. }
        simpl in Hevs. injection Hevs as <- Hevs.
        destruct n as [|n'].
        { simpl in Hevs. rewrite seqZ_nil in Eloop by lia.
          simpl in Eloop. injection Eloop as <- <-. by destruct pre. }
        simpl in Hevs. destruct pre as [|ev'' pre]; [done|].
        simpl in Hevs. injection Hevs as <- ->.
        destruct (IHok pre response post eq_refl H200) as (-> & -> & Hpre & Hsleeps).
        split_and!; [done|done|..].
        -- rewrite http_attempts_get. constructor; [done|]. apply Hpre.
        -- rewrite sleeps_get, http_attempts_get. simpl.
           change (wait_time :: sleeps pre = wait_time :: replicate (length (http_attempts pre)) wait_time).
           by rewrite Hsleeps.
    + (* this attempt did not fail: it is a 200 or an error of another class *)
      split.
      * intros Hall. exfalso. apply Hgood.
        destruct (match r with inl _ => _ | inr _ => _ end) as [[|]| |];
          cbv beta iota in Hall;
          [unfold ret in Hall
          |rewrite Hsleep in Hall; destruct (verify_loop _ _ _ _ _ _ _)
          |..];
          cbn [fst app] in Hall; rewrite http_attempts_get in Hall; by inversion Hall.
      * intros pre response post Hevs H200.
        destruct r as [e|response'] eqn:Er.
        { destruct e; simpl in *; try done;
            (destruct pre as [|? [|? ?]]; simpl in Hevs; [|done..];
             injection Hevs as Hr _; done). }
        simpl in Hgood. apply dec_stable in Hgood.
        rewrite decide_True in * by done. cbn [fst snd app] in *.
        destruct pre as [|? [|? ?]]; simpl in Hevs; [|done..].
        injection Hevs as _ <-. by split_and!.
Qed.

(** A length [time.sleep] does not take is refused before any sleep. *)
Lemma sleep_refused (seconds : Z) (h : history) :
  ¬ (0 ≤ seconds ≤ 9223372036) → ∃ e, sleep seconds h = ([], Raise e).
Proof.
  intros Hs. unfold sleep. case_decide; [by eexists|].
  rewrite decide_True by lia. by eexists.
Qed.

(** When the sleep is refused, a run makes one request at most. *)
Lemma verify_loop_refused (host : Host) (api_url : string) (max_attempts wait_time timeout : Z)
  (n : nat) (i : Z) (h : history) :
  ¬ (0 ≤ wait_time ≤ 9223372036) →
  i + Z.of_nat n = max_attempts →
  let run := verify_loop host api_url max_attempts wait_time timeout (seqZ i (Z.of_nat n)) h in
  let r := h_http_get host h api_url timeout in
  (n = 0%nat ∧ run = ([], Ret false)) ∨
  (run.1 = [EHttpGet api_url timeout r] ∧
   (failed_attempt r → (n = 1%nat ∧ run.2 = Ret false) ∨ ((1 < n)%nat ∧ ∃ e, run.2 = Raise e)) ∧
   (∀ response, r = inr response → status_code response = 200 → run.2 = Ret true)).
Proof.
  intros Hwait Hi run r. subst run. destruct n as [|n]; [by left|]. right.
  rewrite seqZ_cons by lia. simpl verify_loop. rewrite bind_run, verify_attempt_run. cbv zeta.
  fold r. replace (Z.pred (Z.of_nat (S n))) with (Z.of_nat n) by lia.
  destruct (decide (failed_attempt r)) as [Hfail|Hgood].
  - rewrite (failed_attempt_outcome r Hfail). rewrite bind_run.
    destruct (decide (i < max_attempts - 1)) as [Hlt|Hge].
    + destruct (sleep_refused wait_time (h ++ [EHttpGet api_url timeout r]) Hwait) as [e ->].
      cbn [fst snd]. split_and!; [done| |].
      * intros _. right. split; [lia|]. by exists e.
      * intros response -> H200. by simpl in Hfail.
    + destruct n as [|n]; [|lia]. simpl. split_and!; [done| |].
      * intros _. by left.
      * intros response -> H200. by simpl in Hfail.
  - destruct r as [e|response] eqn:Er.
    + destruct e; simpl in *; try done; (split_and!; [done|done|by intros ? [=]]).
    + simpl in Hgood. apply dec_stable in Hgood. rewrite decide_True by done.
      cbn [fst snd]. split_and!; [done| |done]. simpl. by intros ?.
Qed.

(** C7, as stated, fails: with a negative wait between attempts the first
    failed attempt is followed by no wait and no further attempt;
    [time.sleep] refuses the length and [verify_deployment] raises
    [ValueError] after one attempt, although every attempt made was
    answered with a status other than 200. *)
Lemma verify_deployment_negative_wait_raises :
  verify_deployment host_unhealthy "https://api.example.org/schema" 10 (-1) 10 []
  = ([EHttpGet "https://api.example.org/schema" 10 (inr {| status_code := 503; reason := "" |})],
     Raise (ValueError "sleep length must be non-negative")).
Proof. reflexivity. Qed.

(** A wait too long for [time.sleep] is refused as well, with
    [OverflowError], after the first failed attempt. *)
Example verify_deployment_overlong_wait_raises :
  verify_deployment host_unhealthy "https://api.example.org/schema" 10 10000000000 10 []
  = ([EHttpGet "https://api.example.org/schema" 10 (inr {| status_code := 503; reason := "" |})],
     Raise (OtherException "OverflowError")).
Proof. reflexivity. Qed.

(** C7, amended: a run of [verify_deployment] whose every attempt fails
    (transport error or a status other than 200) returns [False], raising
    nothing, after exactly [max_attempts] attempts and [max_attempts - 1]
    sleeps of [wait_time] (none at all when [max_attempts] is not
    positive), provided [wait_time] is a length [time.sleep] takes, from 0
    to 2147483647 seconds, or at most one attempt is to be made; and,
    whatever the wait, a run in which an attempt is answered 200 returns
    [True] right there: that answer is the last event, every attempt
    before it failed, and each of those was followed by one sleep. *)
Theorem verify_deployment_attempts (host : Host) (api_url : string)
  (max_attempts wait_time timeout : Z) (h : history) :
  let run := verify_deployment host api_url max_attempts wait_time timeout h in
  (Forall failed_attempt (http_attempts run.1) →
   max_attempts ≤ 1 ∨ 0 ≤ wait_time ≤ 2147483647 →
   run.2 = Ret false ∧
   length (http_attempts run.1) = Z.to_nat max_attempts ∧
   sleeps run.1 = replicate (Z.to_nat (max_attempts - 1)) wait_time) ∧
  (∀ pre response post,
     run.1 = pre ++ EHttpGet api_url timeout (inr response) :: post →
     status_code response = 200 →
     run.2 = Ret true ∧ post = [] ∧
     Forall failed_attempt (http_attempts pre) ∧
     sleeps pre = replicate (length (http_attempts pre)) wait_time).
Proof.
  intros run. subst run. unfold verify_deployment, py_range.
  destruct (decide (max_attempts ≤ 0)) as [Hle|Hgt].
  { rewrite seqZ_nil by done. simpl.
    replace (Z.to_nat max_attempts) with 0%nat by lia.
    replace (Z.to_nat (max_attempts - 1)) with 0%nat by lia.
    split; [done|]. intros [|? ?] ? ? [=]. }
  destruct (decide (0 ≤ wait_time ≤ 9223372036)) as [Hwait|Hwait].
  - pose proof (verify_loop_attempts host api_url max_attempts wait_time timeout
                  (Z.to_nat max_attempts) Hwait 0 h ltac:(lia)) as Hloop.
    cbv zeta in Hloop. rewrite Z2Nat.id in Hloop by lia.
    replace (Z.to_nat (max_attempts - 1)) with (Z.to_nat max_attempts - 1)%nat by lia.
    destruct Hloop as [Hfail Hok]. split; [|exact Hok]. intros Hall _. by apply Hfail.
  - pose proof (verify_loop_refused host api_url max_attempts wait_time timeout
                  (Z.to_nat max_attempts) 0 h Hwait ltac:(lia)) as Hloop.
    cbv zeta in Hloop. rewrite Z2Nat.id in Hloop by lia.
    destruct Hloop as [[Hn _]|(Hevs & Hfail & Hok)]; [lia|].
    rewrite Hevs. split.
    + rewrite http_attempts_get. intros Hall Hsleep. apply Forall_cons in Hall as [Hr _].
      destruct (Hfail Hr) as [[Hn ->]|[Hn _]]; [|lia].
      replace (Z.to_nat (max_attempts - 1)) with 0%nat by lia. by rewrite Hn.
    + intros pre response post Hsplit H200.
      destruct pre as [|? [|? ?]]; simpl in Hsplit; [|done..].
      injection Hsplit as Hr <-. by rewrite (Hok response Hr H200).
Qed.

Lemma verify_deployment_attempts_witness :
  let run := verify_deployment host_unhealthy "https://api.example.org/schema" 10 30 10 [] in
  run.2 = Ret false ∧ length (http_attempts run.1) = 10%nat ∧ sleeps run.1 = replicate 9 30.
Proof.
  apply (proj1 (verify_deployment_attempts host_unhealthy "https://api.example.org/schema"
                  10 30 10 [])).
  - vm_compute. repeat constructor; discriminate.
  - right. lia.
Defined.

Example verify_deployment_ten_failures :
  let run := verify_deployment host_unhealthy "https://api.example.org/schema" 10 30 10 [] in
  run.2 = Ret false ∧ length (http_attempts run.1) = 10%nat ∧ length (sleeps run.1) = 9%nat.
Proof. by vm_compute. Qed.

Example verify_deployment_fourth_attempt :
  let run := verify_deployment host_healthy_on_fourth "https://api.example.org/schema" 10 30 10 [] in
  run.2 = Ret true ∧ length (http_attempts run.1) = 4%nat ∧ sleeps run.1 = [30; 30; 30] ∧
  last run.1 = Some (EHttpGet "https://api.example.org/schema" 10
                              (inr {| status_code := 200; reason := "OK" |})).
Proof. by vm_compute. Qed.

(** ** StatusMirror *)

Lemma observed_runs_app (evs1 evs2 : list event) :
  observed_runs (evs1 ++ evs2) = observed_runs evs1 ++ observed_runs evs2.
Proof. apply flat_map_app. Qed.

Lemma polled_suites_app (evs1 evs2 : list event) :
  polled_suites (evs1 ++ evs2) = polled_suites evs1 ++ polled_suites evs2.
Proof. apply flat_map_app. Qed.

Lemma status_writes_app (evs1 evs2 : list event) :
  status_writes (evs1 ++ evs2) = status_writes evs1 ++ status_writes evs2.
Proof. apply flat_map_app. Qed.

Lemma process_check_run_state (run : check_run) (flag : bool) :
  (process_check_run run flag).1 = mirrored_state run.
Proof. unfold mirrored_state, process_check_run. by repeat case_decide. Qed.

Lemma process_check_run_flag (run : check_run) (flag : bool) :
  (process_check_run run flag).2 = flag && is_completed run.
Proof.
  unfold process_check_run, is_completed.
  repeat case_decide; simpl;
    rewrite ?bool_decide_true, ?bool_decide_false, ?andb_true_r, ?andb_false_r by done; done.
Qed.

(** *** Walks that a failed call cut short *)

Lemma status_writes_get_runs (repo : repository) (suite_id : Z) (r : result (list check_run))
  (evs : list event) :
  status_writes (EGetCheckRuns repo suite_id r :: evs) = status_writes evs.
Proof. reflexivity. Qed.

Lemma filter_completed_one (write : check_run → commit_status) (run : check_run) :
  map write (filter (λ run, status run = "completed") [run])
  = if decide (status run = "completed") then [write run] else [].
Proof. rewrite filter_cons. by case_decide. Qed.

(** Steps that succeeded and wrote the statuses of the completed runs
    among [seen1], before a walk over [runs] that a failed write cut
    short. *)
Lemma write_failed_app (write : check_run → commit_status) (seen1 runs : list check_run)
  (s1 s2 : list event) (e : exn) :
  Forall (λ ev, failure_of ev = None) s1 →
  status_writes s1 = map write (filter (λ run, status run = "completed") seen1) →
  write_failed write runs s2 e →
  write_failed write (seen1 ++ runs) (s1 ++ s2) e.
Proof.
  intros Hok Hw1 (pre & ev & reached & run & -> & Hev & Hpre & Hkind & Hreached & Hlast & Hrun & Hw2).
  exists (s1 ++ pre), ev, (seen1 ++ reached), run.
  split_and!; [by rewrite app_assoc|done|by apply Forall_app|done|by apply prefix_app| |done|].
  - rewrite last_app. by rewrite Hlast.
  - by rewrite status_writes_app, Hw1, Hw2, filter_app, map_app.
Qed.

Lemma write_failed_more (write : check_run → commit_status) (runs more : list check_run)
  (evs : list event) (e : exn) :
  write_failed write runs evs e → write_failed write (runs ++ more) evs e.
Proof.
  intros (pre & ev & reached & run & -> & Hev & Hpre & Hkind & Hreached & Hrest).
  exists pre, ev, reached, run. split_and!; [done..|by apply prefix_app_r|apply Hrest|apply Hrest|apply Hrest].
Qed.

Lemma cut_short_app (write : check_run → commit_status) (seen1 seen2 : list check_run)
  (s1 s2 : list event) (e : exn) :
  Forall (λ ev, failure_of ev = None) s1 →
  status_writes s1 = map write (filter (λ run, status run = "completed") seen1) →
  cut_short write seen2 s2 e →
  cut_short write (seen1 ++ seen2) (s1 ++ s2) e.
Proof.
  intros Hok Hw1 (pre & ev & reached & -> & Hev & Hpre & Hreached & Hw2 & Hkind).
  exists (s1 ++ pre), ev, (seen1 ++ reached).
  split_and!; [by rewrite app_assoc|done|by apply Forall_app|by apply prefix_app| |].
  - by rewrite status_writes_app, Hw1, Hw2, filter_app, map_app.
  - destruct ev; try done.
    + by rewrite Hkind.
    + destruct Hkind as (run & Hlast & Hrun). exists run. split; [|done].
      rewrite last_app. by rewrite Hlast.
Qed.

Lemma write_failed_cut_short (write : check_run → commit_status) (runs : list check_run)
  (evs : list event) (e : exn) :
  write_failed write runs evs e → cut_short write runs evs e.
Proof.
  intros (pre & ev & reached & run & -> & Hev & Hpre & Hkind & Hreached & Hlast & Hrun & Hw).
  exists pre, ev, reached. split_and!; [done..|]. destruct ev; try done. by exists run.
Qed.

Section Mirror.
Context (host : Host) (local_repo remote_repo : repository) (local_commit_sha : string)
        (pr_number : Z) (pr_url release_tag : string).

Let write := mirrored_status local_repo local_commit_sha pr_number pr_url release_tag.

(** One run: a completed run is written once, with the state of the
    classification table; any other run is not written; the write is the
    only call, so it alone can fail. *)
Lemma mirror_check_run_run (flag : bool) (run : check_run) (h : history) :
  let r := mirror_check_run host local_repo local_commit_sha pr_number pr_url release_tag
                            flag run h in
  observed_runs r.1 = [] ∧ polled_suites r.1 = [] ∧ sleeps r.1 = [] ∧
  match r.2 with
  | Ret b =>
      b = flag && is_completed run ∧ Forall (λ ev, failure_of ev = None) r.1 ∧
      status_writes r.1 = if decide (status run = "completed") then [write run] else []
  | Raise e => write_failed write [run] r.1 e
  | Running => False
  end.
Proof.
  intros r. subst r. unfold mirror_check_run.
  pose proof (process_check_run_state run flag) as Hstate.
  pose proof (process_check_run_flag run flag) as Hflag.
  destruct (process_check_run run flag) as [state flag']. simpl in Hstate, Hflag. subst.
  rewrite bind_run. case_decide as Hc.
  - unfold update_local_commit_status, create_status. rewrite perform_run.
    destruct (h_create_status _ _ _ _ _ _ _ _) as [e|[]]; simpl.
    + split_and!; [done..|].
      eexists [], _, [run], run. split_and!; [done..|]. by rewrite filter_completed_one, decide_True.
    + split_and!; [done..|by repeat constructor|done].
  - simpl. by split_and!.
Qed.

Lemma mirror_runs_run (runs : list check_run) :
  ∀ (flag : bool) (h : history),
    let r := for_each (mirror_check_run host local_repo local_commit_sha pr_number pr_url
                                        release_tag) flag runs h in
    observed_runs r.1 = [] ∧ polled_suites r.1 = [] ∧ sleeps r.1 = [] ∧
    match r.2 with
    | Ret b =>
        b = flag && forallb is_completed runs ∧ Forall (λ ev, failure_of ev = None) r.1 ∧
        status_writes r.1 = map write (filter (λ run, status run = "completed") runs)
    | Raise e => write_failed write runs r.1 e
    | Running => False
    end.
Proof.
  induction runs as [|run runs IH]; intros flag h r; subst r.
  - simpl. split_and!; try done. by rewrite andb_true_r.
  - simpl for_each. rewrite bind_run.
    pose proof (mirror_check_run_run flag run h) as Hone. cbv zeta in Hone.
    destruct (mirror_check_run _ _ _ _ _ _ _ _ _) as [s1 [flag'|e|]]; cbn [fst snd] in *.
    + destruct Hone as (Ho1 & Hp1 & Hs1 & -> & Hok1 & Hw1).
      specialize (IH (flag && is_completed run) (h ++ s1)). cbv zeta in IH.
      destruct (for_each _ _ _ _) as [s2 [b|e|]]; cbn [fst snd] in *.
      * destruct IH as (Ho2 & Hp2 & Hs2 & -> & Hok2 & Hw2).
        rewrite observed_runs_app, polled_suites_app, sleeps_app, status_writes_app.
        rewrite Ho1, Ho2, Hp1, Hp2, Hs1, Hs2, Hw1, Hw2. simpl.
        split_and!; [done..|by rewrite andb_assoc|by apply Forall_app|].
        rewrite filter_cons. by case_decide.
      * destruct IH as (Ho2 & Hp2 & Hs2 & Hcut).
        rewrite observed_runs_app, polled_suites_app, sleeps_app.
        rewrite Ho1, Ho2, Hp1, Hp2, Hs1, Hs2. split_and!; [done..|].
        apply (write_failed_app write [run] runs); [done| |done].
        by rewrite filter_completed_one.
      * by destruct IH as (_ & _ & _ & ?).
    + destruct Hone as (Ho1 & Hp1 & Hs1 & Hcut). split_and!; [done..|].
      by apply (write_failed_more write [run] runs).
    + by destruct Hone as (_ & _ & _ & ?).
Qed.

Lemma mirror_suite_run (flag : bool) (suite : check_suite) (h : history) :
  let r := mirror_suite host local_repo remote_repo local_commit_sha pr_number pr_url release_tag
                        flag suite h in
  polled_suites r.1 = [id suite] ∧ sleeps r.1 = [] ∧
  match r.2 with
  | Ret b =>
      b = flag && forallb is_completed (observed_runs r.1) ∧
      Forall (λ ev, failure_of ev = None) r.1 ∧
      status_writes r.1
      = map write (filter (λ run, status run = "completed") (observed_runs r.1))
  | Raise e => cut_short write (observed_runs r.1) r.1 e
  | Running => False
  end.
Proof.
  intros r. subst r. unfold mirror_suite, get_check_runs_status. rewrite bind_perform_run.
  destruct (h_get_check_runs host h remote_repo (id suite)) as [e|runs]; cbn [fst snd].
  { split_and!; [done..|]. exists [], (EGetCheckRuns remote_repo (id suite) (inl e)), [].
    by split_and!. }
  pose proof (mirror_runs_run runs flag (h ++ [EGetCheckRuns remote_repo (id suite) (inr runs)]))
    as Hruns. cbv zeta in Hruns.
  destruct (for_each _ _ _ _) as [s2 o]. cbn [fst snd] in *.
  destruct Hruns as (Ho & Hp & Hs & Hout).
  change (EGetCheckRuns remote_repo (id suite) (inr runs) :: s2)
    with ([EGetCheckRuns remote_repo (id suite) (inr runs)] ++ s2).
  rewrite observed_runs_app, polled_suites_app, sleeps_app, Ho, Hp, Hs. simpl.
  rewrite !app_nil_r. split_and!; [done..|].
  destruct o as [b|e|]; [|
    |done].
  - destruct Hout as (-> & Hok & Hw). split_and!; [done| |done].
    by constructor.
  - apply write_failed_cut_short in Hout.
    apply (cut_short_app write [] runs [EGetCheckRuns remote_repo (id suite) (inr runs)] s2);
      [by repeat constructor|done|done].
Qed.

Lemma mirror_suites_run (suites : list check_suite) :
  ∀ (flag : bool) (h : history),
    let r := for_each (mirror_suite host local_repo remote_repo local_commit_sha pr_number pr_url
                                    release_tag) flag suites h in
    match r.2 with
    | Ret b =>
        b = flag && forallb is_completed (observed_runs r.1) ∧
        Forall (λ ev, failure_of ev = None) r.1 ∧
        mirrored_iteration local_repo local_commit_sha pr_number pr_url release_tag suites r.1
    | Raise e =>
        interrupted_iteration local_repo local_commit_sha pr_number pr_url release_tag suites
                              r.1 e
    | Running => False
    end.
Proof.
  unfold mirrored_iteration, interrupted_iteration. fold write. cbv zeta.
  induction suites as [|suite suites IH]; intros flag h.
  - simpl. split_and!; try done. by rewrite andb_true_r.
  - simpl for_each. rewrite bind_run.
    pose proof (mirror_suite_run flag suite h) as Hone. cbv zeta in Hone.
    destruct (mirror_suite _ _ _ _ _ _ _ _ _ _) as [s1 [flag'|e|]]; cbn [fst snd] in *.
    + destruct Hone as (Hp1 & Hs1 & -> & Hok1 & Hw1).
      specialize (IH (flag && forallb is_completed (observed_runs s1)) (h ++ s1)).
      cbv zeta in IH.
      destruct (for_each _ _ _ _) as [s2 [b|e|]]; cbn [fst snd] in *.
      * destruct IH as (-> & Hok2 & Hp2 & Hs2 & Hw2).
        rewrite observed_runs_app, polled_suites_app, sleeps_app, status_writes_app.
        rewrite Hp1, Hp2, Hs1, Hs2, Hw1, Hw2.
        rewrite forallb_app, filter_app, map_app, andb_assoc.
        split_and!; [done|by apply Forall_app|done..].
      * destruct IH as (Hp2 & Hs2 & Hcut).
        rewrite observed_runs_app, polled_suites_app, sleeps_app, Hp1, Hs1, Hs2.
        split_and!; [by apply (prefix_cons (id suite))|done|].
        by apply cut_short_app.
      * done.
    + destruct Hone as (Hp1 & Hs1 & Hcut). rewrite Hp1.
      split_and!; [|done..]. apply (prefix_cons (id suite)), prefix_nil.
    + by destruct Hone as (_ & _ & ?).
Qed.

Lemma mirror_loop_run (suites : list check_suite) (fuel : nat) :
  ∀ h : history,
    let r := mirror_loop host fuel local_repo remote_repo local_commit_sha pr_number pr_url
                         release_tag suites h in
    mirrored_run local_repo local_commit_sha pr_number pr_url release_tag fuel suites r.1 r.2.
Proof.
  induction fuel as [|fuel IH]; intros h r; subst r.
  - simpl. by exists [].
  - simpl mirror_loop. rewrite bind_run. unfold mirror_iteration.
    pose proof (mirror_suites_run suites true h) as Hiter. cbv zeta in Hiter.
    destruct (for_each _ _ _ _) as [s1 [b|e|]]; cbn [fst snd] in *; [| |done].
    + destruct Hiter as (-> & _ & Hiter). simpl.
      destruct (forallb is_completed (observed_runs s1)) eqn:Hall.
      * simpl. exists [], s1. simpl. by rewrite app_nil_r.
      * rewrite bind_run, sleep_run by lia. cbn [fst snd].
        specialize (IH ((h ++ s1) ++ [ESleep 30])). cbv zeta in IH.
        destruct (mirror_loop _ _ _ _ _ _ _ _ _ _) as [s2 [[]|e|]]; cbn [fst snd] in *.
        -- destruct IH as (iterations & last & -> & Hits & Hlast & Hdone).
           exists (s1 :: iterations), last. simpl. rewrite <- !app_assoc.
           split_and!; [done| |done..]. by constructor.
        -- destruct IH as (iterations & last & -> & Hits & Hlast).
           exists (s1 :: iterations), last. simpl. rewrite <- !app_assoc.
           split_and!; [done| |done]. by constructor.
        -- destruct IH as (iterations & -> & Hits & Hlen).
           exists (s1 :: iterations). simpl. rewrite <- !app_assoc.
           split_and!; [done| |by rewrite Hlen]. by constructor.
    + exists [], s1. by split_and!.
Qed.

End Mirror.


Lemma perform_Ret_inv {A} (answer : history → result A) (ev : result A → event) (h : history)
  evs (a : A) :
  perform answer ev h = (evs, Ret a) → answer h = inr a ∧ evs = [ev (inr a)].
Proof.
  rewrite perform_run. destruct (answer h) as [e|a'] eqn:Ea; [done|].
  by intros [= <- <-].
Qed.

Lemma fetch_pr_details_Ret_inv (host : Host) (inputs : DeployInputs) (h : history) evs
  (pr_number : Z) (pr_sha : string) :
  fetch_pr_details host inputs h = (evs, Ret (pr_number, pr_sha)) →
  ∃ repo pull,
    evs = [EGetRepo (token inputs)
                    ("https://github.com/" +:+ repo_owner inputs +:+ "/" +:+ repo_name inputs)
                    (inr repo);
           EGetPulls repo (repo_owner inputs +:+ ":" +:+ release_tag inputs) "main" "open"
                     (inr [pull])] ∧
    pr_number = number pull ∧ pr_sha = head_sha pull.
Proof.
  unfold fetch_pr_details. intros Hrun.
  apply bind_Ret_inv in Hrun as (s1 & repo & s2 & Hrepo & Hrest & ->).
  apply perform_Ret_inv in Hrepo as (_ & ->).
  apply bind_Ret_inv in Hrest as (s3 & pulls & s4 & Hpulls & Hret & ->).
  apply perform_Ret_inv in Hpulls as (_ & ->).
  case_decide as Hlen; [done|].
  destruct pulls as [|pull [|? ?]]; [done| |done].
  injection Hret as <- <- <-. by exists repo, pull.
Qed.


Lemma listed_suites_app (evs1 evs2 : list event) :
  listed_suites (evs1 ++ evs2) = listed_suites evs1 ++ listed_suites evs2.
Proof. apply flat_map_app. Qed.

(** Looking up the change request lists no check run and no check suite,
    writes nothing, does not sleep, and ends. *)
Lemma fetch_pr_details_setup (host : Host) (inputs : DeployInputs) (h : history) :
  let r := fetch_pr_details host inputs h in
  observed_runs r.1 = [] ∧ polled_suites r.1 = [] ∧ status_writes r.1 = [] ∧ sleeps r.1 = [] ∧
  listed_suites r.1 = [] ∧ r.2 ≠ Running.
Proof.
  intros r. subst r. unfold fetch_pr_details, get_repo, get_pulls. rewrite bind_perform_run.
  destruct (h_get_repo host h _ _) as [e|repo]; cbn [fst snd]; [by split_and!|].
  rewrite bind_perform_run.
  destruct (h_get_pulls host _ repo _ _ _) as [e|pulls]; cbn [fst snd]; [by split_and!|].
  case_decide; [by split_and!|]. destruct pulls; by split_and!.
Qed.

(** C6, as stated, fails: in an iteration that a failed call cuts short
    a run seen with status [completed] may get no commit status.  Here the
    one suite lists ["build"] and ["test"], both completed; the write for
    ["build"] is answered with status 502, the exception ends the run, and
    no status is written for ["test"]. *)
Lemma sync_failed_write_skips_completed_run :
  let run := sync_local_commit_with_remote_checks host_status_down 2 acme_inputs
               "https://github.com/acme/deploy/pull/7" [] in
  map (λ run, (name run, status run)) (observed_runs run.1)
  = [("build", "completed"); ("test", "completed")] ∧
  map cs_context (status_writes run.1) = ["build  / v1.4.2"] ∧
  run.2 = Raise (GithubException 502).
Proof. by vm_compute. Qed.

(** C6, amended: a run of [sync_local_commit_with_remote_checks], however
    it ends, is a setup followed by the mirror loop.  The setup lists no check
    run, writes no commit status and takes no sleep.  If the setup did not
    get a check suite listed (the tag is absent from the local repository,
    a call of the setup failed, or the commit has no check suite), the run
    ends there and the loop is empty.  Otherwise the setup resolved the
    local repository, the commit of its tag [tags/<release_tag>] and the
    change request, and the loop is made of iterations over the suites
    listed, each followed by a sleep of 30 while some run seen is not yet
    completed.  In every iteration that runs to its end the runs of every
    suite are fetched once, and every run seen with status [completed]
    produces exactly one commit status on that tagged commit of the local
    repository, in the order seen, while a run with any other status
    produces none.  Nothing is remembered from one iteration to the next,
    so a run seen completed in several iterations is written in each.  A
    run that returns ends with an iteration in which every run seen is
    completed; a run that raises ends with the iteration the failed call
    cut short, in which the completed runs reached before the failure were
    written, one each; a run still going has done as many whole
    iterations as it was given. *)
Theorem sync_mirrors_completed_runs (host : Host) (fuel : nat) (inputs : DeployInputs)
  (pr_url : string) (h : history) :
  let run := sync_local_commit_with_remote_checks host fuel inputs pr_url h in
  ∃ setup loop,
    run.1 = setup ++ loop ∧
    observed_runs setup = [] ∧ polled_suites setup = [] ∧ status_writes setup = [] ∧
    sleeps setup = [] ∧
    match listed_suites setup with
    | [] => loop = [] ∧ run.2 ≠ Running
    | (_ :: _) as suites =>
        ∃ local_repo local_tag remote_repo pull,
          EGetRepo (token inputs)
                   ("https://github.com/" +:+ local_repo_owner inputs +:+ "/"
                    +:+ local_repo_name inputs)
                   (inr local_repo) ∈ setup ∧
          EGetGitRef local_repo ("tags/" +:+ release_tag inputs) (inr local_tag) ∈ setup ∧
          EGetPulls remote_repo (repo_owner inputs +:+ ":" +:+ release_tag inputs) "main" "open"
                    (inr [pull]) ∈ setup ∧
          mirrored_run local_repo (object_sha local_tag) (number pull) pr_url
                       (release_tag inputs) fuel suites loop run.2
    end.
Proof.
  intros run. subst run.
  destruct (sync_local_commit_with_remote_checks host fuel inputs pr_url h) as [evs o] eqn:Erun.
  cbn [fst snd]. revert Erun.
  unfold sync_local_commit_with_remote_checks, get_repo at 1. rewrite bind_perform_run.
  destruct (h_get_repo host h _ _) as [e|local_repo].
  { intros [= <- <-]. eexists _, []. split; [by rewrite app_nil_r|]. by split_and!. }
  rewrite bind_run. unfold try_except, get_git_ref. rewrite bind_perform_run.
  destruct (h_get_git_ref host _ local_repo _) as [e|local_tag].
  { destruct (is_GithubException e); intros [= <- <-];
      (eexists _, []; split; [by rewrite app_nil_r|]; by split_and!). }
  cbn [ret fst snd app]. unfold get_repo. rewrite bind_perform_run.
  destruct (h_get_repo host _ _ _) as [e|remote_repo].
  { intros [= <- <-]. eexists _, []. split; [by rewrite app_nil_r|]. by split_and!. }
  rewrite bind_run.
  match goal with
  | |- context [fetch_pr_details host inputs ?h'] =>
      pose proof (fetch_pr_details_setup host inputs h') as Hsetup; cbv zeta in Hsetup;
      destruct (fetch_pr_details host inputs h') as [details [[pr_number remote_sha]|e|]] eqn:Hpr
  end; cbn [fst snd] in *.
  2: { destruct Hsetup as (Ho & Hp & Hw & Hs & Hl & _). intros [= <- <-].
       eexists _, []. split; [by rewrite app_nil_r|].
       change (?a :: ?b :: ?c :: details) with ([a; b; c] ++ details).
       rewrite observed_runs_app, polled_suites_app, status_writes_app, sleeps_app,
         listed_suites_app, Ho, Hp, Hw, Hs, Hl. by split_and!. }
  2: { by destruct Hsetup as (_ & _ & _ & _ & _ & ?). }
  clear Hsetup. apply fetch_pr_details_Ret_inv in Hpr as (repo' & pull & -> & -> & ->).
  unfold get_check_suite_status. rewrite bind_perform_run.
  destruct (h_get_check_suites host _ remote_repo _) as [e|[|suite suites]]; cbn [fst snd app].
  { intros [= <- <-]. eexists _, []. split; [by rewrite app_nil_r|]. by split_and!. }
  { intros [= <- <-]. eexists _, []. split; [by rewrite app_nil_r|]. by split_and!. }
  match goal with
  | |- context [mirror_loop host fuel ?lr ?rr ?sha ?n pr_url ?tag ?ss ?h'] =>
      pose proof (mirror_loop_run host lr rr sha n pr_url tag ss fuel h') as Hloop;
      cbv zeta in Hloop;
      destruct (mirror_loop host fuel lr rr sha n pr_url tag ss h') as [loop o']
  end; cbn [fst snd] in *. intros [= <- <-].
  exists [EGetRepo (token inputs)
            ("https://github.com/" +:+ local_repo_owner inputs +:+ "/" +:+ local_repo_name inputs)
            (inr local_repo);
          EGetGitRef local_repo ("tags/" +:+ release_tag inputs) (inr local_tag);
          EGetRepo (token inputs)
            ("https://github.com/" +:+ repo_owner inputs +:+ "/" +:+ repo_name inputs)
            (inr remote_repo);
          EGetRepo (token inputs)
            ("https://github.com/" +:+ repo_owner inputs +:+ "/" +:+ repo_name inputs)
            (inr repo');
          EGetPulls repo' (repo_owner inputs +:+ ":" +:+ release_tag inputs) "main" "open"
            (inr [pull]);
          EGetCheckSuites remote_repo (head_sha pull) (inr (suite :: suites))], loop.
  split; [done|]. split_and!; [done..|]. cbn [listed_suites flat_map app].
  rewrite app_nil_r. exists local_repo, local_tag, repo', pull. split_and!; [| | |exact Hloop].
  - apply list_elem_of_here.
  - apply list_elem_of_further, list_elem_of_here.
  - do 4 apply list_elem_of_further. apply list_elem_of_here.
Qed.

Lemma sync_mirrors_completed_runs_witness :
  let run := sync_local_commit_with_remote_checks host_mirror 2 acme_inputs
               "https://github.com/acme/deploy/pull/7" [] in
  ∃ setup loop,
    run.1 = setup ++ loop ∧
    observed_runs setup = [] ∧ polled_suites setup = [] ∧ status_writes setup = [] ∧
    sleeps setup = [] ∧
    match listed_suites setup with
    | [] => loop = [] ∧ run.2 ≠ Running
    | (_ :: _) as suites =>
        ∃ local_repo local_tag remote_repo pull,
          EGetRepo "t0k" "https://github.com/acme/app" (inr local_repo) ∈ setup ∧
          EGetGitRef local_repo "tags/1.4.2" (inr local_tag) ∈ setup ∧
          EGetPulls remote_repo "acme:1.4.2" "main" "open" (inr [pull]) ∈ setup ∧
          mirrored_run local_repo (object_sha local_tag) (number pull)
                       "https://github.com/acme/deploy/pull/7" "1.4.2" 2 suites loop run.2
    end.
Proof.
  exact (sync_mirrors_completed_runs host_mirror 2 acme_inputs
           "https://github.com/acme/deploy/pull/7" []).
Defined.


(** A run given one iteration only is still going after it: ["build"]
    was written once, ["test"] was not. *)
Example sync_still_mirroring :
  let run := sync_local_commit_with_remote_checks host_mirror 1 acme_inputs
               "https://github.com/acme/deploy/pull/7" [] in
  run.2 = Running ∧ sleeps run.1 = [30] ∧
  map (λ w, (cs_context w, cs_state w)) (status_writes run.1) = [("build  / v1.4.2", "success")].
Proof. by vm_compute. Qed.

Example sync_rewrites_completed_run :
  let run := sync_local_commit_with_remote_checks host_mirror 2 acme_inputs
               "https://github.com/acme/deploy/pull/7" [] in
  run.2 = Ret tt ∧ sleeps run.1 = [30] ∧
  map (λ w, (cs_repo w, cs_sha w, cs_context w, cs_state w)) (status_writes run.1)
  = [({| repo_url := "https://github.com/acme/app" |}, "7a9", "build  / v1.4.2", "success");
     ({| repo_url := "https://github.com/acme/app" |}, "7a9", "build  / v1.4.2", "success");
     ({| repo_url := "https://github.com/acme/app" |}, "7a9", "test  / v1.4.2", "failure")].
Proof. by vm_compute. Qed.

(** ** CheckAggregator *)

(** *** The scan of one poll *)

Lemma scan_run_outside (B : gset string) (acc : gset string * gset string) (run : check_run) :
  name run ∉ B → scan_run B acc run = acc.
Proof. intros Hout. unfold scan_run. destruct acc. by rewrite decide_True. Qed.

Lemma scan_fold_filter (B : gset string) (runs : list check_run) :
  ∀ acc, foldl (scan_run B) acc (filter (λ run, name run ∈ B) runs) = foldl (scan_run B) acc runs.
Proof.
  induction runs as [|run runs IH]; intros acc; [done|].
  rewrite filter_cons. case_decide as Hin; simpl.
  - apply IH.
  - rewrite scan_run_outside by done. apply IH.
Qed.

Lemma scan_run_completed (B c f : gset string) (run : check_run) (n : string) :
  n ∈ (scan_run B (c, f) run).1 ↔
  n ∈ c ∨ (n ∈ B ∧ name run = n ∧ status run = "completed").
Proof.
  unfold scan_run.
  destruct (decide (name run ∉ B)) as [Hout|Hin%dec_stable]; [set_solver|].
  destruct (decide (status run ≠ "completed")) as [Hst|Hst%dec_stable]; [set_solver|].
  destruct (decide (conclusion run = Some "failure")); simpl; set_solver.
Qed.

Lemma scan_run_failed (B c f : gset string) (run : check_run) (n : string) :
  n ∈ (scan_run B (c, f) run).2 ↔
  n ∈ f ∨ (n ∈ B ∧ name run = n ∧ status run = "completed" ∧ conclusion run = Some "failure").
Proof.
  unfold scan_run.
  destruct (decide (name run ∉ B)) as [Hout|Hin%dec_stable]; [set_solver|].
  destruct (decide (status run ≠ "completed")) as [Hst|Hst%dec_stable]; [set_solver|].
  destruct (decide (conclusion run = Some "failure")); simpl; set_solver.
Qed.

Lemma scan_fold_completed (B : gset string) (runs : list check_run) :
  ∀ (c f : gset string) (n : string),
    n ∈ (foldl (scan_run B) (c, f) runs).1 ↔
    n ∈ c ∨ (n ∈ B ∧ ∃ run, run ∈ runs ∧ name run = n ∧ status run = "completed").
Proof.
  induction runs as [|run runs IH]; intros c f n.
  - set_solver.
  - cbn [foldl]. pose proof (scan_run_completed B c f run n) as Hstep.
    destruct (scan_run B (c, f) run) as [c' f']. rewrite IH. simpl in Hstep.
    rewrite Hstep. set_solver.
Qed.

Lemma scan_fold_failed (B : gset string) (runs : list check_run) :
  ∀ (c f : gset string) (n : string),
    n ∈ (foldl (scan_run B) (c, f) runs).2 ↔
    n ∈ f ∨ (n ∈ B ∧ ∃ run, run ∈ runs ∧ name run = n ∧ status run = "completed" ∧
                       conclusion run = Some "failure").
Proof.
  induction runs as [|run runs IH]; intros c f n.
  - set_solver.
  - cbn [foldl]. pose proof (scan_run_failed B c f run n) as Hstep.
    destruct (scan_run B (c, f) run) as [c' f']. rewrite IH. simpl in Hstep.
    rewrite Hstep. set_solver.
Qed.

Lemma run_names_fold (runs : list check_run) :
  ∀ (names : gset string) (n : string),
    n ∈ foldl (λ names run, names ∪ {[name run]}) names runs ↔
    n ∈ names ∨ ∃ run, run ∈ runs ∧ name run = n.
Proof.
  induction runs as [|run runs IH]; intros names n.
  - set_solver.
  - cbn [foldl]. rewrite IH. set_solver.
Qed.

Lemma scan_runs_completed (B : gset string) (runs : list check_run) :
  (scan_runs B runs).1 = baseline_completed B runs.
Proof.
  apply set_eq. intros n. unfold scan_runs, baseline_completed.
  rewrite scan_fold_completed, elem_of_list_to_set, list_elem_of_fmap.
  setoid_rewrite list_elem_of_filter. set_solver.
Qed.

Lemma scan_runs_failed (B : gset string) (runs : list check_run) :
  (scan_runs B runs).2 = baseline_failed B runs.
Proof.
  apply set_eq. intros n. unfold scan_runs, baseline_failed.
  rewrite scan_fold_failed, elem_of_list_to_set, list_elem_of_fmap.
  setoid_rewrite list_elem_of_filter. set_solver.
Qed.

(** Runs outside the baseline leave the scan of a poll unchanged. *)
Lemma scan_runs_ignores_others (B : gset string) (runs : list check_run) :
  scan_runs B (filter (λ run, name run ∈ B) runs) = scan_runs B runs.
Proof. apply scan_fold_filter. Qed.

Lemma baseline_failed_nonempty (B : gset string) (runs : list check_run) :
  baseline_failed B runs ≠ ∅ ↔
  ∃ run, run ∈ runs ∧ name run ∈ B ∧ status run = "completed" ∧
         conclusion run = Some "failure".
Proof.
  unfold baseline_failed. split.
  - intros Hne. apply set_choose_L in Hne as [n Hn].
    apply elem_of_list_to_set, list_elem_of_fmap in Hn as (run & -> & Hrun).
    apply list_elem_of_filter in Hrun. naive_solver.
  - intros (run & Hin & Hrun) Hempty.
    assert (name run ∈ (∅ : gset string)) as Habs; [|set_solver].
    rewrite <- Hempty. apply elem_of_list_to_set, list_elem_of_fmap.
    exists run. split; [done|]. by apply list_elem_of_filter.
Qed.

(** *** Enumerations *)

Lemma for_each_not_running {S X : Type} (body : S → X → M S) :
  (∀ s x h evs, body s x h ≠ (evs, Running)) →
  ∀ xs s h evs, for_each body s xs h ≠ (evs, Running).
Proof.
  intros Hbody. induction xs as [|x xs IH]; intros s h evs; [done|].
  simpl. rewrite bind_run. destruct (body s x h) as [s1 [s'|e|]] eqn:Eb; [|done|].
  - destruct (for_each body s' xs (h ++ s1)) as [s2 o] eqn:Er. intros [= _ ->].
    by apply IH in Er.
  - by apply Hbody in Eb.
Qed.

Section Aggregator.
Context (host : Host) (repo : repository) (pr_sha : string).

Lemma scan_suites_Ret (B : gset string) (suites : list check_suite) :
  ∀ (acc : gset string * gset string) (h : history) evs acc',
    for_each (scan_suite host repo B) acc suites h = (evs, Ret acc') →
    acc' = foldl (scan_run B) acc (observed_runs evs) ∧
    polled_suites evs = map id suites ∧ sleeps evs = [].
Proof.
  induction suites as [|suite suites IH]; intros acc h evs acc' Hrun.
  - by injection Hrun as <- <-.
  - simpl in Hrun. apply bind_Ret_inv in Hrun as (s1 & acc1 & s2 & Hone & Hrest & ->).
    unfold scan_suite, get_check_runs_status in Hone. rewrite bind_perform_run in Hone.
    destruct (h_get_check_runs host h repo (id suite)) as [e|runs]; [done|].
    injection Hone as <- <-.
    apply IH in Hrest as (-> & Hp & Hs).
    rewrite observed_runs_app, polled_suites_app, sleeps_app, Hp, Hs, foldl_app.
    simpl. by rewrite app_nil_r.
Qed.

Lemma observe_suites_Ret (suites : list check_suite) :
  ∀ (names : gset string) (h : history) evs names',
    for_each (observe_suite host repo) names suites h = (evs, Ret names') →
    names' = foldl (λ names run, names ∪ {[name run]}) names (observed_runs evs) ∧
    polled_suites evs = map id suites ∧ sleeps evs = [].
Proof.
  induction suites as [|suite suites IH]; intros names h evs names' Hrun.
  - by injection Hrun as <- <-.
  - simpl in Hrun. apply bind_Ret_inv in Hrun as (s1 & names1 & s2 & Hone & Hrest & ->).
    unfold observe_suite, get_check_runs_status in Hone. rewrite bind_perform_run in Hone.
    destruct (h_get_check_runs host h repo (id suite)) as [e|runs]; [done|].
    injection Hone as <- <-.
    apply IH in Hrest as (-> & Hp & Hs).
    rewrite observed_runs_app, polled_suites_app, sleeps_app, Hp, Hs, foldl_app.
    simpl. by rewrite app_nil_r.
Qed.

Lemma poll_checks_Ret (B : gset string) (h : history) evs (acc : gset string * gset string) :
  poll_checks host repo pr_sha B h = (evs, Ret acc) →
  acc = scan_runs B (observed_runs evs) ∧ enumeration repo pr_sha evs.
Proof.
  unfold poll_checks, get_check_suite_status. rewrite bind_perform_run.
  destruct (h_get_check_suites host h repo pr_sha) as [e|suites]; [done|].
  destruct (for_each _ _ _ _) as [s2 o] eqn:Escan. intros [= <- ->].
  apply scan_suites_Ret in Escan as (-> & Hp & Hs). split; [done|].
  split; [done|]. by exists suites, s2.
Qed.

Lemma capture_baseline_Ret (h : history) evs (B : gset string) :
  capture_baseline host repo pr_sha h = (evs, Ret B) →
  B = run_names (observed_runs evs) ∧ enumeration repo pr_sha evs.
Proof.
  unfold capture_baseline, get_check_suite_status. rewrite bind_perform_run.
  destruct (h_get_check_suites host h repo pr_sha) as [e|suites]; [done|].
  destruct (for_each _ _ _ _) as [s2 o] eqn:Eobs. intros [= <- ->].
  apply observe_suites_Ret in Eobs as (-> & Hp & Hs). split; [done|].
  split; [done|]. by exists suites, s2.
Qed.

Lemma poll_checks_not_running (B : gset string) (h : history) evs :
  poll_checks host repo pr_sha B h ≠ (evs, Running).
Proof.
  unfold poll_checks, get_check_suite_status. rewrite bind_perform_run.
  destruct (h_get_check_suites host h repo pr_sha) as [e|suites]; [done|].
  destruct (for_each _ _ _ _) as [s2 o] eqn:Escan. intros [= _ ->]. revert Escan.
  apply for_each_not_running. clear. intros acc suite h evs.
  unfold scan_suite, get_check_runs_status. rewrite bind_perform_run.
  by destruct (h_get_check_runs host h repo (id suite)).
Qed.

Lemma capture_baseline_not_running (h : history) evs :
  capture_baseline host repo pr_sha h ≠ (evs, Running).
Proof.
  unfold capture_baseline, get_check_suite_status. rewrite bind_perform_run.
  destruct (h_get_check_suites host h repo pr_sha) as [e|suites]; [done|].
  destruct (for_each _ _ _ _) as [s2 o] eqn:Eobs. intros [= _ ->]. revert Eobs.
  apply for_each_not_running. clear. intros names suite h evs.
  unfold observe_suite, get_check_runs_status. rewrite bind_perform_run.
  by destruct (h_get_check_runs host h repo (id suite)).
Qed.

(** *** The poll loop *)

Lemma poll_loop_polls (B : gset string) (fuel : nat) :
  ∀ (h : history) evs (o : outcome (gset string)),
    poll_loop host fuel repo pr_sha B h = (evs, o) →
    match o with
    | Raise _ => True
    | _ =>
        ∃ (polls : list (list event)) (last : list event),
          evs = concat (map (λ p, p ++ [ESleep 60]) polls) ++ last ∧
          Forall (λ p, enumeration repo pr_sha p ∧ baseline_completed B (observed_runs p) ≠ B)
                 polls ∧
          match o with
          | Ret failed_checks =>
              enumeration repo pr_sha last ∧
              baseline_completed B (observed_runs last) = B ∧
              failed_checks = baseline_failed B (observed_runs last)
          | _ => last = [] ∧ length polls = fuel
          end
    end.
Proof.
  induction fuel as [|fuel IH]; intros h evs o Hrun.
  - injection Hrun as <- <-. by exists [], [].
  - simpl in Hrun. rewrite bind_run in Hrun.
    destruct (poll_checks host repo pr_sha B h) as [s1 [[c f]|e|]] eqn:Epoll.
    + apply poll_checks_Ret in Epoll as (Hacc & Henum).
      assert (c = baseline_completed B (observed_runs s1)) as ->
        by (by rewrite <- scan_runs_completed, <- Hacc).
      assert (f = baseline_failed B (observed_runs s1)) as ->
        by (by rewrite <- scan_runs_failed, <- Hacc).
      case_decide as Hdone.
      * injection Hrun as <- <-. exists [], s1. simpl. by rewrite app_nil_r.
      * rewrite bind_run, sleep_run in Hrun by lia.
        destruct (poll_loop _ _ _ _ _ _) as [s2 o2] eqn:Eloop.
        injection Hrun as <- <-. apply IH in Eloop.
        destruct o2 as [failed| |]; [|done|].
        -- destruct Eloop as (polls & last & -> & Hpolls & Hlast).
           exists (s1 :: polls), last. simpl. rewrite <- !app_assoc.
           split; [done|]. split; [by constructor|done].
        -- destruct Eloop as (polls & last & -> & Hpolls & -> & Hlen).
           exists (s1 :: polls), []. simpl. rewrite <- !app_assoc.
           split; [done|]. split; [by constructor|]. by rewrite Hlen.
    + by injection Hrun as <- <-.
    + by apply poll_checks_not_running in Epoll.
Qed.

(** C5: the names seen at the first enumeration are the scope of every
    later poll.  A run of [monitor_checks] that does not raise is the
    baseline enumeration followed by polls; a poll is followed by a sleep
    of 60 and another poll exactly when the baseline names with a
    completed run in it are not the whole baseline, and the loop ends on
    the first poll in which they are.  The test and the verdict read only
    runs whose name is in the baseline, so a run that appears later under
    another name changes neither. *)
Theorem monitor_checks_scope (fuel : nat) (h : history) evs (o : outcome bool) :
  monitor_checks host fuel repo pr_sha h = (evs, o) →
  scoped_run fuel repo pr_sha evs o.
Proof.
  unfold monitor_checks. rewrite bind_run.
  destruct (capture_baseline host repo pr_sha h) as [s0 [B|e|]] eqn:Ebase.
  - apply capture_baseline_Ret in Ebase as (-> & Hbase).
    rewrite bind_run.
    destruct (poll_loop _ _ _ _ _ _) as [s1 [failed|e|]] eqn:Eloop.
    + apply poll_loop_polls in Eloop as (polls & last & -> & Hpolls & Hlast & Hdone & ->).
      assert (∀ n, n ∈ run_names (observed_runs s0) ↔
                   ∃ run, run ∈ observed_runs s0 ∧ name run = n) as Hnames.
      { intros n. unfold run_names. rewrite run_names_fold. set_solver. }
      case_decide as Hfailed; intros [= <- <-]; rewrite app_nil_r;
        exists s0, polls, last; cbv zeta; (split_and!; [done..|]).
      * split; [intros _|done]. by apply baseline_failed_nonempty.
      * split; [done|]. intros Hrun. by apply baseline_failed_nonempty in Hrun.
    + by intros [= <- <-].
    + apply poll_loop_polls in Eloop as (polls & last & -> & Hpolls & -> & Hlen).
      intros [= <- <-]. exists s0, polls, []. cbv zeta. split_and!; try done.
      intros n. unfold run_names. rewrite run_names_fold. set_solver.
  - by intros [= <- <-].
  - by apply capture_baseline_not_running in Ebase.
Qed.

End Aggregator.

Lemma monitor_checks_scope_witness :
  scoped_run 3 acme "c0ffee" (monitor_checks host_scenario_a 3 acme "c0ffee" []).1 (Ret true).
Proof.
  apply (monitor_checks_scope host_scenario_a acme "c0ffee" 3 []).
  vm_compute. reflexivity.
Defined.

(** Scenario A: three polls, two sleeps, verdict SUCCESS; the run
    ["lint"], which joined after the baseline, is still queued at the end
    and holds nothing up.  With fuel for two polls only the loop is still
    running. *)
Example monitor_checks_scenario_a :
  let run := monitor_checks host_scenario_a 3 acme "c0ffee" [] in
  run.2 = Ret true ∧ sleeps run.1 = [60; 60] ∧
  (monitor_checks host_scenario_a 2 acme "c0ffee" []).2 = Running.
Proof. by vm_compute. Qed.

(** Scenario B: one poll, no sleep, verdict FAILURE. *)
Example monitor_checks_scenario_b :
  let run := monitor_checks host_scenario_b 1 acme "c0ffee" [] in
  run.2 = Ret false ∧ sleeps run.1 = [].
Proof. by vm_compute. Qed.

(** C1, on the code: the only run of the baseline, ["build"], is
    completed with the conclusion [timed_out], one of the failure class
    and mirrored as ["failure"] by [process_check_run]; [monitor_checks]
    nevertheless returns [True], the verdict SUCCESS, because it compares
    the conclusion with ["failure"] alone. *)
Lemma monitor_checks_passes_timed_out :
  let build := run "build" "completed" (Some "timed_out") in
  let result := monitor_checks host_build_timed_out 1 acme "c0ffee" [] in
  observed_runs result.1 = [build; build] ∧
  conclusion build ∈ failure_class ∧
  mirrored_state build = "failure" ∧
  result.2 = Ret true.
Proof.
  split_and!.
  - by vm_compute.
  - unfold failure_class. simpl. set_solver.
  - by vm_compute.
  - by vm_compute.
Qed.

(** * Further properties *)

(** ** ContentTransformer *)

Lemma update_line_overwrite (t1 t2 l : string) :
  update_line t2 (update_line t1 l) = update_line t2 l.
Proof.
  unfold update_line at 1 3. rewrite startswith_update_line.
  destruct (startswith marker l) eqn:E; [done|]. by rewrite update_line_other.
Qed.

(** X1: a second release overwrites the first.  When the first release
    tag has no line feed, updating the output of [update_content] with
    another tag gives what updating the original file with that tag gives:
    no trace of the first tag remains. *)
Theorem update_content_last_tag_wins (s t1 t2 : string) :
  one_line t1 = true →
  update_content (update_content s t1) t2 = update_content s t2.
Proof.
  intros Ht1. unfold update_content at 1.
  rewrite split_lines_update_content by done.
  rewrite <- list_fmap_compose. unfold update_content. f_equal.
  apply list_fmap_ext. intros i l _. simpl. apply update_line_overwrite.
Qed.

Lemma update_content_last_tag_wins_witness :
  update_content (update_content env_file "2.0") "3.1" = update_content env_file "3.1".
Proof. apply (update_content_last_tag_wins env_file "2.0" "3.1"). reflexivity. Defined.

(** X2: a file that is up to date is left as it is.  If every line that
    begins with the marker already reads [export IMAGE_VERSION=<release_tag>],
    [update_content] returns the file content unchanged, byte for byte. *)
Theorem update_content_up_to_date (s t : string) :
  Forall (λ l, startswith marker l = true → l = marker +:+ t) (split_lines s) →
  update_content s t = s.
Proof.
  intros Hup. unfold update_content.
  replace (map (update_line t) (split_lines s)) with (split_lines s);
    [apply join_split_lines|].
  induction Hup as [|l ls Hl _ IH]; [done|]. simpl. rewrite <- IH. f_equal.
  unfold update_line. destruct (startswith marker l) eqn:E; [|done]. by apply Hl.
Qed.

Lemma update_content_up_to_date_witness :
  update_content (update_content env_file "2.0") "2.0" = update_content env_file "2.0".
Proof.
  apply (update_content_up_to_date (update_content env_file "2.0") "2.0").
  vm_compute. repeat constructor; by intros.
Defined.

(** ** StatusMirror: the classification of a run *)

(** X3: the classification table of [process_check_run].  The state is
    ["success"] exactly for a completed run whose conclusion is success,
    skipped or neutral, ["failure"] exactly for a completed run whose
    conclusion is failure, timed_out, action_required, stale or cancelled,
    and ["pending"] in every other case (not completed, no conclusion, or
    an unknown one); and the flag returned is the flag received unless the
    run is not completed, which clears it: the flag is never set. *)
Theorem process_check_run_table (run : check_run) (flag : bool) :
  let '(state, flag') := process_check_run run flag in
  (state = "success" ↔ status run = "completed" ∧ conclusion run ∈ success_class) ∧
  (state = "failure" ↔ status run = "completed" ∧ conclusion run ∈ failure_class) ∧
  (state = "pending" ↔
   ¬ (status run = "completed" ∧ (conclusion run ∈ success_class ∨ conclusion run ∈ failure_class))) ∧
  flag' = (if decide (status run = "completed") then flag else false).
Proof.
  unfold process_check_run, success_class, failure_class.
  destruct (decide (status run = "completed")) as [Hc|Hc].
  - destruct (decide (conclusion run ∈ [Some "success"; Some "skipped"; Some "neutral"]))
      as [Hs|Hs].
    + split_and!; [naive_solver| |naive_solver|done].
      split; [done|]. intros [_ Hf]. exfalso. set_solver.
    + destruct (decide (conclusion run ∈ [Some "failure"; Some "timed_out";
                                          Some "action_required"; Some "stale";
                                          Some "cancelled"])) as [Hf|Hf].
      * split_and!; [naive_solver|naive_solver|naive_solver|done].
      * destruct (decide (conclusion run = None)); split_and!; naive_solver.
  - destruct (decide (status run ∈ ["in_progress"; "queued"])); split_and!; naive_solver.
Qed.

(** ** What computations emit *)

Lemma emits_ret {A} (Q : event → Prop) (a : A) : emits Q (ret a).
Proof. intros h. constructor. Qed.

Lemma emits_raise {A} (Q : event → Prop) (e : exn) : emits Q (raise e : M A).
Proof. intros h. constructor. Qed.

Lemma emits_running {A} (Q : event → Prop) : emits Q (running : M A).
Proof. intros h. constructor. Qed.

Lemma emits_perform {A} (Q : event → Prop) (answer : history → result A)
  (ev : result A → event) :
  (∀ r, Q (ev r)) → emits Q (perform answer ev).
Proof. intros HQ h. rewrite perform_run. simpl. by constructor. Qed.

Lemma emits_bind {A B} (Q : event → Prop) (m : M A) (k : A → M B) :
  emits Q m → (∀ a, emits Q (k a)) → emits Q (bind m k).
Proof.
  intros Hm Hk h. rewrite bind_run. specialize (Hm h).
  destruct (m h) as [s1 [a|e|]]; simpl in *; [|done..].
  specialize (Hk a (h ++ s1)). destruct (k a (h ++ s1)) as [s2 o]. simpl in *.
  by apply Forall_app.
Qed.

Lemma emits_try_except {A} (Q : event → Prop) (m : M A) (handler : exn → option (M A)) :
  emits Q m → (∀ e k, handler e = Some k → emits Q k) → emits Q (try_except m handler).
Proof.
  intros Hm Hk h. unfold try_except. specialize (Hm h).
  destruct (m h) as [s1 [a|e|]]; simpl in *; [done| |done].
  destruct (handler e) as [k|] eqn:Eh; [|done].
  specialize (Hk e k Eh (h ++ s1)). destruct (k (h ++ s1)) as [s2 o]. simpl in *.
  by apply Forall_app.
Qed.

Lemma emits_for_each {S X} (Q : event → Prop) (body : S → X → M S) (xs : list X) :
  (∀ s x, emits Q (body s x)) → ∀ s, emits Q (for_each body s xs).
Proof.
  intros Hbody. induction xs as [|x xs IH]; intros s; simpl.
  - apply emits_ret.
  - apply emits_bind; [apply Hbody|]. intros s'. apply IH.
Qed.

Lemma emits_sleep (Q : event → Prop) (seconds : Z) : Q (ESleep seconds) → emits Q (sleep seconds).
Proof.
  intros HQ h. unfold sleep. case_decide; simpl; [constructor|].
  case_decide; simpl; [constructor|]. by repeat constructor.
Qed.

(** ** Runs that swallow no error *)

Lemma transparent_ret {A} (a : A) (h : history) : transparent (ret a h).1 (ret a h).2.
Proof. constructor. Qed.

Lemma transparent_perform {A} (answer : history → result A) (ev : result A → event)
  (h : history) :
  (∀ r, failure_of (ev r) = error_of r) →
  transparent (perform answer ev h).1 (perform answer ev h).2.
Proof.
  intros Hev. rewrite perform_run. simpl. specialize (Hev (answer h)).
  destruct (answer h) as [e|a]; simpl in *.
  - exists [], (ev (inl e)). by split_and!.
  - by repeat constructor.
Qed.

Lemma transparent_bind {A B} (m : M A) (k : A → M B) (h : history) :
  transparent (m h).1 (m h).2 →
  (∀ a h', transparent (k a h').1 (k a h').2) →
  transparent (bind m k h).1 (bind m k h).2.
Proof.
  intros Hm Hk. rewrite bind_run. destruct (m h) as [s1 [a|e|]]; simpl in *; [|done..].
  specialize (Hk a (h ++ s1)). destruct (k a (h ++ s1)) as [s2 [b|e|]]; simpl in *.
  - by apply Forall_app.
  - destruct Hk as (pre & ev & -> & Hev & Hpre). exists (s1 ++ pre), ev.
    rewrite app_assoc. split_and!; [done..|]. by apply Forall_app.
  - by apply Forall_app.
Qed.

Lemma transparent_for_each {S X} (body : S → X → M S) (xs : list X) :
  (∀ s x h, transparent (body s x h).1 (body s x h).2) →
  ∀ s h, transparent (for_each body s xs h).1 (for_each body s xs h).2.
Proof.
  intros Hbody. induction xs as [|x xs IH]; intros s h; simpl.
  - apply (transparent_ret s h).
  - apply transparent_bind; [apply Hbody|]. intros s' h'. apply IH.
Qed.

(** ** CheckAggregator: what it does to the platform *)

Section AggregatorEffects.
Context (host : Host) (repo : repository) (pr_sha : string).

Lemma get_check_suite_status_reads : emits (check_read repo pr_sha) (get_check_suite_status host repo pr_sha).
Proof. by apply emits_perform. Qed.

Lemma get_check_runs_status_reads (suite_id : Z) :
  emits (check_read repo pr_sha) (get_check_runs_status host repo suite_id).
Proof. by apply emits_perform. Qed.

Lemma capture_baseline_reads : emits (check_read repo pr_sha) (capture_baseline host repo pr_sha).
Proof.
  apply emits_bind; [apply get_check_suite_status_reads|]. intros suites.
  apply emits_for_each. intros names suite.
  apply emits_bind; [apply get_check_runs_status_reads|]. intros runs. apply emits_ret.
Qed.

Lemma poll_checks_reads (B : gset string) :
  emits (check_read repo pr_sha) (poll_checks host repo pr_sha B).
Proof.
  apply emits_bind; [apply get_check_suite_status_reads|]. intros suites.
  apply emits_for_each. intros acc suite.
  apply emits_bind; [apply get_check_runs_status_reads|]. intros runs. apply emits_ret.
Qed.

Lemma poll_loop_reads (B : gset string) (fuel : nat) :
  emits (check_read repo pr_sha) (poll_loop host fuel repo pr_sha B).
Proof.
  induction fuel as [|fuel IH]; simpl; [apply emits_running|].
  apply emits_bind; [apply poll_checks_reads|]. intros [c f].
  case_decide; [apply emits_ret|].
  apply emits_bind; [by apply emits_sleep|]. intros _. apply IH.
Qed.

Lemma capture_baseline_transparent (h : history) :
  transparent (capture_baseline host repo pr_sha h).1 (capture_baseline host repo pr_sha h).2.
Proof.
  apply transparent_bind; [by apply transparent_perform|]. intros suites h'.
  apply transparent_for_each. intros names suite h''.
  apply transparent_bind; [by apply transparent_perform|]. intros runs h3.
  apply (transparent_ret _ h3).
Qed.

Lemma poll_checks_transparent (B : gset string) (h : history) :
  transparent (poll_checks host repo pr_sha B h).1 (poll_checks host repo pr_sha B h).2.
Proof.
  apply transparent_bind; [by apply transparent_perform|]. intros suites h'.
  apply transparent_for_each. intros acc suite h''.
  apply transparent_bind; [by apply transparent_perform|]. intros runs h3.
  apply (transparent_ret _ h3).
Qed.

Lemma poll_loop_transparent (B : gset string) (fuel : nat) :
  ∀ h, transparent (poll_loop host fuel repo pr_sha B h).1 (poll_loop host fuel repo pr_sha B h).2.
Proof.
  induction fuel as [|fuel IH]; intros h; simpl; [constructor|].
  apply transparent_bind; [apply poll_checks_transparent|]. intros [c f] h'.
  case_decide; [apply (transparent_ret _ h')|].
  apply transparent_bind; [|intros _ h''; apply IH].
  rewrite sleep_run by lia. simpl. by repeat constructor.
Qed.

(** X4: [monitor_checks] only reads.  Whatever the platform answers
    and however the run ends, the events of a run are listings of the
    check suites of the commit, listings of the check runs of a suite of
    the repository, and sleeps of 60: it writes nothing.  It raises no
    error of its own and swallows none: a run raises exactly when a
    listing fails, at once, with the exception of that listing. *)
Theorem monitor_checks_reads_only (fuel : nat) (h : history) :
  let run := monitor_checks host fuel repo pr_sha h in
  Forall (check_read repo pr_sha) run.1 ∧ transparent run.1 run.2.
Proof.
  split.
  - apply emits_bind; [apply capture_baseline_reads|]. intros B.
    apply emits_bind; [apply poll_loop_reads|]. intros f.
    case_decide; apply emits_ret.
  - apply transparent_bind; [apply capture_baseline_transparent|]. intros B h'.
    apply transparent_bind; [apply poll_loop_transparent|]. intros f h''.
    case_decide; [apply (transparent_ret false h'')|apply (transparent_ret true h'')].
Qed.

End AggregatorEffects.







(** ** DeploymentVerifier: bounds and errors *)

Section VerifierEffects.
Context (host : Host) (api_url : string) (max_attempts wait_time timeout : Z).

Lemma verify_attempt_probes :
  emits (health_probe api_url timeout wait_time) (verify_attempt host api_url timeout).
Proof.
  apply emits_try_except.
  - apply emits_bind; [by apply emits_perform|]. intros response.
    case_decide; apply emits_ret.
  - intros e k Hk. destruct e; try done. injection Hk as <-. apply emits_ret.
Qed.

Lemma verify_loop_probes (attempts : list Z) :
  emits (health_probe api_url timeout wait_time)
        (verify_loop host api_url max_attempts wait_time timeout attempts).
Proof.
  induction attempts as [|attempt rest IH]; simpl; [apply emits_ret|].
  apply emits_bind; [apply verify_attempt_probes|]. intros [|]; [apply emits_ret|].
  apply emits_bind; [|intros _; apply IH].
  case_decide; [by apply emits_sleep|apply emits_ret].
Qed.

(** The pause between two attempts: at most one sleep, no request. *)
Lemma pause_run {P : Prop} (c : Decision P) (h : history) :
  ∃ s o, (if c then sleep wait_time else ret tt) h = (s, o) ∧
         http_attempts s = [] ∧ (length (sleeps s) ≤ 1)%nat ∧ o ≠ Running ∧
         Forall (λ ev, ∃ seconds, ev = ESleep seconds) s.
Proof.
  destruct c.
  - unfold sleep. case_decide; [|case_decide].
    + eexists [], _. split; [reflexivity|]. split_and!; simpl; try lia; done.
    + eexists [], _. split; [reflexivity|]. split_and!; simpl; try lia; done.
    + eexists [ESleep wait_time], _. split; [reflexivity|]. split_and!; simpl; try lia; try done.
      repeat constructor. by eexists.
  - eexists [], _. split; [reflexivity|]. split_and!; simpl; try lia; done.
Qed.

Lemma verify_loop_bounded (attempts : list Z) :
  ∀ h, let run := verify_loop host api_url max_attempts wait_time timeout attempts h in
       (length (http_attempts run.1) ≤ length attempts)%nat ∧
       (length (sleeps run.1) ≤ length (http_attempts run.1))%nat ∧
       run.2 ≠ Running ∧
       ∀ pre e post,
         run.1 = pre ++ EHttpGet api_url timeout (inl e) :: post →
         e ≠ RequestException → run.2 = Raise e ∧ post = [].
Proof.
  induction attempts as [|attempt rest IH]; intros h run; subst run.
  - simpl. split_and!; [done..|]. intros [|? ?] ? ? [=].
  - simpl verify_loop. rewrite bind_run, verify_attempt_run. cbv zeta.
    set (r := h_http_get host h api_url timeout).
    destruct (match r with inl _ => _ | inr _ => _ end) as [[|]|e'|] eqn:Eout.
    + (* answered 200 *)
      simpl. split_and!; [lia|lia|done|].
      intros pre e post Hevs Hne. destruct pre as [|? [|? ?]]; simpl in Hevs; [|done..].
      injection Hevs as Hr _. rewrite Hr in Eout. by destruct e.
    + (* a failed attempt *)
      rewrite bind_run.
      destruct (pause_run (decide (attempt < max_attempts - 1))
                          (h ++ [EHttpGet api_url timeout r])) as (s & o & -> & Hh & Hs & Ho & Hsl).
      destruct o as [[]|e'|]; [|clear IH|done].
      * specialize (IH ((h ++ [EHttpGet api_url timeout r]) ++ s)). cbv zeta in IH.
        destruct (verify_loop _ _ _ _ _ _ _) as [s2 o2]. simpl in *.
        destruct IH as (Hlen & Hsleeps & Hrun & Hraise).
        rewrite http_attempts_app, sleeps_app, Hh.
        rewrite !length_app. simpl. split_and!; [lia|lia|done|].
        intros pre e post Hevs Hne. destruct pre as [|ev pre]; simpl in Hevs.
        { injection Hevs as Hr _. rewrite Hr in Eout. by destruct e. }
        injection Hevs as <- Hevs.
        assert (∃ pre', pre = s ++ pre' ∧ s2 = pre' ++ EHttpGet api_url timeout (inl e) :: post)
          as (pre' & -> & ->).
        { clear -Hevs Hsl. revert pre Hevs. induction Hsl as [|ev s [sec ->] _ IHs]; intros pre Hevs.
          - by exists pre.
          - destruct pre as [|ev' pre]; [done|]. simpl in Hevs. injection Hevs as <- Hevs.
            destruct (IHs pre Hevs) as (pre' & -> & ->). by exists pre'. }
        by apply (Hraise pre' e post).
      * simpl. rewrite Hh. simpl. split_and!; [lia|lia|done|].
        intros pre e post Hevs Hne. destruct pre as [|ev pre]; simpl in Hevs.
        { injection Hevs as Hr _. rewrite Hr in Eout. by destruct e. }
        injection Hevs as <- Hevs. exfalso. clear -Hevs Hsl.
        revert pre Hevs. induction Hsl as [|ev s [sec ->] _ IHs]; intros pre Hevs.
        -- by destruct pre.
        -- destruct pre as [|ev' pre]; [done|]. simpl in Hevs. injection Hevs as _ Hevs. eauto.
    + (* an error of another class *)
      simpl. split_and!; [lia|lia|done|].
      intros pre e post Hevs Hne. destruct pre as [|? [|? ?]]; simpl in Hevs; [|done..].
      injection Hevs as Hr <-. rewrite Hr in Eout. destruct e; try done; by injection Eout as <-.
    + destruct r as [[]|?]; try done. by case_decide.
Qed.

(** X6: [verify_deployment] is bounded.  Whatever the endpoint answers
    and however the run ends, its events are GETs of the given URL with
    the given timeout and sleeps of [wait_time]; it makes at most
    [max_attempts] requests (none when [max_attempts] is not positive),
    never sleeps more often than it has asked, and always ends: it returns
    or raises, it is never left waiting. *)
Theorem verify_deployment_bounded (h : history) :
  let run := verify_deployment host api_url max_attempts wait_time timeout h in
  Forall (health_probe api_url timeout wait_time) run.1 ∧
  (length (http_attempts run.1) ≤ Z.to_nat max_attempts)%nat ∧
  (length (sleeps run.1) ≤ length (http_attempts run.1))%nat ∧
  run.2 ≠ Running.
Proof.
  intros run. subst run. unfold verify_deployment.
  destruct (verify_loop_bounded (py_range max_attempts) h) as (Hlen & Hsl & Hrun & _).
  unfold py_range in Hlen at 2. rewrite length_seqZ in Hlen.
  split_and!; [apply verify_loop_probes|done..].
Qed.

(** X7: only a [requests.RequestException] counts as a failed attempt.
    If the HTTP client raises an exception of any other class,
    [verify_deployment] does not retry: that request is the last event of
    the run and the exception propagates to the caller. *)
Theorem verify_deployment_other_error (h : history) (pre post : list event) (e : exn) :
  let run := verify_deployment host api_url max_attempts wait_time timeout h in
  run.1 = pre ++ EHttpGet api_url timeout (inl e) :: post →
  e ≠ RequestException →
  run.2 = Raise e ∧ post = [].
Proof.
  intros run. subst run. unfold verify_deployment.
  destruct (verify_loop_bounded (py_range max_attempts) h) as (_ & _ & _ & Hraise).
  apply Hraise.
Qed.

End VerifierEffects.

Lemma verify_deployment_other_error_witness :
  (verify_deployment host_client_crash "https://api.example.org/schema" 10 30 10 []).2
  = Raise (OtherException "MemoryError") ∧ @nil event = [].
Proof.
  apply (verify_deployment_other_error host_client_crash "https://api.example.org/schema" 10 30 10 []
           [EHttpGet "https://api.example.org/schema" 10
                     (inr {| status_code := 503; reason := "Service Unavailable" |});
            ESleep 30] [] (OtherException "MemoryError")).
  - reflexivity.
  - discriminate.
Defined.

(** ** ChangeRequestManager: the branch, probed twice *)

Lemma host_remembering_keeps_branches : keeps_branches host_remembering.
Proof. intros h repo branch_name Hseen. simpl. rewrite Hseen. eauto. Qed.

(** X8: ensuring a branch twice creates it at most once.  On a platform
    on which branches stay, once [upsert_branch] has returned, any later
    call for the same branch of the same repository is a probe and
    nothing else: it finds the branch, issues no creation, and returns. *)
Theorem upsert_branch_twice (host : Host) (repo : repository)
  (new_branch base_sha base_sha' : string) (h : history) (evs later : list event) :
  keeps_branches host →
  upsert_branch host repo new_branch base_sha h = (evs, Ret tt) →
  ∃ b, upsert_branch host repo new_branch base_sha' (h ++ evs ++ later)
       = ([EGetBranch repo new_branch (inr b)], Ret tt).
Proof.
  intros Hkeeps Hfirst.
  assert (existsb (shows_branch repo new_branch) evs = true) as Hshown.
  { rewrite upsert_branch_run in Hfirst. cbv zeta in Hfirst.
    destruct (h_get_branch host h repo new_branch) as [e|b].
    - destruct (is_GithubException e); [|done].
      destruct (h_create_git_ref host _ repo _ base_sha) as [e'|[]]; [done|].
      injection Hfirst as <-. simpl. by rewrite bool_decide_true.
    - injection Hfirst as <-. simpl. by rewrite bool_decide_true. }
  destruct (Hkeeps (h ++ evs ++ later) repo new_branch) as [b Hb].
  { rewrite !existsb_app, Hshown. simpl. apply orb_true_r. }
  exists b. rewrite upsert_branch_run. cbv zeta. by rewrite Hb.
Qed.

Lemma upsert_branch_twice_witness :
  ∃ b, upsert_branch host_remembering acme "1.4.2" "ba5e"
         ([] ++ [EGetBranch acme "1.4.2" (inl (GithubException 404));
                 ECreateGitRef acme "refs/heads/1.4.2" "ba5e" (inr tt)] ++ [ESleep 10])
       = ([EGetBranch acme "1.4.2" (inr b)], Ret tt).
Proof.
  apply (upsert_branch_twice host_remembering acme "1.4.2" "ba5e" "ba5e" []).
  - apply host_remembering_keeps_branches.
  - reflexivity.
Defined.

(** ** ChangeRequestManager: reads, then writes *)

Lemma get_content_run (host : Host) (repo : repository) (path ref : string) (h : history) :
  get_content host repo path ref h =
  let answer := h_get_contents host h repo path ref in
  ([EGetContents repo path ref answer],
   match answer with
   | inl e => Raise e
   | inr c =>
       match first_file c with
       | Some file =>
           if valid_utf8 (decoded_content file) then Ret (decoded_content file, sha file)
           else Raise (OtherException "UnicodeDecodeError")
       | None => Raise IndexError
       end
   end).
Proof.
  unfold get_content, get_contents. rewrite bind_perform_run. cbv zeta.
  destruct (h_get_contents host h repo path ref) as [e|[[|file l]|file]]; try reflexivity;
    (rewrite bind_run; unfold decode_utf8; simpl; by destruct (valid_utf8 _)).
Qed.

Lemma prepare_environment_run (host : Host) (repo : repository) (base_branch path : string)
  (h : history) :
  prepare_environment host repo base_branch path h =
  let probe := h_get_branch host h repo base_branch in
  match probe with
  | inl e => ([EGetBranch repo base_branch probe], Raise e)
  | inr b =>
      let answer := h_get_contents host (h ++ [EGetBranch repo base_branch probe]) repo path
                                   base_branch in
      ([EGetBranch repo base_branch probe; EGetContents repo path base_branch answer],
       match answer with
       | inl e => Raise e
       | inr c =>
           match first_file c with
           | Some file =>
               if valid_utf8 (decoded_content file)
               then Ret (branch_commit_sha b, decoded_content file, sha file)
               else Raise (OtherException "UnicodeDecodeError")
           | None => Raise IndexError
           end
       end)
  end.
Proof.
  unfold prepare_environment, get_branch. rewrite bind_perform_run. cbv zeta.
  destruct (h_get_branch host h repo base_branch) as [e|b]; [done|].
  rewrite bind_run, get_content_run. cbv zeta.
  destruct (h_get_contents host _ repo path base_branch) as [e|c]; [done|].
  destruct (first_file c) as [file|]; [|done]. by destruct (valid_utf8 _).
Qed.

Lemma create_pull_request_run (host : Host) (repo : repository)
  (release_tag base_sha path message base_branch content content_sha label : string)
  (h : history) :
  create_pull_request host repo release_tag base_sha path message base_branch content
                      content_sha label h =
  let ensure := upsert_branch host repo release_tag base_sha h in
  let update := EUpdateFile repo path message (update_content content release_tag) content_sha
                            release_tag in
  let open := ECreatePull repo ("Update " +:+ label +:+ " image tag with " +:+ release_tag)
                          ("### Automated Update " +:+ label +:+ " image tag in `" +:+ path
                           +:+ "` with " +:+ release_tag +:+ ".")
                          release_tag base_branch in
  match ensure.2 with
  | Ret _ =>
      let updated := h_update_file host (h ++ ensure.1) repo path message
                                   (update_content content release_tag) content_sha release_tag in
      match updated with
      | inl e => (ensure.1 ++ [update updated], Raise e)
      | inr _ =>
          let opened := h_create_pull host ((h ++ ensure.1) ++ [update updated]) repo
                          ("Update " +:+ label +:+ " image tag with " +:+ release_tag)
                          ("### Automated Update " +:+ label +:+ " image tag in `" +:+ path
                           +:+ "` with " +:+ release_tag +:+ ".")
                          release_tag base_branch in
          (ensure.1 ++ [update updated; open opened],
           match opened with
           | inl e => Raise e
           | inr pull => Ret {| pr := pull; pr_url := html_url pull; pr_number := number pull;
                                target_env := None |}
           end)
      end
  | Raise e => (ensure.1, Raise e)
  | Running => (ensure.1, Running)
  end.
Proof.
  unfold create_pull_request. rewrite bind_run. cbv zeta.
  destruct (upsert_branch host repo release_tag base_sha h) as [s1 [[]|e|]]; [|done..].
  simpl. unfold update_file. rewrite bind_perform_run.
  destruct (h_update_file host _ _ _ _ _ _ _) as [e|[]]; [done|].
  unfold create_pull. rewrite bind_perform_run.
  by destruct (h_create_pull host _ _ _ _ _ _) as [e|pull].
Qed.

(** X9: the stages of [create_pull_request].  The branch named after
    the release tag is ensured first; the file is updated only if that
    returned, with [update_content] of the content given, under the
    content hash given, on that branch; the change request is opened
    only if the update succeeded, from that branch into the base branch.
    The first failure ends the run with its exception, and the result,
    when there is one, carries the URL and number of the change request
    the platform answered with. *)
Theorem create_pull_request_stages (host : Host) (repo : repository)
  (release_tag base_sha path message base_branch content content_sha label : string)
  (h : history) :
  let run := create_pull_request host repo release_tag base_sha path message base_branch
                                 content content_sha label h in
  let ensure := upsert_branch host repo release_tag base_sha h in
  let update := EUpdateFile repo path message (update_content content release_tag) content_sha
                            release_tag in
  let open := ECreatePull repo ("Update " +:+ label +:+ " image tag with " +:+ release_tag)
                          ("### Automated Update " +:+ label +:+ " image tag in `" +:+ path
                           +:+ "` with " +:+ release_tag +:+ ".")
                          release_tag base_branch in
  (∃ e, ensure.2 = Raise e ∧ run = (ensure.1, Raise e)) ∨
  (∃ e, ensure.2 = Ret tt ∧ run = (ensure.1 ++ [update (inl e)], Raise e)) ∨
  (∃ e, ensure.2 = Ret tt ∧ run = (ensure.1 ++ [update (inr tt); open (inl e)], Raise e)) ∨
  (∃ pull, ensure.2 = Ret tt ∧
           run = (ensure.1 ++ [update (inr tt); open (inr pull)],
                  Ret {| pr := pull; pr_url := html_url pull; pr_number := number pull;
                         target_env := None |})).
Proof.
  intros run ensure update open. subst run. rewrite create_pull_request_run. cbv zeta.
  fold ensure.
  assert (ensure.2 ≠ Running) as Hends.
  { subst ensure. rewrite upsert_branch_run. cbv zeta.
    destruct (h_get_branch host h repo release_tag) as [e|b]; [|done].
    destruct (is_GithubException e); [|done]. by destruct (h_create_git_ref host _ _ _ _). }
  destruct (ensure.2) as [[]|e|]; [|left; by exists e|done].
  right. destruct (h_update_file host _ _ _ _ _ _ _) as [e|[]]; [left; by exists e|].
  right. destruct (h_create_pull host _ _ _ _ _ _) as [e|pull]; [left; by exists e|].
  right. by exists pull.
Qed.

(** X10: [handle_pr_creation] reads before it writes.  With a path
    configured for the target environment, a run contains a write (a ref
    creation, a file update, a change request) only if it began by
    reading the base branch and then the file, both with success, and the
    file answer named a file; and when the path lists no entry at all the
    run ends after those two reads with an [IndexError], having written
    nothing. *)
Theorem handle_pr_creation_reads_first (host : Host) (inputs : DeployInputs) (repo : repository)
  (base_branch : string) (skip_merge : bool) (h : history) :
  let path := if skip_merge then prod_env_file_path inputs else pre_prod_env_file_path inputs in
  let run := handle_pr_creation host inputs repo base_branch skip_merge h in
  path ≠ "" →
  (existsb is_write run.1 = true →
   ∃ b c file rest,
     run.1 = EGetBranch repo base_branch (inr b) :: EGetContents repo path base_branch (inr c) :: rest ∧
     first_file c = Some file) ∧
  (∀ b, h_get_branch host h repo base_branch = inr b →
        h_get_contents host (h ++ [EGetBranch repo base_branch (inr b)]) repo path base_branch
        = inr (ContentList []) →
        run = ([EGetBranch repo base_branch (inr b);
                EGetContents repo path base_branch (inr (ContentList []))], Raise IndexError)).
Proof.
  intros path run Hpath. subst run. unfold handle_pr_creation.
  assert (select_environment inputs skip_merge
          = (path, if skip_merge then "PROD" else "PRE-PROD")) as ->
    by (unfold select_environment, path; by destruct skip_merge).
  rewrite decide_False by done. rewrite bind_run, prepare_environment_run. cbv zeta. split.
  - destruct (h_get_branch host h repo base_branch) as [e|b]; [done|].
    destruct (h_get_contents host _ repo path base_branch) as [e|c]; [done|].
    destruct (first_file c) as [file|] eqn:Efile; [|done].
    destruct (valid_utf8 (decoded_content file)); [|done].
    intros _. destruct (bind _ _ _) as [s2 o]. simpl. by exists b, c, file, s2.
  - intros b Hb Hc. by rewrite Hb, Hc.
Qed.

Lemma handle_pr_creation_reads_first_witness :
  ∃ b c file rest,
    (handle_pr_creation host_branch_exists acme_inputs acme "main" false []).1
    = EGetBranch acme "main" (inr b) :: EGetContents acme "env/pre-prod.sh" "main" (inr c) :: rest ∧
    first_file c = Some file.
Proof.
  apply (handle_pr_creation_reads_first host_branch_exists acme_inputs acme "main" false []).
  - discriminate.
  - reflexivity.
Defined.

(** X11: what [handle_pr_creation] writes is what it read, updated.  A
    run that returns read the head of the base branch and the file at the
    selected path, ensured the release branch from that head, wrote to
    that path on the release branch [update_content] of exactly the
    content read, under the content hash read, and opened one change
    request from the release branch into the base branch; the details
    returned are the URL and number of that change request and the label
    of the target environment. *)
Theorem handle_pr_creation_data_flow (host : Host) (inputs : DeployInputs) (repo : repository)
  (base_branch : string) (skip_merge : bool) (h : history) evs (details : pr_details) :
  let path := if skip_merge then prod_env_file_path inputs else pre_prod_env_file_path inputs in
  let label := if skip_merge then "PROD" else "PRE-PROD" in
  let tag := release_tag inputs in
  handle_pr_creation host inputs repo base_branch skip_merge h = (evs, Ret details) →
  ∃ b c file ensure pull,
    first_file c = Some file ∧
    upsert_branch host repo tag (branch_commit_sha b)
                  (h ++ [EGetBranch repo base_branch (inr b);
                         EGetContents repo path base_branch (inr c)]) = (ensure, Ret tt) ∧
    evs = [EGetBranch repo base_branch (inr b); EGetContents repo path base_branch (inr c)]
          ++ ensure
          ++ [EUpdateFile repo path
                ("Update " +:+ label +:+ " (" +:+ path +:+ ") with image tag " +:+ tag)
                (update_content (decoded_content file) tag) (sha file) tag (inr tt);
              ECreatePull repo ("Update " +:+ label +:+ " image tag with " +:+ tag)
                ("### Automated Update " +:+ label +:+ " image tag in `" +:+ path
                 +:+ "` with " +:+ tag +:+ ".")
                tag base_branch (inr pull)] ∧
    details = {| pr := pull; pr_url := html_url pull; pr_number := number pull;
                 target_env := Some label |}.
Proof.
  intros path label tag. unfold handle_pr_creation.
  assert (select_environment inputs skip_merge = (path, label)) as ->
    by (unfold select_environment, path, label; by destruct skip_merge).
  case_decide as Hpath; [done|].
  rewrite bind_run, prepare_environment_run. cbv zeta.
  destruct (h_get_branch host h repo base_branch) as [e|b]; [done|].
  destruct (h_get_contents host _ repo path base_branch) as [e|c]; [done|].
  destruct (first_file c) as [file|] eqn:Efile; [|done].
  destruct (valid_utf8 (decoded_content file)); [|done].
  rewrite bind_run, create_pull_request_run. cbv zeta. fold tag.
  destruct (upsert_branch host repo tag (branch_commit_sha b) _) as [ensure [[]|e|]] eqn:Eensure;
    [|done..].
  simpl. destruct (h_update_file host _ _ _ _ _ _ _) as [e|[]]; [done|].
  destruct (h_create_pull host _ _ _ _ _ _) as [e|pull]; [done|].
  intros [= <- <-]. exists b, c, file, ensure, pull.
  split; [done|]. split; [done|]. split; [|done].
  by rewrite app_nil_r.
Qed.

Lemma handle_pr_creation_data_flow_witness :
  ∃ b c file ensure pull,
    first_file c = Some file ∧
    upsert_branch host_branch_exists acme "1.4.2" (branch_commit_sha b)
                  ([] ++ [EGetBranch acme "main" (inr b);
                          EGetContents acme "env/pre-prod.sh" "main" (inr c)]) = (ensure, Ret tt) ∧
    (handle_pr_creation host_branch_exists acme_inputs acme "main" false []).1
    = [EGetBranch acme "main" (inr b); EGetContents acme "env/pre-prod.sh" "main" (inr c)]
      ++ ensure
      ++ [EUpdateFile acme "env/pre-prod.sh"
            "Update PRE-PROD (env/pre-prod.sh) with image tag 1.4.2"
            (update_content (decoded_content file) "1.4.2") (sha file) "1.4.2" (inr tt);
          ECreatePull acme "Update PRE-PROD image tag with 1.4.2"
            "### Automated Update PRE-PROD image tag in `env/pre-prod.sh` with 1.4.2."
            "1.4.2" "main" (inr pull)] ∧
    (handle_pr_creation host_branch_exists acme_inputs acme "main" false []).2
    = Ret {| pr := pull; pr_url := html_url pull; pr_number := number pull;
             target_env := Some "PRE-PROD" |}.
Proof.
  destruct (handle_pr_creation_data_flow host_branch_exists acme_inputs acme "main" false []
              (handle_pr_creation host_branch_exists acme_inputs acme "main" false []).1
              {| pr := pull7; pr_url := html_url pull7; pr_number := number pull7;
                 target_env := Some "PRE-PROD" |} eq_refl)
    as (b & c & file & ensure & pull & Hfile & Hensure & Hevs & Hdetails).
  exists b, c, file, ensure, pull. split_and!; [done..|].
  by rewrite <- Hdetails.
Defined.

(** ** StatusMirror: where it writes, and when it does not *)

Lemma process_check_run_states (run : check_run) (flag : bool) :
  (process_check_run run flag).1 ∈ ["success"; "failure"; "pending"].
Proof.
  unfold process_check_run.
  destruct (decide (status run = "completed")).
  - destruct (decide (conclusion run ∈ [Some "success"; Some "skipped"; Some "neutral"]));
      [set_solver|].
    destruct (decide (conclusion run ∈ [Some "failure"; Some "timed_out";
                                        Some "action_required"; Some "stale"; Some "cancelled"]));
      [set_solver|].
    destruct (decide (conclusion run = None)); set_solver.
  - destruct (decide (status run ∈ ["in_progress"; "queued"])); set_solver.
Qed.

Lemma status_on_quiet (local_repo : repository) (local_commit_sha pr_url : string) (ev : event) :
  quiet ev → status_on local_repo local_commit_sha pr_url ev.
Proof. by destruct ev. Qed.

Lemma quiet_no_writes (evs : list event) :
  Forall quiet evs → status_writes evs = [] ∧ sleeps evs = [].
Proof.
  induction 1 as [|ev evs Hev _ [IHw IHs]]; [done|].
  destruct ev; try done; by split.
Qed.

Lemma fetch_pr_details_quiet (host : Host) (inputs : DeployInputs) :
  emits quiet (fetch_pr_details host inputs).
Proof.
  apply emits_bind; [by apply emits_perform|]. intros repo.
  apply emits_bind; [by apply emits_perform|]. intros pulls.
  case_decide; [apply emits_raise|]. destruct pulls; [apply emits_raise|apply emits_ret].
Qed.

Lemma mirror_loop_status_on (host : Host) (local_repo remote_repo : repository)
  (local_commit_sha : string) (pr_number : Z) (pr_url release_tag : string)
  (suites : list check_suite) (fuel : nat) :
  emits (status_on local_repo local_commit_sha pr_url)
        (mirror_loop host fuel local_repo remote_repo local_commit_sha pr_number pr_url
                     release_tag suites).
Proof.
  induction fuel as [|fuel IH]; simpl; [apply emits_running|].
  apply emits_bind.
  - apply emits_for_each. intros flag suite.
    apply emits_bind; [by apply emits_perform|]. intros runs.
    apply emits_for_each. intros flag' run. unfold mirror_check_run.
    pose proof (process_check_run_states run flag') as Hstate.
    destruct (process_check_run run flag') as [state flag'']. simpl in Hstate.
    apply emits_bind; [|intros _; apply emits_ret].
    case_decide; [|apply emits_ret]. by apply emits_perform.
  - intros [|]; [apply emits_ret|].
    apply emits_bind; [by apply emits_sleep|]. intros _. apply IH.
Qed.

(** X12: the mirror writes on the tagged commit of the local repository
    and nowhere else.  In every run of
    [sync_local_commit_with_remote_checks], however it ends, each commit
    status written is on the commit the tag [tags/<release_tag>] of the
    local repository resolved to, in the local repository the run looked
    up first; it links the URL given and its state is ["success"],
    ["failure"] or ["pending"]. *)
Theorem sync_writes_on_tagged_commit (host : Host) (fuel : nat) (inputs : DeployInputs)
  (pr_url : string) (h : history) (w : commit_status) :
  let run := sync_local_commit_with_remote_checks host fuel inputs pr_url h in
  w ∈ status_writes run.1 →
  ∃ local_repo local_tag rest,
    run.1 = EGetRepo (token inputs)
                     ("https://github.com/" +:+ local_repo_owner inputs +:+ "/"
                      +:+ local_repo_name inputs) (inr local_repo)
            :: EGetGitRef local_repo ("tags/" +:+ release_tag inputs) (inr local_tag) :: rest ∧
    cs_repo w = local_repo ∧ cs_sha w = object_sha local_tag ∧ cs_target_url w = pr_url ∧
    cs_state w ∈ ["success"; "failure"; "pending"].
Proof.
  intros run. subst run.
  destruct (sync_local_commit_with_remote_checks host fuel inputs pr_url h) as [evs o] eqn:Erun.
  cbn [fst]. revert Erun.
  unfold sync_local_commit_with_remote_checks, get_repo at 1. rewrite bind_perform_run.
  destruct (h_get_repo host h _ _) as [e|local_repo];
    [by intros [= <- <-] ?%elem_of_nil|].
  rewrite bind_run. unfold try_except, get_git_ref. rewrite bind_perform_run.
  destruct (h_get_git_ref host _ local_repo _) as [e|local_tag].
  { destruct (is_GithubException e); by intros [= <- <-] ?%elem_of_nil. }
  cbn [ret fst snd app].
  match goal with
  | |- context [bind ?m ?k ?h'] =>
      assert (emits (status_on local_repo (object_sha local_tag) pr_url) (bind m k)) as Hrest
  end.
  { apply emits_bind; [apply emits_perform; by intros|]. intros remote_repo.
    apply emits_bind.
    { intros h'. eapply Forall_impl; [apply fetch_pr_details_quiet|]. apply status_on_quiet. }
    intros [pr_number remote_sha].
    apply emits_bind; [apply emits_perform; by intros|]. intros [|suite suites];
      [apply emits_ret|]. apply mirror_loop_status_on. }
  match goal with |- context [bind ?m ?k ?h'] => specialize (Hrest h') end.
  destruct (bind _ _ _) as [rest o']. simpl in Hrest.
  intros [= <- <-] Hw. exists local_repo, local_tag, rest. split; [done|].
  change (w ∈ status_writes rest) in Hw.
  induction Hrest as [|ev rest Hev _ IH]; [by apply elem_of_nil in Hw|].
  destruct ev; try (by apply IH).
  change (status_writes (ECreateStatus repo sha0 state target_url description context r :: rest))
    with ({| cs_repo := repo; cs_sha := sha0; cs_state := state; cs_target_url := target_url;
             cs_description := description; cs_context := context |} :: status_writes rest) in Hw.
  apply elem_of_cons in Hw as [->|Hw]; [|by apply IH].
  simpl in *. naive_solver.
Qed.

Lemma sync_writes_on_tagged_commit_witness :
  let w := mirrored_status {| repo_url := "https://github.com/acme/app" |} "7a9" 7
             "https://github.com/acme/deploy/pull/7" "1.4.2"
             (run "build" "completed" (Some "success")) in
  ∃ local_repo local_tag rest,
    (sync_local_commit_with_remote_checks host_mirror 2 acme_inputs
       "https://github.com/acme/deploy/pull/7" []).1
    = EGetRepo "t0k" "https://github.com/acme/app" (inr local_repo)
      :: EGetGitRef local_repo "tags/1.4.2" (inr local_tag) :: rest ∧
    cs_repo w = local_repo ∧ cs_sha w = object_sha local_tag ∧
    cs_target_url w = "https://github.com/acme/deploy/pull/7" ∧
    cs_state w ∈ ["success"; "failure"; "pending"].
Proof.
  intros w.
  apply (sync_writes_on_tagged_commit host_mirror 2 acme_inputs
           "https://github.com/acme/deploy/pull/7" [] w).
  vm_compute. apply list_elem_of_here.
Defined.

(** X13: when the mirror does nothing.  If the lookup of the tag
    [tags/<release_tag>] in the local repository fails with a
    [GithubException], of whatever status,
    [sync_local_commit_with_remote_checks] returns after that lookup: it
    asks nothing about the change request, writes no status and raises
    nothing; a failure of any other class propagates.  And if the commit
    of the change request has no check suite, it returns after that
    listing, without polling, writing or sleeping. *)
Theorem sync_returns_without_mirroring (host : Host) (fuel : nat) (inputs : DeployInputs)
  (pr_url : string) (h : history) (local_repo : repository) :
  let local_url := "https://github.com/" +:+ local_repo_owner inputs +:+ "/"
                   +:+ local_repo_name inputs in
  let remote_url := "https://github.com/" +:+ repo_owner inputs +:+ "/" +:+ repo_name inputs in
  let looked_up := EGetRepo (token inputs) local_url (inr local_repo) in
  let tag_ref := "tags/" +:+ release_tag inputs in
  let run := sync_local_commit_with_remote_checks host fuel inputs pr_url h in
  h_get_repo host h (token inputs) local_url = inr local_repo →
  (∀ e, h_get_git_ref host (h ++ [looked_up]) local_repo tag_ref = inl e →
        run = ([looked_up; EGetGitRef local_repo tag_ref (inl e)],
               if is_GithubException e then Ret tt else Raise e)) ∧
  (∀ local_tag remote_repo details pr_number pr_sha,
     h_get_git_ref host (h ++ [looked_up]) local_repo tag_ref = inr local_tag →
     let found := EGetGitRef local_repo tag_ref (inr local_tag) in
     h_get_repo host (h ++ [looked_up; found]) (token inputs) remote_url = inr remote_repo →
     let remote := EGetRepo (token inputs) remote_url (inr remote_repo) in
     fetch_pr_details host inputs (h ++ [looked_up; found; remote])
     = (details, Ret (pr_number, pr_sha)) →
     h_get_check_suites host (h ++ [looked_up; found; remote] ++ details) remote_repo pr_sha
     = inr [] →
     run = ([looked_up; found; remote] ++ details
            ++ [EGetCheckSuites remote_repo pr_sha (inr [])], Ret tt)).
Proof.
  intros local_url remote_url looked_up tag_ref run Hlocal. subst run.
  split.
  - intros e He.
    unfold sync_local_commit_with_remote_checks, get_repo at 1. rewrite bind_perform_run.
    fold local_url. rewrite Hlocal. fold looked_up.
    rewrite bind_run. unfold try_except, get_git_ref. rewrite bind_perform_run. fold tag_ref.
    rewrite He. by destruct (is_GithubException e).
  - intros local_tag remote_repo details pr_number pr_sha Htag found Hremote remote Hpr Hsuites.
    unfold sync_local_commit_with_remote_checks, get_repo at 1. rewrite bind_perform_run.
    fold local_url. rewrite Hlocal. fold looked_up.
    rewrite bind_run. unfold try_except, get_git_ref. rewrite bind_perform_run. fold tag_ref.
    rewrite Htag.
    cbn [ret fst snd app]. unfold get_repo. rewrite bind_perform_run. fold remote_url.
    replace ((h ++ [looked_up]) ++ [EGetGitRef local_repo tag_ref (inr local_tag)])
      with (h ++ [looked_up; found]) by (by rewrite <- app_assoc).
    rewrite Hremote. fold remote. rewrite bind_run.
    replace ((h ++ [looked_up; found]) ++ [remote]) with (h ++ [looked_up; found; remote])
      by (by rewrite <- app_assoc).
    rewrite Hpr. unfold get_check_suite_status. rewrite bind_perform_run.
    replace ((h ++ [looked_up; found; remote]) ++ details)
      with (h ++ [looked_up; found; remote] ++ details) by (by rewrite app_assoc).
    rewrite Hsuites. cbn [ret fst snd app]. by rewrite ?app_nil_r.
Qed.

Lemma sync_returns_without_mirroring_witness :
  sync_local_commit_with_remote_checks host_branch_exists 0 acme_inputs
    "https://github.com/acme/deploy/pull/7" []
  = ([EGetRepo "t0k" "https://github.com/acme/app"
               (inr {| repo_url := "https://github.com/acme/app" |});
      EGetGitRef {| repo_url := "https://github.com/acme/app" |} "tags/1.4.2"
                 (inr {| object_sha := "7a9" |});
      EGetRepo "t0k" "https://github.com/acme/deploy" (inr acme)]
     ++ [EGetRepo "t0k" "https://github.com/acme/deploy" (inr acme);
         EGetPulls acme "acme:1.4.2" "main" "open" (inr [pull7])]
     ++ [EGetCheckSuites acme "c0ffee" (inr [])], Ret tt).
Proof.
  refine (proj2 (sync_returns_without_mirroring host_branch_exists 0 acme_inputs
                   "https://github.com/acme/deploy/pull/7" []
                   {| repo_url := "https://github.com/acme/app" |} eq_refl)
                {| object_sha := "7a9" |} acme
                [EGetRepo "t0k" "https://github.com/acme/deploy" (inr acme);
                 EGetPulls acme "acme:1.4.2" "main" "open" (inr [pull7])]
                7 "c0ffee" _ _ _ _);
    reflexivity.
Defined.

(** ** The release pipeline: runs *)

Lemma pbind_run {A B} (m : P A) (k : A → P B) (l : log) :
  pbind m k l =
  match m l with
  | (s1, Ret a) => (s1 ++ (k a (l ++ s1)).1, (k a (l ++ s1)).2)
  | (s1, Raise e) => (s1, Raise e)
  | (s1, Running) => (s1, Running)
  end.
Proof. unfold pbind. destruct (m l) as [s1 [a|e|]]; [|done..]. by destruct (k a (l ++ s1)). Qed.

Lemma lift_run {A} (platform : Platform) (m : Host → M A) (l : log) :
  lift platform m l =
  (map Core (m (core_host platform l) (core_events l)).1,
   (m (core_host platform l) (core_events l)).2).
Proof. unfold lift. by destruct (m _ _). Qed.

Lemma lift_sleep_run (platform : Platform) (seconds : Z) (l : log) :
  0 ≤ seconds ≤ 9223372036 → lift platform (λ _, sleep seconds) l = ([Core (ESleep seconds)], Ret tt).
Proof. intros Hs. by rewrite lift_run, sleep_run. Qed.

Lemma pemits_ret {A} (Q : step → Prop) (a : A) : pemits Q (pret a).
Proof. intros l. constructor. Qed.

Lemma pemits_raise {A} (Q : step → Prop) (e : exn) : pemits Q (praise e : P A).
Proof. intros l. constructor. Qed.

Lemma pemits_bind {A B} (Q : step → Prop) (m : P A) (k : A → P B) :
  pemits Q m → (∀ a, pemits Q (k a)) → pemits Q (pbind m k).
Proof.
  intros Hm Hk l. rewrite pbind_run. specialize (Hm l).
  destruct (m l) as [s1 [a|e|]]; simpl in *; [|done..].
  apply Forall_app. split; [done|apply Hk].
Qed.

Lemma pemits_lift {A} (Q : step → Prop) (Q' : event → Prop) (platform : Platform)
  (m : Host → M A) :
  (∀ ev, Q' ev → Q (Core ev)) → (∀ host, emits Q' (m host)) → pemits Q (lift platform m).
Proof.
  intros HQ Hm l. rewrite lift_run. simpl. apply Forall_map.
  eapply Forall_impl; [apply Hm|]. exact HQ.
Qed.

(** ** No function before the release asks the health endpoint *)

Lemma get_content_no_probe (host : Host) (repo : repository) (path ref : string) :
  emits not_probe (get_content host repo path ref).
Proof.
  apply emits_bind; [by apply emits_perform|].
  assert (∀ bytes, emits not_probe (decode_utf8 bytes)) as Hdecode.
  { intros bytes. unfold decode_utf8. destruct (valid_utf8 bytes); [apply emits_ret|apply emits_raise]. }
  intros [[|c l]|c]; [apply emits_raise|..]; cbv zeta;
    (apply emits_bind; [apply Hdecode|intros content; apply emits_ret]).
Qed.

Lemma upsert_branch_no_probe (host : Host) (repo : repository) (new_branch base_sha : string) :
  emits not_probe (upsert_branch host repo new_branch base_sha).
Proof.
  apply emits_try_except.
  - apply emits_bind; [by apply emits_perform|]. intros _. apply emits_ret.
  - intros e k. destruct (is_GithubException e); [|done]. intros [= <-]. by apply emits_perform.
Qed.

Lemma handle_pr_creation_no_probe (host : Host) (inputs : DeployInputs) (repo : repository)
  (base_branch : string) (skip_merge : bool) :
  emits not_probe (handle_pr_creation host inputs repo base_branch skip_merge).
Proof.
  unfold handle_pr_creation. destruct (select_environment inputs skip_merge) as [path target].
  case_decide; [apply emits_raise|].
  apply emits_bind.
  - apply emits_bind; [by apply emits_perform|]. intros base.
    apply emits_bind; [apply get_content_no_probe|]. intros [content content_sha].
    apply emits_ret.
  - intros [[base_sha content] content_sha].
    apply emits_bind; [|intros details; apply emits_ret].
    apply emits_bind; [apply upsert_branch_no_probe|]. intros _.
    apply emits_bind; [by apply emits_perform|]. intros _.
    apply emits_bind; [by apply emits_perform|]. intros pull. apply emits_ret.
Qed.

Lemma fetch_pr_details_no_probe (host : Host) (inputs : DeployInputs) :
  emits not_probe (fetch_pr_details host inputs).
Proof.
  apply emits_bind; [by apply emits_perform|]. intros repo.
  apply emits_bind; [by apply emits_perform|]. intros pulls.
  case_decide; [apply emits_raise|]. destruct pulls; [apply emits_raise|apply emits_ret].
Qed.

Lemma mirror_loop_no_probe (host : Host) (local_repo remote_repo : repository)
  (local_commit_sha : string) (pr_number : Z) (pr_url release_tag : string)
  (suites : list check_suite) (fuel : nat) :
  emits not_probe
        (mirror_loop host fuel local_repo remote_repo local_commit_sha pr_number pr_url
                     release_tag suites).
Proof.
  induction fuel as [|fuel IH]; simpl; [apply emits_running|].
  apply emits_bind.
  - apply emits_for_each. intros flag suite.
    apply emits_bind; [by apply emits_perform|]. intros runs.
    apply emits_for_each. intros flag' run. unfold mirror_check_run.
    destruct (process_check_run run flag') as [state flag''].
    apply emits_bind; [|intros _; apply emits_ret].
    case_decide; [|apply emits_ret]. by apply emits_perform.
  - intros [|]; [apply emits_ret|].
    apply emits_bind; [by apply emits_sleep|]. intros _. apply IH.
Qed.

Lemma sync_no_probe (host : Host) (fuel : nat) (inputs : DeployInputs) (pr_url : string) :
  emits not_probe (sync_local_commit_with_remote_checks host fuel inputs pr_url).
Proof.
  apply emits_bind; [by apply emits_perform|]. intros local_repo.
  apply emits_bind.
  - apply emits_try_except.
    + apply emits_bind; [by apply emits_perform|]. intros tag. apply emits_ret.
    + intros e k. destruct (is_GithubException e); [|done]. intros [= <-]. apply emits_ret.
  - intros [sha|]; [|apply emits_ret].
    apply emits_bind; [by apply emits_perform|]. intros remote_repo.
    apply emits_bind; [apply fetch_pr_details_no_probe|]. intros [pr_number remote_sha].
    apply emits_bind; [by apply emits_perform|]. intros [|suite suites]; [apply emits_ret|].
    apply mirror_loop_no_probe.
Qed.

Lemma monitor_checks_no_probe (host : Host) (fuel : nat) (repo : repository) (pr_sha : string) :
  emits not_probe (monitor_checks host fuel repo pr_sha).
Proof.
  assert (∀ ev, check_read repo pr_sha ev → not_probe ev) as Hread by (by intros []).
  apply emits_bind.
  { intros h. eapply Forall_impl; [apply capture_baseline_reads|done]. }
  intros B. apply emits_bind.
  { intros h. eapply Forall_impl; [apply poll_loop_reads|done]. }
  intros f. case_decide; apply emits_ret.
Qed.

Lemma open_and_check_before_release (platform : Platform) (fuel : nat) (inputs : DeployInputs)
  (skip_merge : bool) :
  pemits before_release (open_and_check platform fuel inputs skip_merge).
Proof.
  assert (∀ ev, not_probe ev → before_release (Core ev)) as Hcore by done.
  apply pemits_bind.
  { apply (pemits_lift _ not_probe); [done|]. intros host. by apply emits_perform. }
  intros repo. apply pemits_bind.
  { apply (pemits_lift _ not_probe); [done|]. intros host. apply handle_pr_creation_no_probe. }
  intros details. apply pemits_bind.
  { apply (pemits_lift _ not_probe); [done|]. intros host. apply fetch_pr_details_no_probe. }
  intros [pr_number pr_sha]. apply pemits_bind.
  { apply (pemits_lift _ not_probe); [done|]. intros host. by apply emits_sleep. }
  intros _. apply pemits_bind.
  { apply (pemits_lift _ not_probe); [done|]. intros host. apply sync_no_probe. }
  intros _. apply pemits_bind.
  { apply (pemits_lift _ not_probe); [done|]. intros host. apply monitor_checks_no_probe. }
  intros verdict. apply pemits_ret.
Qed.

Lemma main_run (platform : Platform) (fuel : nat) (inputs : DeployInputs) (skip_merge : bool)
  (l : log) :
  main platform fuel inputs skip_merge l =
  match open_and_check platform fuel inputs skip_merge l with
  | (checked, Ret (repo, n, verdict)) =>
      if skip_merge then (checked, Ret tt)
      else if verdict then
        (checked ++ (approve_merge_verify platform inputs repo n (l ++ checked)).1,
         (approve_merge_verify platform inputs repo n (l ++ checked)).2)
      else (checked, Raise (RuntimeError "Deployment failed due to failed checks."))
  | (checked, Raise e) => (checked, Raise e)
  | (checked, Running) => (checked, Running)
  end.
Proof.
  unfold main. rewrite pbind_run.
  destruct (open_and_check platform fuel inputs skip_merge l) as [checked [[[repo n] verdict]|e|]];
    [|done..].
  destruct skip_merge; [by rewrite app_nil_r|]. destruct verdict; [done|]. by rewrite app_nil_r.
Qed.

Lemma approve_pull_request_run (platform : Platform) (bot_token repo_owner repo_name : string)
  (pr_number : Z) (l : log) :
  approve_pull_request platform bot_token repo_owner repo_name pr_number l =
  let url := "https://github.com/" +:+ repo_owner +:+ "/" +:+ repo_name in
  match h_get_repo (core_host platform l) (core_events l) bot_token url with
  | inl e => ([Core (EGetRepo bot_token url (inl e))], Raise e)
  | inr repo =>
      let looked_up := Core (EGetRepo bot_token url (inr repo)) in
      let r := p_create_review platform (l ++ [looked_up]) repo pr_number "APPROVE" in
      ([looked_up; Review (ECreateReview repo pr_number "APPROVE" r)], of_result r)
  end.
Proof.
  unfold approve_pull_request. rewrite pbind_run, lift_run. unfold get_repo. rewrite perform_run.
  simpl. by destruct (h_get_repo _ _ _ _).
Qed.

Lemma is_pr_approved_run (platform : Platform) (repo : repository) (pr_number : Z) (l : log) :
  is_pr_approved platform repo pr_number l =
  let r := p_get_reviews platform l repo pr_number in
  ([Review (EGetReviews repo pr_number r)],
   match r with
   | inl e => Raise e
   | inr reviews => Ret (existsb (λ review, bool_decide (review_state review = "APPROVED")) reviews)
   end).
Proof.
  unfold is_pr_approved. rewrite pbind_run. unfold get_reviews, pperform. simpl.
  by destruct (p_get_reviews _ _ _ _).
Qed.

Lemma pr_merge_run (platform : Platform) (token repo_owner repo_name : string) (pr_number : Z)
  (commit_title commit_message merge_method : string) (l : log) :
  pr_merge platform token repo_owner repo_name pr_number commit_title commit_message merge_method l =
  let url := "https://github.com/" +:+ repo_owner +:+ "/" +:+ repo_name in
  match h_get_repo (core_host platform l) (core_events l) token url with
  | inl e => ([Core (EGetRepo token url (inl e))], Raise e)
  | inr repo =>
      let looked_up := Core (EGetRepo token url (inr repo)) in
      let r := p_merge platform (l ++ [looked_up]) repo pr_number commit_title commit_message
                       merge_method in
      ([looked_up; Review (EMerge repo pr_number commit_title commit_message merge_method r)],
       match r with
       | inl e => Raise e
       | inr status =>
           if merged status then Ret tt
           else Raise (RuntimeError ("Failed to merge PR #" +:+ pretty pr_number +:+ ": "
                                     +:+ message status))
       end)
  end.
Proof.
  unfold pr_merge. rewrite pbind_run, lift_run. unfold get_repo. rewrite perform_run.
  simpl. destruct (h_get_repo _ _ _ _) as [e|repo]; simpl; [done|].
  rewrite pbind_run. unfold merge, pperform. simpl.
  destruct (p_merge _ _ _ _ _ _ _) as [e|status]; simpl; [done|].
  by destruct (merged status).
Qed.

Lemma existsb_approved (reviews : list review) :
  existsb (λ review, bool_decide (review_state review = "APPROVED")) reviews = true
  ↔ approved_among reviews.
Proof.
  rewrite existsb_exists. unfold approved_among. split.
  - intros (review & Hin & Hst). exists review. split; [by apply list_elem_of_In|].
    by apply bool_decide_eq_true in Hst.
  - intros (review & Hin & Hst). exists review. split; [by apply list_elem_of_In|].
    by apply bool_decide_eq_true.
Qed.

(** ** The order of the release *)

Lemma step_allowed_mono (pre pre' : list step) (s : step) :
  (∀ x, x ∈ pre → x ∈ pre') → step_allowed pre s → step_allowed pre' s.
Proof.
  intros Hsub. destruct s as [ev|ev]; destruct ev; simpl; try done; naive_solver.
Qed.

Lemma in_order_nil (seen : list step) : in_order seen [].
Proof. intros [|? ?] ? ? [=]. Qed.

Lemma in_order_cons (seen : list step) (x : step) (xs : list step) :
  step_allowed seen x → in_order (seen ++ [x]) xs → in_order seen (x :: xs).
Proof.
  intros Hx Hxs [|y pre] s post [= -> Hsplit].
  - by rewrite app_nil_r.
  - specialize (Hxs pre s post Hsplit). by rewrite <- app_assoc in Hxs.
Qed.

Lemma in_order_app (seen xs ys : list step) :
  in_order seen xs → in_order (seen ++ xs) ys → in_order seen (xs ++ ys).
Proof.
  intros Hxs Hys pre s post Hsplit.
  apply app_eq_app in Hsplit as [mid [[Hxs' Hmid]|[-> ->]]].
  - destruct mid as [|x mid].
    + rewrite app_nil_r in Hxs'. subst xs. simpl in Hmid.
      specialize (Hys [] s post (eq_sym Hmid)). by rewrite app_nil_r in Hys.
    + injection Hmid as -> ->. by apply (Hxs pre x mid).
  - rewrite app_assoc. by apply (Hys mid s post).
Qed.

Lemma in_order_before_release (seen steps : list step) :
  Forall before_release steps → in_order seen steps.
Proof.
  intros Hsteps pre s post ->. apply Forall_app in Hsteps as [_ Hs].
  apply Forall_cons in Hs as [Hs _]. destruct s as [ev|ev]; [by destruct ev|done].
Qed.

Lemma in_order_probes (seen : list step) (probes : list event) (timeout wait_time : Z) :
  Forall (health_probe api_url timeout wait_time) probes →
  (∃ repo n title body status,
     Review (EMerge repo n title body "squash" (inr status)) ∈ seen ∧ merged status = true) →
  in_order seen (map Core probes).
Proof.
  intros Hprobes (repo & n & title & body & status & Hin & Hmerged) pre s post Hsplit.
  assert (s ∈ map Core probes) as Hs by (rewrite Hsplit; set_solver).
  apply list_elem_of_fmap in Hs as (ev & -> & Hev).
  rewrite Forall_forall in Hprobes. specialize (Hprobes ev Hev).
  destruct ev; try done. destruct Hprobes as [-> ->]. split; [done|].
  exists repo, n, title, body, status. split; [set_solver|done].
Qed.

(** The runs of [approve_merge_verify], one goal for each way it can end:
    the lookup for the approval fails, the approval fails, the listing
    fails, the lookup for the merge fails, the merge fails, the endpoint is
    verified, is not verified, the verification raises or is left waiting,
    the merge is refused, no review approves. *)
Ltac release_cases :=
  unfold approve_merge_verify;
  rewrite pbind_run, approve_pull_request_run; cbv zeta;
  destruct (h_get_repo _ _ _ _) as [e|bot_repo]; cbn [fst snd];
  [|destruct (p_create_review _ _ _ _ _) as [e|[]]; cbn [of_result fst snd];
    [|rewrite pbind_run, lift_sleep_run by lia; cbn [fst snd];
      rewrite pbind_run, is_pr_approved_run; cbv zeta;
      destruct (p_get_reviews _ _ _ _) as [e|reviews]; cbn [fst snd];
      [|destruct (existsb _ reviews) eqn:Happroved; cbn [fst snd praise];
        [rewrite pbind_run, pr_merge_run; cbv zeta;
         destruct (h_get_repo _ _ _ _) as [e|user_repo]; cbn [fst snd];
         [|destruct (p_merge _ _ _ _ _ _ _) as [e|status]; cbn [fst snd];
           [|destruct (merged status) eqn:Hmerged; cbn [fst snd];
             [rewrite pbind_run, lift_sleep_run by lia; cbn [fst snd];
              rewrite pbind_run, lift_run;
              destruct (verify_deployment _ _ _ _ _ _) as [probes [[|]|e|]] eqn:Hprobes;
              cbn [fst snd pret praise]
             |]]]
        |]]]];
  cbn [app]; rewrite ?app_nil_r.

(** A step is allowed by a step found among those seen. *)
Ltac find_step := rewrite !elem_of_app, !list_elem_of_singleton; eauto 10.

Ltac solve_step :=
  lazymatch goal with
  | |- step_allowed _ (Review (EGetReviews _ _ _)) => eexists; find_step
  | |- step_allowed _ (Review (EMerge _ _ _ _ _ _)) =>
      split; [done|]; eexists _, _; split; [find_step|by apply existsb_approved]
  | |- step_allowed _ _ => done
  end.

Lemma verify_deployment_probes (host : Host) (h : history) (probes : list event)
  (o : outcome bool) :
  verify_deployment host api_url 10 30 10 h = (probes, o) →
  Forall (health_probe api_url 10 30) probes.
Proof.
  intros Hrun. pose proof (verify_loop_probes host api_url 10 30 10 (py_range 10) h) as Hp.
  unfold verify_deployment in Hrun. by rewrite Hrun in Hp.
Qed.

Lemma approve_merge_verify_in_order (platform : Platform) (inputs : DeployInputs)
  (repo : repository) (n : Z) (l seen : list step) :
  in_order seen (approve_merge_verify platform inputs repo n l).1.
Proof.
  release_cases;
    do 7 (try (apply in_order_cons; [solve_step|])); try apply in_order_nil.
  all: eapply in_order_probes; [by eapply verify_deployment_probes|];
    eexists _, _, _, _, _; split; [find_step|done].
Qed.

Lemma merges_cons_core (ev : event) (steps : list step) : merges (Core ev :: steps) = merges steps.
Proof. reflexivity. Qed.

(** X14: [pr_merge] returns only on a merge the platform reports as done.
    It asks for the merge at most once.  It returns exactly when that one
    call was answered with [merged] set; an answer with [merged] unset
    becomes a [RuntimeError] that carries the number of the change request
    and the platform's message; an exception of the call propagates; a
    failed lookup of the repository ends the run before any merge call.
    It is never left waiting. *)
Theorem pr_merge_outcome (platform : Platform) (token repo_owner repo_name : string)
  (pr_number : Z) (commit_title commit_message merge_method : string) (l : log) :
  let run := pr_merge platform token repo_owner repo_name pr_number commit_title commit_message
                      merge_method l in
  (length (merges run.1) ≤ 1)%nat ∧
  (run.2 = Ret tt ↔ ∃ status, merges run.1 = [inr status] ∧ merged status = true) ∧
  (∀ status, merges run.1 = [inr status] → merged status = false →
     run.2 = Raise (RuntimeError ("Failed to merge PR #" +:+ pretty pr_number +:+ ": "
                                  +:+ message status))) ∧
  (∀ e, merges run.1 = [inl e] → run.2 = Raise e) ∧
  (merges run.1 = [] → ∃ e, run.2 = Raise e ∧ run.1 = [Core (EGetRepo token
     ("https://github.com/" +:+ repo_owner +:+ "/" +:+ repo_name) (inl e))]) ∧
  run.2 ≠ Running.
Proof.
  intros run. subst run. rewrite pr_merge_run. cbv zeta.
  destruct (h_get_repo _ _ _ _) as [e|repo]; cbn [fst snd].
  { split_and!; [simpl; lia| |done|done|by exists e|done].
    split; [done|]. by intros (status & [=] & _). }
  rewrite merges_cons_core. cbn [merges flat_map app].
  destruct (p_merge _ _ _ _ _ _ _) as [e|status].
  { split_and!; [simpl; lia| |done| |done|done].
    - split; [done|]. by intros (status & [=] & _).
    - by intros e' [= ->]. }
  destruct (merged status) eqn:Hmerged.
  - split_and!; [simpl; lia| | | |done|done].
    + split; [|done]. intros _. by exists status.
    + intros status' [= <-]. congruence.
    + by intros e [=].
  - split_and!; [simpl; lia| | | |done|done].
    + split; [done|]. intros (status' & [= <-] & Hm). congruence.
    + by intros status' [= <-] _.
    + by intros e [=].
Qed.

(** X15: with [skip_merge], [main] stops after the checks.  Whatever the
    platform answers, no step of the run is an approval, a listing of
    reviews, a merge or a request to the health endpoint; the run is the
    run of the first half of [main], and the verdict of [monitor_checks]
    is ignored: failed checks raise nothing. *)
Theorem main_skip_merge (platform : Platform) (fuel : nat) (inputs : DeployInputs) (l : log) :
  let run := main platform fuel inputs true l in
  let checked := open_and_check platform fuel inputs true l in
  Forall before_release run.1 ∧
  run.1 = checked.1 ∧
  run.2 = match checked.2 with
          | Ret _ => Ret tt
          | Raise e => Raise e
          | Running => Running
          end.
Proof.
  intros run checked. subst run checked. rewrite main_run.
  pose proof (open_and_check_before_release platform fuel inputs true l) as Hchecked.
  by destruct (open_and_check platform fuel inputs true l) as [checked [[[repo n] verdict]|e|]].
Qed.

(** X16: the order of the release.  In every run of [main], whatever
    the platform answers and however the run ends, each step has what it
    requires before it in the same run: a review sent is an approval; the
    reviews of a change request are listed only after an approval of it
    was accepted; a merge is a squash of a change request whose listed
    reviews hold an approval; and the health endpoint is asked, at the
    fixed URL, only after a merge was answered as done. *)
Theorem main_release_order (platform : Platform) (fuel : nat) (inputs : DeployInputs)
  (skip_merge : bool) (l : log) (pre : list step) (s : step) (post : list step) :
  (main platform fuel inputs skip_merge l).1 = pre ++ s :: post →
  step_allowed pre s.
Proof.
  revert pre s post. change (in_order [] (main platform fuel inputs skip_merge l).1).
  rewrite main_run.
  pose proof (open_and_check_before_release platform fuel inputs skip_merge l) as Hchecked.
  destruct (open_and_check platform fuel inputs skip_merge l)
    as [checked [[[repo n] verdict]|e|]]; cbn [fst] in *;
    try (by apply in_order_before_release).
  destruct skip_merge; [by apply in_order_before_release|].
  destruct verdict; [|by apply in_order_before_release]. cbn [fst].
  apply in_order_app; [by apply in_order_before_release|]. apply approve_merge_verify_in_order.
Qed.

Lemma main_release_order_witness :
  let steps := (main platform_release 1 acme_inputs false []).1 in
  step_allowed (take 22 steps)
       (Review (EMerge acme 7 "Merging Passing PR"
                       "Merging PR automatically as all checks have passed" "squash"
                       (inr {| merged := true; message := "Pull Request successfully merged" |}))).
Proof.
  intros steps.
  apply (main_release_order platform_release 1 acme_inputs false [] (take 22 steps) _
           (drop 23 steps)).
  vm_compute. reflexivity.
Defined.

(** ** A failed review or merge call is final *)

Lemma fails_at_once_nil {A} (o : outcome A) : fails_at_once [] o.
Proof. by intros [|? ?] ? ? ? [=]. Qed.

Lemma fails_at_once_core {A} (ev : event) (steps : list step) (o : outcome A) :
  fails_at_once steps o → fails_at_once (Core ev :: steps) o.
Proof.
  intros Hsteps [|s pre] ev' post e Hsplit Hfail; [done|].
  injection Hsplit as _ Hsplit. by eapply Hsteps.
Qed.

Lemma fails_at_once_answered {A} (ev : review_event) (steps : list step) (o : outcome A) :
  review_failure ev = None → fails_at_once steps o → fails_at_once (Review ev :: steps) o.
Proof.
  intros Hev Hsteps [|s pre] ev' post e Hsplit Hfail.
  - injection Hsplit as ->. congruence.
  - injection Hsplit as _ Hsplit. by eapply Hsteps.
Qed.

Lemma fails_at_once_last {A} (ev : review_event) (e : exn) :
  review_failure ev = Some e → fails_at_once [Review ev] (Raise e : outcome A).
Proof.
  intros Hev [|s pre] ev' post e' Hsplit Hfail.
  - injection Hsplit as -> <-. split; [done|]. congruence.
  - injection Hsplit as _ Hsplit. by destruct pre.
Qed.

Lemma fails_at_once_cores {A} (evs : list event) (o : outcome A) :
  fails_at_once (map Core evs) o.
Proof.
  intros pre ev post e Hsplit _.
  assert (Review ev ∈ map Core evs) as Hin by (rewrite Hsplit; set_solver).
  by apply list_elem_of_fmap in Hin as (? & [=] & _).
Qed.

Lemma fails_at_once_before_release {A} (steps : list step) (o : outcome A) :
  Forall before_release steps → fails_at_once steps o.
Proof.
  intros Hsteps pre ev post e -> _. apply Forall_app in Hsteps as [_ Hs].
  by apply Forall_cons in Hs as [Hs _].
Qed.

Lemma fails_at_once_app {A} (xs ys : list step) (o : outcome A) :
  Forall before_release xs → fails_at_once ys o → fails_at_once (xs ++ ys) o.
Proof.
  intros Hxs Hys. induction Hxs as [|x xs Hx _ IH]; [done|].
  destruct x as [ev|ev]; [|done]. by apply fails_at_once_core.
Qed.

Lemma approve_merge_verify_fails_at_once (platform : Platform) (inputs : DeployInputs)
  (repo : repository) (n : Z) (l : log) :
  fails_at_once (approve_merge_verify platform inputs repo n l).1
                (approve_merge_verify platform inputs repo n l).2.
Proof.
  release_cases;
    repeat first
      [ apply fails_at_once_nil
      | apply fails_at_once_cores
      | apply fails_at_once_core
      | by apply fails_at_once_last
      | apply fails_at_once_answered; [done|] ].
Qed.

(** X17: a failed approval, listing of reviews or merge is final.  In
    every run of [main], if a review or merge call is answered with an
    exception, that call is the last step of the run and [main] raises that
    exception: it neither retries the call nor goes on to the next stage. *)
Theorem main_review_failure_final (platform : Platform) (fuel : nat) (inputs : DeployInputs)
  (skip_merge : bool) (l : log) (pre : list step) (ev : review_event) (post : list step)
  (e : exn) :
  let run := main platform fuel inputs skip_merge l in
  run.1 = pre ++ Review ev :: post →
  review_failure ev = Some e →
  post = [] ∧ run.2 = Raise e.
Proof.
  intros run. subst run.
  assert (fails_at_once (main platform fuel inputs skip_merge l).1
                        (main platform fuel inputs skip_merge l).2) as Hmain;
    [|by apply Hmain].
  rewrite main_run.
  pose proof (open_and_check_before_release platform fuel inputs skip_merge l) as Hchecked.
  destruct (open_and_check platform fuel inputs skip_merge l)
    as [checked [[[repo n] verdict]|e'|]]; cbn [fst snd] in *;
    try (by apply fails_at_once_before_release).
  destruct skip_merge; [by apply fails_at_once_before_release|].
  destruct verdict; [|by apply fails_at_once_before_release]. cbn [fst snd].
  apply fails_at_once_app; [done|]. apply approve_merge_verify_fails_at_once.
Qed.

Lemma main_review_failure_final_witness :
  let run := main platform_merge_error 1 acme_inputs false [] in
  drop 23 run.1 = [] ∧ run.2 = Raise (GithubException 405).
Proof.
  intros run.
  apply (main_review_failure_final platform_merge_error 1 acme_inputs false [] (take 22 run.1)
           (EMerge acme 7 "Merging Passing PR"
                   "Merging PR automatically as all checks have passed" "squash"
                   (inl (GithubException 405)))
           (drop 23 run.1) (GithubException 405)); vm_compute; reflexivity.
Defined.

(** ** The run of a release that went through *)

Lemma verify_loop_Ret_true (host : Host) (url : string) (max_attempts wait_time timeout : Z)
  (attempts : list Z) :
  ∀ h evs,
    verify_loop host url max_attempts wait_time timeout attempts h = (evs, Ret true) →
    ∃ probes response,
      evs = probes ++ [EHttpGet url timeout (inr response)] ∧ status_code response = 200 ∧
      Forall failed_attempt (http_attempts probes).
Proof.
  induction attempts as [|attempt rest IH]; intros h evs; [done|].
  simpl verify_loop. rewrite bind_run, verify_attempt_run. cbv zeta.
  set (r := h_http_get host h url timeout).
  destruct (match r with inl _ => _ | inr _ => _ end) as [[|]|e'|] eqn:Eout; [| |done..].
  - intros [= <-]. destruct r as [e|response]; [by destruct e|].
    case_decide; [|done]. exists [], response. by split_and!.
  - rewrite bind_run.
    destruct (pause_run wait_time (decide (attempt < max_attempts - 1))
                        (h ++ [EHttpGet url timeout r])) as (s & o & -> & Hh & _ & _ & _).
    destruct o as [[]|e'|]; [|done..].
    destruct (verify_loop _ _ _ _ _ _ _) as [s2 o2] eqn:Erest. cbn [fst snd].
    intros [= <- ->]. apply IH in Erest as (probes & response & -> & Hok & Hfailed).
    exists (EHttpGet url timeout r :: s ++ probes), response.
    split; [simpl; by rewrite <- app_assoc|]. split; [done|].
    rewrite http_attempts_get, http_attempts_app, Hh. apply Forall_cons. split; [|done].
    destruct r as [e|response']; simpl.
    + by destruct e.
    + by case_decide.
Qed.

Lemma approve_merge_verify_Ret (platform : Platform) (inputs : DeployInputs)
  (repo : repository) (n : Z) (l : log) :
  let url := "https://github.com/" +:+ repo_owner inputs +:+ "/" +:+ repo_name inputs in
  let run := approve_merge_verify platform inputs repo n l in
  run.2 = Ret tt →
  ∃ bot_repo reviews user_repo status probes response,
    run.1 = [Core (EGetRepo (bot_token inputs) url (inr bot_repo));
             Review (ECreateReview bot_repo n "APPROVE" (inr tt));
             Core (ESleep 10);
             Review (EGetReviews repo n (inr reviews));
             Core (EGetRepo (token inputs) url (inr user_repo));
             Review (EMerge user_repo n "Merging Passing PR"
                            "Merging PR automatically as all checks have passed" "squash"
                            (inr status));
             Core (ESleep 45)]
            ++ map Core (probes ++ [EHttpGet api_url 10 (inr response)]) ∧
    approved_among reviews ∧ merged status = true ∧ status_code response = 200 ∧
    Forall failed_attempt (http_attempts probes).
Proof.
  intros url run. subst url run. release_cases; try done.
  intros _. apply verify_loop_Ret_true in Hprobes as (probes' & response & -> & Hok & Hfailed).
  exists bot_repo, reviews, user_repo, status, probes', response.
  split_and!; [done|by apply existsb_approved|done..].
Qed.

(** X18: what a run of [main] that returns has done.  If [main] returns
    without [skip_merge], its first half returned the verdict [True], and
    the rest of the run is exactly: the lookup of the repository with the
    bot's token and the approval of the change request, accepted; a sleep
    of 10; the listing of its reviews, with an approval among them; the
    lookup of the repository with the user's token and the squash merge
    with the fixed title and message, answered as done; a sleep of 45; and
    the requests of [verify_deployment], of which the last was answered
    with status 200 and every one before it failed. *)
Theorem main_released (platform : Platform) (fuel : nat) (inputs : DeployInputs) (l : log)
  (steps : list step) :
  main platform fuel inputs false l = (steps, Ret tt) →
  let url := "https://github.com/" +:+ repo_owner inputs +:+ "/" +:+ repo_name inputs in
  ∃ checked repo n bot_repo reviews user_repo status probes response,
    open_and_check platform fuel inputs false l = (checked, Ret (repo, n, true)) ∧
    steps = checked
            ++ [Core (EGetRepo (bot_token inputs) url (inr bot_repo));
                Review (ECreateReview bot_repo n "APPROVE" (inr tt));
                Core (ESleep 10);
                Review (EGetReviews repo n (inr reviews));
                Core (EGetRepo (token inputs) url (inr user_repo));
                Review (EMerge user_repo n "Merging Passing PR"
                               "Merging PR automatically as all checks have passed" "squash"
                               (inr status));
                Core (ESleep 45)]
            ++ map Core (probes ++ [EHttpGet api_url 10 (inr response)]) ∧
    approved_among reviews ∧ merged status = true ∧ status_code response = 200 ∧
    Forall failed_attempt (http_attempts probes).
Proof.
  rewrite main_run. intros Hrun url.
  destruct (open_and_check platform fuel inputs false l) as [checked [[[repo n] verdict]|e|]];
    [|done..].
  destruct verdict; [|done]. injection Hrun as <- Hret.
  destruct (approve_merge_verify_Ret platform inputs repo n (l ++ checked) Hret)
    as (bot_repo & reviews & user_repo & status & probes & response & -> & Hrest).
  by exists checked, repo, n, bot_repo, reviews, user_repo, status, probes, response.
Qed.


Lemma main_released_witness :
  let steps := (main platform_slow_start 1 acme_inputs false []).1 in
  let url := "https://github.com/" +:+ repo_owner acme_inputs +:+ "/" +:+ repo_name acme_inputs in
  ∃ checked repo n bot_repo reviews user_repo status probes response,
    open_and_check platform_slow_start 1 acme_inputs false [] = (checked, Ret (repo, n, true)) ∧
    steps = checked
            ++ [Core (EGetRepo (bot_token acme_inputs) url (inr bot_repo));
                Review (ECreateReview bot_repo n "APPROVE" (inr tt));
                Core (ESleep 10);
                Review (EGetReviews repo n (inr reviews));
                Core (EGetRepo (token acme_inputs) url (inr user_repo));
                Review (EMerge user_repo n "Merging Passing PR"
                               "Merging PR automatically as all checks have passed" "squash"
                               (inr status));
                Core (ESleep 45)]
            ++ map Core (probes ++ [EHttpGet api_url 10 (inr response)]) ∧
    approved_among reviews ∧ merged status = true ∧ status_code response = 200 ∧
    Forall failed_attempt (http_attempts probes).
Proof.
  intros steps url.
  apply (main_released platform_slow_start 1 acme_inputs [] steps). vm_compute. reflexivity.
Defined.

(** ** The first half of [main] *)

Lemma pbind_Ret_inv {A B} (m : P A) (k : A → P B) (l : log) (steps : list step) (b : B) :
  pbind m k l = (steps, Ret b) →
  ∃ s1 a s2, m l = (s1, Ret a) ∧ k a (l ++ s1) = (s2, Ret b) ∧ steps = s1 ++ s2.
Proof.
  rewrite pbind_run. destruct (m l) as [s1 [a|e|]]; [|done..].
  destruct (k a (l ++ s1)) as [s2 o] eqn:Ek. simpl. intros [= <- ->]. by exists s1, a, s2.
Qed.

Lemma lift_Ret_inv {A} (platform : Platform) (m : Host → M A) (l : log) (steps : list step)
  (a : A) :
  lift platform m l = (steps, Ret a) →
  ∃ evs, m (core_host platform l) (core_events l) = (evs, Ret a) ∧ steps = map Core evs.
Proof.
  rewrite lift_run. destruct (m _ _) as [evs o]. simpl. intros [= <- ->]. by exists evs.
Qed.

(** X19: what the first half of [main] hands on.  If it returns, its
    run is: the lookup of the repository with the user's token; the run of
    [handle_pr_creation] on that repository and the base branch ["main"];
    the lookup of the single open change request of the release branch and
    a sleep of 10; the run of [sync_local_commit_with_remote_checks] with
    the URL that [handle_pr_creation] returned; and the run of
    [monitor_checks] on the repository looked up first and the head commit
    of the change request found.  The verdict handed on is that of
    [monitor_checks], and the number handed on, which the release
    approves and merges, is the number of the change request found by the
    lookup, not the one [handle_pr_creation] returned. *)
Theorem open_and_check_data_flow (platform : Platform) (fuel : nat) (inputs : DeployInputs)
  (skip_merge : bool) (l : log) (checked : list step) (repo : repository) (n : Z)
  (verdict : bool) :
  open_and_check platform fuel inputs skip_merge l = (checked, Ret (repo, n, verdict)) →
  let url := "https://github.com/" +:+ repo_owner inputs +:+ "/" +:+ repo_name inputs in
  ∃ opened details fetch_repo pull synced evs,
    let looked_up := [Core (EGetRepo (token inputs) url (inr repo))] in
    let fetched := [Core (EGetRepo (token inputs) url (inr fetch_repo));
                    Core (EGetPulls fetch_repo (repo_owner inputs +:+ ":" +:+ release_tag inputs)
                                    "main" "open" (inr [pull]));
                    Core (ESleep 10)] in
    let before_sync := looked_up ++ map Core opened ++ fetched in
    let before_monitor := before_sync ++ map Core synced in
    checked = before_monitor ++ map Core evs ∧
    handle_pr_creation (core_host platform (l ++ looked_up)) inputs repo "main" skip_merge
                       (core_events (l ++ looked_up)) = (opened, Ret details) ∧
    sync_local_commit_with_remote_checks (core_host platform (l ++ before_sync)) fuel inputs
                                         (pr_url details) (core_events (l ++ before_sync))
    = (synced, Ret tt) ∧
    monitor_checks (core_host platform (l ++ before_monitor)) fuel repo (head_sha pull)
                   (core_events (l ++ before_monitor)) = (evs, Ret verdict) ∧
    n = number pull.
Proof.
  intros Hrun url. unfold open_and_check in Hrun.
  apply pbind_Ret_inv in Hrun as (s1 & repo' & r1 & Hrepo & Hrun & ->).
  apply lift_Ret_inv in Hrepo as (e1 & Hrepo & ->).
  apply perform_Ret_inv in Hrepo as [_ ->].
  apply pbind_Ret_inv in Hrun as (s2 & details & r2 & Hopen & Hrun & ->).
  apply lift_Ret_inv in Hopen as (opened & Hopen & ->).
  apply pbind_Ret_inv in Hrun as (s3 & [pr_number pr_sha] & r3 & Hfetch & Hrun & ->).
  apply lift_Ret_inv in Hfetch as (e3 & Hfetch & ->).
  apply fetch_pr_details_Ret_inv in Hfetch as (fetch_repo & pull & -> & -> & ->).
  apply pbind_Ret_inv in Hrun as (s4 & [] & r4 & Hsleep & Hrun & ->).
  rewrite lift_sleep_run in Hsleep by lia. injection Hsleep as <-.
  apply pbind_Ret_inv in Hrun as (s5 & [] & r5 & Hsync & Hrun & ->).
  apply lift_Ret_inv in Hsync as (synced & Hsync & ->).
  apply pbind_Ret_inv in Hrun as (s6 & verdict' & r6 & Hmon & Hrun & ->).
  apply lift_Ret_inv in Hmon as (evs & Hmon & ->).
  injection Hrun as <- <- <- <-.
  exists opened, details, fetch_repo, pull, synced, evs. cbv zeta.
  fold url in Hopen, Hsync, Hmon |- *.
  cbn [map] in *. rewrite <- !app_assoc in Hsync. rewrite <- !app_assoc in Hmon.
  rewrite <- ?app_assoc. cbn [app] in *. rewrite app_nil_r. by split_and!.
Qed.

Lemma open_and_check_data_flow_witness :
  let platform := platform_release in
  let inputs := acme_inputs in
  let checked := (open_and_check platform 1 inputs false []).1 in
  let url := "https://github.com/" +:+ repo_owner inputs +:+ "/" +:+ repo_name inputs in
  ∃ opened details fetch_repo pull synced evs,
    let looked_up := [Core (EGetRepo (token inputs) url (inr acme))] in
    let fetched := [Core (EGetRepo (token inputs) url (inr fetch_repo));
                    Core (EGetPulls fetch_repo (repo_owner inputs +:+ ":" +:+ release_tag inputs)
                                    "main" "open" (inr [pull]));
                    Core (ESleep 10)] in
    let before_sync := looked_up ++ map Core opened ++ fetched in
    let before_monitor := before_sync ++ map Core synced in
    checked = before_monitor ++ map Core evs ∧
    handle_pr_creation (core_host platform ([] ++ looked_up)) inputs acme "main" false
                       (core_events ([] ++ looked_up)) = (opened, Ret details) ∧
    sync_local_commit_with_remote_checks (core_host platform ([] ++ before_sync)) 1 inputs
                                         (pr_url details) (core_events ([] ++ before_sync))
    = (synced, Ret tt) ∧
    monitor_checks (core_host platform ([] ++ before_monitor)) 1 acme (head_sha pull)
                   (core_events ([] ++ before_monitor)) = (evs, Ret true) ∧
    7 = number pull.
Proof.
  intros platform inputs checked url.
  apply (open_and_check_data_flow platform 1 inputs false [] checked acme 7 true).
  vm_compute. reflexivity.
Defined.

(** X20: no release without passed checks.  If any step of a run of
    [main] is an approval, a listing of reviews, a merge or a request to
    the health endpoint, then [skip_merge] was off and the first half of
    [main] had returned the verdict [True].  And when the first half
    returns the verdict [False] with [skip_merge] off, [main] ends there
    with the [RuntimeError] for failed checks. *)
Theorem main_release_needs_passed_checks (platform : Platform) (fuel : nat)
  (inputs : DeployInputs) (skip_merge : bool) (l : log) :
  let run := main platform fuel inputs skip_merge l in
  let checked := open_and_check platform fuel inputs skip_merge l in
  (∀ s, s ∈ run.1 → ¬ before_release s →
        skip_merge = false ∧ ∃ repo n, checked.2 = Ret (repo, n, true)) ∧
  (skip_merge = false →
   ∀ repo n, checked.2 = Ret (repo, n, false) →
             run = (checked.1, Raise (RuntimeError "Deployment failed due to failed checks."))).
Proof.
  intros run checked. subst run checked. rewrite main_run.
  pose proof (open_and_check_before_release platform fuel inputs skip_merge l) as Hchecked.
  rewrite Forall_forall in Hchecked.
  destruct (open_and_check platform fuel inputs skip_merge l) as [checked [[[repo n] verdict]|e|]];
    cbn [fst snd] in *.
  - destruct skip_merge; cbn [fst snd].
    { split; [|done]. intros s Hs Hrel. by destruct Hrel; apply Hchecked. }
    destruct verdict; cbn [fst snd].
    + split; [|done]. intros s _ _. split; [done|]. by exists repo, n.
    + split; [|done]. intros s Hs Hrel. by destruct Hrel; apply Hchecked.
  - split; [|done]. intros s Hs Hrel. by destruct Hrel; apply Hchecked.
  - split; [|done]. intros s Hs Hrel. by destruct Hrel; apply Hchecked.
Qed.

Lemma main_release_needs_passed_checks_witness :
  false = false ∧
  ∃ repo n, (open_and_check platform_release 1 acme_inputs false []).2 = Ret (repo, n, true).
Proof.
  refine (proj1 (main_release_needs_passed_checks platform_release 1 acme_inputs false [])
                (Review (ECreateReview acme 7 "APPROVE" (inr tt))) _ _).
  - apply (list_elem_of_lookup_2 _ 18%nat). vm_compute. reflexivity.
  - intros [].
Defined.
